(** * Convection velocity between two remote microphone probes

    A shallow embedding of [compute_RMP_ConvectionVelocity.py]: the class
    [RMP_ConvectionVelocityCalculator] with its two estimators
    [compute_timedomain] (cross-correlation lag) and [compute_freqdomain]
    (slope of the cross-spectral phase).

    Numbers.  A float64 sample is modelled by an exact rational ([Qc], the
    canonical rationals, so that equal numbers are equal terms).  Sums,
    products and quotients are exact: rounding is not modelled.  What IS
    modelled of IEEE arithmetic is what the control flow of the program can
    observe: a true division by zero yields an infinity or a NaN and raises
    nothing ([npfloat]), and a comparison with a NaN is false.  Signed zeros
    are not distinguished: a zero divisor is taken to be [+0.0], which is
    what the program produces for a zero lag and a positive sampling
    frequency.  No result of the examples below depends on the sign of a
    zero.

    Failures.  A Python exception is a value [Raise e] of the type
    [result]; the program itself contains no [raise] and no [try]. *)

From Stdlib Require Import List ZArith QArith Qcanon Qabs Qcabs Qround.
From Stdlib Require Import Lia Lqa Bool Arith PeanoNat.
Import ListNotations.

Open Scope Qc_scope.

(* ================================================================== *)
(** ** Python: exceptions, sequences, [max] *)

Inductive exn : Type :=
| ValueError | IndexError | TypeError | ZeroDivisionError | LinAlgError.

Inductive result (A : Type) : Type :=
| Ok (a : A)
| Raise (e : exn).

Arguments Ok {A} a.
Arguments Raise {A} e.

Definition bind {A B : Type} (m : result A) (k : A -> result B) : result B :=
  match m with
  | Ok a => k a
  | Raise e => Raise e
  end.

Notation "x <- m ;; k" := (bind m (fun x => k))
  (at level 61, m at next level, right associativity).
Notation "' pat <- m ;; k" := (bind m (fun x => match x with pat => k end))
  (at level 61, pat pattern, m at next level, right associativity).

(** [enumerate(xs)]: the pairs (index, value), in index order. *)
Definition enumerate {A : Type} (xs : list A) : list (nat * A) :=
  combine (seq 0 (length xs)) xs.

(** [xs[i]] for an index [i >= 0]. *)
Definition getitem {A : Type} (xs : list A) (i : nat) : result A :=
  match nth_error xs i with
  | Some v => Ok v
  | None => Raise IndexError
  end.

(** [xs[-1]]. *)
Definition getitem_last {A : Type} (xs : list A) : result A :=
  match rev xs with
  | v :: _ => Ok v
  | [] => Raise IndexError
  end.

(** [xs[a:b]] for [0 <= a] and [0 <= b]. *)
Definition slice {A : Type} (a b : nat) (xs : list A) : list A :=
  skipn a (firstn b xs).

(** Comparisons of numbers, as booleans. *)
Definition Qceqb (x y : Qc) : bool :=
  match x ?= y with Eq => true | _ => false end.
Definition Qcltb (x y : Qc) : bool :=
  match x ?= y with Lt => true | _ => false end.
Definition Qcleb (x y : Qc) : bool :=
  match x ?= y with Gt => false | _ => true end.

(** Python orders tuples lexicographically: [(v1, i1) < (v2, i2)]. *)
Definition tuple_lt (p q : Qc * nat) : bool :=
  Qcltb (fst p) (fst q) || (Qceqb (fst p) (fst q) && (snd p <? snd q)%nat).

(** [max(iterable)]: the running maximum is replaced only by a strictly
    greater item; an empty iterable raises [ValueError]. *)
Fixpoint max_from (cur : Qc * nat) (items : list (Qc * nat)) : Qc * nat :=
  match items with
  | [] => cur
  | item :: rest => max_from (if tuple_lt cur item then item else cur) rest
  end.

Definition py_max (items : list (Qc * nat)) : result (Qc * nat) :=
  match items with
  | [] => Raise ValueError
  | item :: rest => Ok (max_from item rest)
  end.

(* ================================================================== *)
(** ** NumPy: float64 scalars with their non-finite values *)

Inductive npfloat : Type :=
| Fin (q : Qc)
| PInf
| NInf
| NaN.

Definition qc (n : Z) (d : positive) : Qc := Q2Qc (n # d).
Definition Qc_of_Z (z : Z) : Qc := Q2Qc (inject_Z z).
Definition Qc_of_nat (n : nat) : Qc := Qc_of_Z (Z.of_nat n).

(** [q / 0.0]: the sign of the numerator decides, and [0.0 / 0.0] is NaN.
    NumPy emits a [RuntimeWarning] and returns the value. *)
Definition div_by_zero (q : Qc) : npfloat :=
  if Qcltb 0 q then PInf else if Qcltb q 0 then NInf else NaN.

Definition np_true_divide (a b : npfloat) : npfloat :=
  match a, b with
  | NaN, _ | _, NaN => NaN
  | Fin x, Fin y => if Qceqb y 0 then div_by_zero x else Fin (x / y)
  | Fin _, (PInf | NInf) => Fin 0
  | PInf, Fin y => if Qcltb y 0 then NInf else PInf
  | NInf, Fin y => if Qcltb y 0 then PInf else NInf
  | (PInf | NInf), (PInf | NInf) => NaN
  end.

Definition np_negative (a : npfloat) : npfloat :=
  match a with
  | Fin x => Fin (- x)
  | PInf => NInf
  | NInf => PInf
  | NaN => NaN
  end.

Definition np_multiply (a b : npfloat) : npfloat :=
  match a, b with
  | NaN, _ | _, NaN => NaN
  | Fin x, Fin y => Fin (x * y)
  | Fin x, PInf | PInf, Fin x => div_by_zero x
  | Fin x, NInf | NInf, Fin x => np_negative (div_by_zero x)
  | PInf, PInf | NInf, NInf => PInf
  | PInf, NInf | NInf, PInf => NInf
  end.

(** [a >= b]; false as soon as one side is NaN. *)
Definition np_greater_equal (a b : npfloat) : bool :=
  match a, b with
  | NaN, _ | _, NaN => false
  | Fin x, Fin y => Qcleb y x
  | PInf, _ => true
  | _, NInf => true
  | _, _ => false
  end.

Definition Qcsum (xs : list Qc) : Qc := fold_right Qcplus 0 xs.

(** [np.mean(x)].  The mean of an empty array is NaN in NumPy; the program
    only subtracts it from the elements of that same (empty) array, so the
    value given here to the empty case is never observed. *)
Definition np_mean (xs : list Qc) : Qc := Qcsum xs / Qc_of_nat (length xs).

(** [abs(x)], elementwise. *)
Definition np_abs (xs : list Qc) : list Qc := map Qcabs xs.

(* ================================================================== *)
(** ** SciPy: correlation *)

Definition nth0 (xs : list Qc) (i : nat) : Qc := nth i xs 0.

(** [np.convolve(a, v, 'full')]: [out[k] = sum_m a[m] * v[k - m]], for
    [k = 0 .. len(a) + len(v) - 2]. *)
Definition convolve_full (a v : list Qc) : list Qc :=
  map (fun k => Qcsum (map (fun m => nth0 a m * nth0 v (k - m)) (seq 0 (S k))))
      (seq 0 (length a + length v - 1)).

(** [signal.correlate(in1, in2)] with the defaults [mode='full'],
    [method='auto']: SciPy evaluates it as the convolution of [in1] with
    the reversed (and, for complex data, conjugated) [in2].  An empty
    operand is refused by [np.convolve] with a [ValueError]. *)
Definition signal_correlate (in1 in2 : list Qc) : result (list Qc) :=
  match in1, in2 with
  | [], _ | _, [] => Raise ValueError
  | _, _ => Ok (convolve_full in1 (rev in2))
  end.

(** [signal.correlation_lags(in1_len, in2_len)] with [mode='full']:
    [np.arange(-in2_len + 1, in1_len)]. *)
Definition np_arange (lo hi : Z) : list Z :=
  map (fun i => (lo + Z.of_nat i)%Z) (seq 0 (Z.to_nat (hi - lo))).

Definition signal_correlation_lags (in1_len in2_len : nat) : list Z :=
  np_arange (- Z.of_nat in2_len + 1) (Z.of_nat in1_len).

(** The cross-correlation in the words of the specification: the full,
    non-circular cross-correlation of [x] and [y] at the integer [lag] is
    the sum of [x[n + lag] * y[n]] over the samples [n] of [y], a sample of
    [x] outside of the signal counting for zero. *)
Definition sample (x : list Qc) (z : Z) : Qc :=
  if (z <? 0)%Z then 0 else nth0 x (Z.to_nat z).

Definition cross_correlation (x y : list Qc) (lag : Z) : Qc :=
  Qcsum (map (fun n => sample x (Z.of_nat n + lag) * nth0 y n) (seq 0 (length y))).


(* ================================================================== *)
(** ** The calculator and its time-domain estimator *)

Record RMP_ConvectionVelocityCalculator : Type := {
  RMP_data_1 : list Qc;
  RMP_data_2 : list Qc;
  RMP_x1 : Qc;
  RMP_x2 : Qc;
  fs : Qc
}.

(** The [result_plot] dictionary of [compute_timedomain]. *)
Record timedomain_plot : Type := {
  Rxy : list Qc;
  lags : list Z
}.

(** [data - np.mean(data)] *)
Definition fluctuations (data : list Qc) : list Qc :=
  map (fun v => v - np_mean data) data.

(** [max((val, idx) for (idx, val) in enumerate(abs(Rxy)))], second
    component. *)
Definition ind_Rxy_max (Rxy : list Qc) : result nat :=
  p <- py_max (map (fun iv => (snd iv, fst iv)) (enumerate (np_abs Rxy))) ;;
  Ok (snd p).

Definition compute_timedomain (self : RMP_ConvectionVelocityCalculator)
  : result (npfloat * timedomain_plot) :=
  let RMP_data_f_1 := fluctuations (RMP_data_1 self) in
  let RMP_data_f_2 := fluctuations (RMP_data_2 self) in
  Rxy <- signal_correlate RMP_data_f_1 RMP_data_f_2 ;;
  let lags := signal_correlation_lags (length RMP_data_f_1) (length RMP_data_f_2) in
  ind_Rxy_max <- ind_Rxy_max Rxy ;;
  lagDiff <- getitem lags ind_Rxy_max ;;
  let timeDiff := np_true_divide (Fin (Qc_of_Z lagDiff)) (Fin (fs self)) in
  let Ucv := np_true_divide (Fin (RMP_x2 self - RMP_x1 self)) timeDiff in
  Ok (Ucv, {| Rxy := Rxy; lags := lags |}).

(** The local variable [lagDiff] of [compute_timedomain], as a function of
    the calculator: the same statements, up to [lagDiff = lags[ind_Rxy_max]]. *)
Definition lagDiff (self : RMP_ConvectionVelocityCalculator) : result Z :=
  let RMP_data_f_1 := fluctuations (RMP_data_1 self) in
  let RMP_data_f_2 := fluctuations (RMP_data_2 self) in
  Rxy <- signal_correlate RMP_data_f_1 RMP_data_f_2 ;;
  let lags := signal_correlation_lags (length RMP_data_f_1) (length RMP_data_f_2) in
  ind_Rxy_max <- ind_Rxy_max Rxy ;;
  getitem lags ind_Rxy_max.

(* ================================================================== *)
(** ** The library functions that are not rational

    The cosine and sine behind the Hann window and the discrete Fourier
    transform, the constant [np.pi] and [np.arctan2] (behind [np.angle])
    return float64 values, that is rationals, which approximate irrational
    numbers.  They are kept as the operations of an interface; the
    estimator is defined, and its properties are proved, for every
    implementation of it. *)

Class Transcendentals : Type := {
  cos2pi : Qc -> Qc;            (* t |-> cos (2 pi t) *)
  sin2pi : Qc -> Qc;            (* t |-> sin (2 pi t) *)
  np_pi : Qc;                   (* np.pi *)
  np_arctan2 : Qc -> Qc -> Qc   (* np.arctan2(y, x) *)
}.

(** complex128 scalars *)
Record complex : Type := mkC { re : Qc; im : Qc }.

Definition Cplus (a b : complex) : complex := mkC (re a + re b) (im a + im b).
Definition Cmult (a b : complex) : complex :=
  mkC (re a * re b - im a * im b) (re a * im b + im a * re b).
Definition Cconj (a : complex) : complex := mkC (re a) (- im a).
Definition Cscale (k : Qc) (a : complex) : complex := mkC (k * re a) (k * im a).
Definition Czero : complex := mkC 0 0.
Definition Csum (zs : list complex) : complex := fold_right Cplus Czero zs.

(** [abs(z)**2] *)
Definition Cnorm2 (a : complex) : Qc := re a * re a + im a * im a.

(** A binary elementwise operation on two 1-D arrays, with NumPy's
    broadcasting: equal lengths, or one operand of length one. *)
Definition np_broadcast {A B C : Type} (f : A -> B -> C) (xs : list A) (ys : list B)
  : result (list C) :=
  if (length xs =? length ys)%nat then Ok (map (fun p => f (fst p) (snd p)) (combine xs ys))
  else match xs, ys with
       | x :: nil, _ => Ok (map (f x) ys)
       | _, y :: nil => Ok (map (fun x => f x y) xs)
       | _, _ => Raise ValueError
       end.

(** [np.diff] and [np.cumsum] *)
Fixpoint np_diff (p : list Qc) : list Qc :=
  match p with
  | a :: ((b :: _) as rest) => (b - a) :: np_diff rest
  | _ => []
  end.

Fixpoint cumsum_from (acc : Qc) (xs : list Qc) : list Qc :=
  match xs with
  | [] => []
  | x :: rest => (acc + x) :: cumsum_from (acc + x) rest
  end.

Definition np_cumsum (xs : list Qc) : list Qc := cumsum_from 0 xs.

Definition Qcfloor (q : Qc) : Z := Qfloor q.

(** [np.mod(a, m)] for floats: [a - m * floor(a / m)]. *)
Definition np_mod (a m : Qc) : Qc := a - m * Qc_of_Z (Qcfloor (a / m)).

(** Least-squares line over points with abscissae [x] and ordinates [y]:
    the sums that enter the normal equations. *)
Definition Sxx (x : list Qc) : Qc := Qcsum (map (fun a => a * a) x).
Definition Sxy (x y : list Qc) : Qc :=
  Qcsum (map (fun p => fst p * snd p) (combine x y)).

(** [np.polyfit(x, y, 1)], returning [(P[0], P[1])] = (slope, intercept).
    NumPy solves the least-squares problem for the column-scaled
    Vandermonde matrix with [lstsq] (an SVD).  With at least two distinct
    abscissae the solution is unique; otherwise (one point, or all
    abscissae equal to some [x0]) the matrix has rank one, NumPy warns
    ([RankWarning]) and returns the solution of minimum norm in the scaled
    unknowns, which is the line through [(x0, mean y)] with intercept
    [mean y / 2].  Empty or mismatched data raise [TypeError]. *)
Definition np_polyfit1 (x y : list Qc) : result (Qc * Qc) :=
  match x with
  | [] => Raise TypeError
  | x0 :: _ =>
      if negb (length x =? length y)%nat then Raise TypeError
      else
        let n := Qc_of_nat (length x) in
        let D := n * Sxx x - Qcsum x * Qcsum x in
        if Qceqb D 0 then
          if Qceqb x0 0 then Raise LinAlgError
          else Ok (np_mean y / (qc 2 1 * x0), np_mean y / qc 2 1)
        else
          Ok ((n * Sxy x y - Qcsum x * Qcsum y) / D,
              (Qcsum y * Sxx x - Qcsum x * Sxy x y) / D)
  end.

(** Ordinary least squares in the words of the specification: the sum of
    the squared residuals of the line [a * x + b] over the points, which
    the fitted line has to make as small as possible. *)
Definition squared_error (x y : list Qc) (a b : Qc) : Qc :=
  Qcsum (map (fun p => (snd p - (a * fst p + b)) * (snd p - (a * fst p + b)))
             (combine x y)).

Section Spectral.

Context {T : Transcendentals}.

(** [np.angle(z)] *)
Definition np_angle (z : complex) : Qc := np_arctan2 (im z) (re z).

(** [np.unwrap(p)] with the default period [2 pi]. *)
Definition unwrap_ddmod (dd : Qc) : Qc :=
  let ddmod := np_mod (dd + np_pi) (qc 2 1 * np_pi) - np_pi in
  if Qceqb ddmod (- np_pi) && Qcltb 0 dd then np_pi else ddmod.

Definition unwrap_ph_correct (dd : Qc) : Qc :=
  if Qcltb (Qcabs dd) np_pi then 0 else unwrap_ddmod dd - dd.

Definition np_unwrap (p : list Qc) : list Qc :=
  match p with
  | [] => []
  | p0 :: rest =>
      p0 :: map (fun pc => fst pc + snd pc)
                (combine rest (np_cumsum (map unwrap_ph_correct (np_diff p))))
  end.

(** [signal.get_window('hann', M)]: the periodic Hann window. *)
Definition get_window_hann (M : nat) : list Qc :=
  match M with
  | O => []
  | S O => 1 :: nil
  | _ => map (fun n => qc 1 2 - qc 1 2 * cos2pi (Qc_of_nat n / Qc_of_nat M)) (seq 0 M)
  end.

(** [exp(-2 pi i t)] *)
Definition cis (t : Qc) : complex := mkC (cos2pi t) (- sin2pi t).

(** [rfft(v, n=nfft)]: [v] is cut or zero-padded to [nfft] samples, and the
    bins [0 .. nfft // 2] are returned. *)
Definition rfft (v : list Qc) (nfft : nat) : list complex :=
  map (fun f =>
         Csum (map (fun mv => Cscale (snd mv)
                                (cis (Qc_of_nat (f * fst mv) / Qc_of_nat nfft)))
                   (enumerate (firstn nfft v))))
      (seq 0 (nfft / 2 + 1)).

(** [rfftfreq(nfft, 1 / fs)] *)
Definition rfftfreq (nfft : nat) (fs : Qc) : list Qc :=
  map (fun i => Qc_of_nat i * (fs / Qc_of_nat nfft)) (seq 0 (nfft / 2 + 1)).

(** The segments of Welch's method: windows of [nperseg] samples whose
    starts are [step] samples apart, as long as they fit. *)
Definition segments (x : list Qc) (nperseg step : nat) : list (list Qc) :=
  map (fun k => firstn nperseg (skipn (k * step) x))
      (seq 0 ((length x - nperseg) / step + 1)).

Definition detrend_constant (seg : list Qc) : list Qc :=
  map (fun v => v - np_mean seg) seg.

Definition times (a b : list Qc) : list Qc :=
  map (fun p => fst p * snd p) (combine a b).

(** The windowed transforms of the segments of one signal. *)
Definition fft_helper (x win : list Qc) (nperseg noverlap nfft : nat)
  : list (list complex) :=
  map (fun seg => rfft (times win (detrend_constant seg)) nfft)
      (segments x nperseg (nperseg - noverlap)).

(** One-sided spectra: every bin but the first, and but the last when
    [nfft] is even (the Nyquist bin), is doubled. *)
Definition onesided_factor (nfft f : nat) : Qc :=
  if (f =? 0)%nat then 1
  else if Nat.even nfft && (f =? nfft / 2)%nat then 1
  else qc 2 1.

(** [np.conjugate(X) * Y * scale] for one segment, with the doubling of
    the one-sided spectrum. *)
Definition cross_periodogram (scale : Qc) (nfft : nat) (Xk Yk : list complex)
  : list complex :=
  map (fun fab => Cscale (scale * onesided_factor nfft (fst fab))
                    (Cmult (Cconj (fst (snd fab))) (snd (snd fab))))
      (enumerate (combine Xk Yk)).

(** [Pxy.mean(axis=-1)]: the mean over the segments, bin by bin. *)
Definition mean_over_segments (nbins : nat) (periodograms : list (list complex))
  : list complex :=
  map (fun f => Cscale (1 / Qc_of_nat (length periodograms))
                  (Csum (map (fun seg => nth f seg Czero) periodograms)))
      (seq 0 nbins).

Definition zero_pad (n : nat) (x : list Qc) : list Qc :=
  x ++ repeat 0 (n - length x).

(** [signal.csd(x, y, fs, nperseg=.., noverlap=.., window='hann', nfft=..)]:
    Welch's averaged cross periodogram, density scaling, one-sided. *)
Definition signal_csd (x y : list Qc) (fs : Qc) (nperseg noverlap nfft : nat)
  : result (list Qc * list complex) :=
  if (length x =? 0)%nat || (length y =? 0)%nat then Ok ([], [])
  else
    let n := Nat.max (length x) (length y) in
    let x := zero_pad n x in
    let y := zero_pad n y in
    if (nperseg <? 1)%nat then Raise ValueError
    else
      let nperseg := Nat.min nperseg n in
      let win := get_window_hann nperseg in
      if (nfft <? nperseg)%nat then Raise ValueError
      else if (nperseg <=? noverlap)%nat then Raise ValueError
      else if Qceqb fs 0 then Raise ZeroDivisionError
      else
        let scale := 1 / (fs * Qcsum (times win win)) in
        let freqs := rfftfreq nfft fs in
        let X := fft_helper x win nperseg noverlap nfft in
        let Y := fft_helper y win nperseg noverlap nfft in
        let periodograms :=
          map (fun XY => cross_periodogram scale nfft (fst XY) (snd XY))
              (combine X Y) in
        Ok (freqs, mean_over_segments (nfft / 2 + 1) periodograms).

(** What the three spectral estimates of [compute_freqdomain] share when
    the two recordings have the same length: the transforms of the
    segments of a signal, and the density scale. *)
Definition segment_spectra (x : list Qc) (nperseg noverlap nfft : nat)
  : list (list complex) :=
  fft_helper x (get_window_hann (Nat.min nperseg (length x)))
             (Nat.min nperseg (length x)) noverlap nfft.

Definition density_scale (fs : Qc) (nperseg n : nat) : Qc :=
  1 / (fs * Qcsum (times (get_window_hann (Nat.min nperseg n))
                         (get_window_hann (Nat.min nperseg n)))).

(** The sum over the segments of [conj(X) * Y] at the bin [f]. *)
Definition bin_sum (f : nat) (X Y : list (list complex)) : complex :=
  Csum (map (fun XY => Cmult (Cconj (nth f (fst XY) Czero)) (nth f (snd XY) Czero))
            (combine X Y)).

(** [signal.welch(x, fs, ...)]: the real part of [csd(x, x, ...)]. *)
Definition signal_welch (x : list Qc) (fs : Qc) (nperseg noverlap nfft : nat)
  : result (list Qc * list Qc) :=
  ' (freqs, Pxx) <- signal_csd x x fs nperseg noverlap nfft ;;
  Ok (freqs, map re Pxx).

(** The [result_plot] dictionary of [compute_freqdomain]. *)
Record freqdomain_plot : Type := {
  gamma2 : list npfloat;
  ind_fmax_fit : nat;
  f_Pxy : list Qc;
  P : Qc * Qc;
  Pxy : list complex
}.

(** [abs(Pxy)**2 / (Pxx * Pyy)] *)
Definition coherence (Pxy : list complex) (Pxx Pyy : list Qc) : result (list npfloat) :=
  den <- np_broadcast Qcmult Pxx Pyy ;;
  np_broadcast (fun a b => np_true_divide (Fin a) (Fin b)) (map Cnorm2 Pxy) den.

(** [val >= 0.1] *)
Definition coherent (val : npfloat) : bool := np_greater_equal val (Fin (qc 1 10)).

(** [[ind for ind, val in enumerate(gamma2) if val >= 0.1]] *)
Definition ind_tmp (gamma2 : list npfloat) : list nat :=
  map fst (filter (fun iv => coherent (snd iv)) (enumerate gamma2)).

Definition compute_freqdomain (self : RMP_ConvectionVelocityCalculator)
  (N_window N_overlap : nat) : result (npfloat * freqdomain_plot) :=
  ' (f_Pxy, Pxy) <- signal_csd (RMP_data_1 self) (RMP_data_2 self) (fs self)
                               N_window N_overlap N_window ;;
  ' (_, Pxx) <- signal_welch (RMP_data_1 self) (fs self) N_window N_overlap N_window ;;
  ' (_, Pyy) <- signal_welch (RMP_data_2 self) (fs self) N_window N_overlap N_window ;;
  gamma2 <- coherence Pxy Pxx Pyy ;;
  ind_fmax_fit <- getitem_last (ind_tmp gamma2) ;;
  let phi_xy := map np_angle (slice 1 ind_fmax_fit Pxy) in
  P <- np_polyfit1 (slice 1 ind_fmax_fit f_Pxy) (np_unwrap phi_xy) ;;
  let Ucv := np_multiply
               (np_multiply
                  (np_true_divide (Fin (RMP_x2 self - RMP_x1 self)) (Fin (fst P)))
                  (Fin (qc 2 1)))
               (Fin np_pi) in
  Ok (Ucv, {| gamma2 := gamma2; ind_fmax_fit := ind_fmax_fit;
              f_Pxy := f_Pxy; P := P; Pxy := Pxy |}).

(** The first statements of [compute_freqdomain], up to [gamma2], as a
    function of the calculator: frequency axis, cross-spectral density and
    coherence. *)
Definition spectra (self : RMP_ConvectionVelocityCalculator)
  (N_window N_overlap : nat) : result (list Qc * list complex * list npfloat) :=
  ' (f_Pxy, Pxy) <- signal_csd (RMP_data_1 self) (RMP_data_2 self) (fs self)
                               N_window N_overlap N_window ;;
  ' (_, Pxx) <- signal_welch (RMP_data_1 self) (fs self) N_window N_overlap N_window ;;
  ' (_, Pyy) <- signal_welch (RMP_data_2 self) (fs self) N_window N_overlap N_window ;;
  gamma2 <- coherence Pxy Pxx Pyy ;;
  Ok (f_Pxy, Pxy, gamma2).

End Spectral.

(** An implementation of the interface for small examples: the cosine and
    the sine are exact at the quarter turns, and the cosine at the thirds
    of a turn as well, which are the only angles met with Hann windows of
    up to 4 samples and transforms of 1, 2 or 4 points; [np.pi] is the
    float64 nearest to pi; and [arctan2] is the "diamond angle", exact on
    the axes and the diagonals and monotone in between. *)
Definition turn_fraction (t : Qc) : Qc := t - Qc_of_Z (Qcfloor t).

Definition quarter (t : Qc) : Z := Qcfloor (qc 4 1 * turn_fraction t).

Definition cos_grid (t : Qc) : Qc :=
  if Qceqb (turn_fraction t) (qc 1 3) || Qceqb (turn_fraction t) (qc 2 3)
  then - qc 1 2
  else match quarter t with
       | 0%Z => 1
       | 2%Z => - (1)
       | _ => 0
       end.

Definition sin_grid (t : Qc) : Qc :=
  match quarter t with
  | 1%Z => 1
  | 3%Z => - (1)
  | _ => 0
  end.

Definition pi_float64 : Qc := qc 884279719003555 281474976710656.

Definition arctan2_diamond (y x : Qc) : Qc :=
  if Qceqb x 0 && Qceqb y 0 then 0
  else
    let s := Qcabs x + Qcabs y in
    if Qcleb 0 x then pi_float64 / qc 2 1 * (y / s)
    else if Qcleb 0 y then pi_float64 / qc 2 1 * (qc 2 1 - y / s)
    else pi_float64 / qc 2 1 * (- qc 2 1 - y / s).

#[local] Instance quarter_turns : Transcendentals := {
  cos2pi := cos_grid;
  sin2pi := sin_grid;
  np_pi := pi_float64;
  np_arctan2 := arctan2_diamond
}.

(* ================================================================== *)
(** ** Changes of the calculator that the specification speaks of *)


(** Sensor 1 and sensor 2 exchanged: recordings and positions. *)
Definition exchanged (self : RMP_ConvectionVelocityCalculator)
  : RMP_ConvectionVelocityCalculator := {|
  RMP_data_1 := RMP_data_2 self;
  RMP_data_2 := RMP_data_1 self;
  RMP_x1 := RMP_x2 self;
  RMP_x2 := RMP_x1 self;
  fs := fs self
|}.

(* ================================================================== *)
(** ** Recordings used as examples *)

(** Two recordings of three samples, of mean zero, whose correlation has
    the same absolute value at four lags. *)
Definition tie_probes : RMP_ConvectionVelocityCalculator := {|
  RMP_data_1 := [qc 1 1; qc (-1) 1; qc 0 1];
  RMP_data_2 := [qc 1 1; qc 0 1; qc (-1) 1];
  RMP_x1 := qc 0 1;
  RMP_x2 := qc 1 100;
  fs := qc 10 1
|}.

(** The same recording on both probes: the correlation peaks at lag 0. *)
Definition same_probes : RMP_ConvectionVelocityCalculator := {|
  RMP_data_1 := [qc 1 1; qc 2 1];
  RMP_data_2 := [qc 1 1; qc 2 1];
  RMP_x1 := qc 0 1;
  RMP_x2 := qc 1 100;
  fs := qc 10 1
|}.

(** A pulse that reaches the second probe two samples after the first. *)
Definition delayed_probes : RMP_ConvectionVelocityCalculator := {|
  RMP_data_1 := [qc 4 1; qc 0 1; qc 0 1; qc 0 1];
  RMP_data_2 := [qc 0 1; qc 0 1; qc 4 1; qc 0 1];
  RMP_x1 := qc 0 1;
  RMP_x2 := qc 1 100;
  fs := qc 10 1
|}.

(** Two recordings of four samples, analysed with one window of four
    samples: the cross-spectrum is [1/6], [-i/3], [-1/6] on the frequency
    axis [0, 1, 2] Hz, and the coherence is 1 in every bin. *)
Definition quadrature_probes : RMP_ConvectionVelocityCalculator := {|
  RMP_data_1 := [qc 0 1; qc 1 1; qc 2 1; qc 1 1];
  RMP_data_2 := [qc 0 1; qc 2 1; qc 2 1; qc 4 1];
  RMP_x1 := qc 0 1;
  RMP_x2 := qc 1 1;
  fs := qc 4 1
|}.

Definition quadrature_plot : freqdomain_plot := {|
  gamma2 := [Fin (qc 1 1); Fin (qc 1 1); Fin (qc 1 1)];
  ind_fmax_fit := 2;
  f_Pxy := [qc 0 1; qc 1 1; qc 2 1];
  P := (- pi_float64 / qc 4 1, - pi_float64 / qc 4 1);
  Pxy := [mkC (qc 1 6) (qc 0 1); mkC (qc 0 1) (qc (-1) 3); mkC (qc (-1) 6) (qc 0 1)]
|}.



(** A triangle wave of eight samples and the same wave one sample later,
    analysed with a window of eight samples. *)
Definition triangle_probes : RMP_ConvectionVelocityCalculator := {|
  RMP_data_1 := [qc 0 1; qc 1 1; qc 2 1; qc 1 1; qc 0 1; qc (-1) 1; qc (-2) 1; qc (-1) 1];
  RMP_data_2 := [qc (-1) 1; qc 0 1; qc 1 1; qc 2 1; qc 1 1; qc 0 1; qc (-1) 1; qc (-2) 1];
  RMP_x1 := qc 0 1;
  RMP_x2 := qc 1 1;
  fs := qc 8 1
|}.



(** A pulse on the first probe and the opposite pulse, two samples later,
    on the second. *)
Definition inverted_probes : RMP_ConvectionVelocityCalculator := {|
  RMP_data_1 := [qc 4 1; qc 0 1; qc 0 1; qc 0 1];
  RMP_data_2 := [qc 0 1; qc 0 1; qc (-4) 1; qc 0 1];
  RMP_x1 := qc 0 1;
  RMP_x2 := qc 1 100;
  fs := qc 10 1
|}.

(* ================================================================== *)
(** ** Changes of the recordings *)



(** The same samples, taken [k] times as fast: [fs] multiplied by [k]. *)
Definition with_sampling_frequency (self : RMP_ConvectionVelocityCalculator) (k : Qc)
  : RMP_ConvectionVelocityCalculator := {|
  RMP_data_1 := RMP_data_1 self;
  RMP_data_2 := RMP_data_2 self;
  RMP_x1 := RMP_x1 self;
  RMP_x2 := RMP_x2 self;
  fs := k * fs self
|}.

(* ================================================================== *)
(** ** The plotting methods

    Matplotlib draws on the screen and writes a file.  Of [plot_timedomain]
    and [plot_freqdomain] the embedding keeps what the methods compute
    themselves: the arrays and numbers that they hand to Matplotlib, one
    field for each call that draws data, and the exceptions that computing
    these arguments can raise.  What Matplotlib does with them is not
    modelled. *)

(** [max(xs)] on an array of floats: the running maximum is replaced only
    by a strictly greater element; an empty array raises [ValueError]. *)
Fixpoint max_float_from (cur : Qc) (items : list Qc) : Qc :=
  match items with
  | [] => cur
  | item :: rest => max_float_from (if Qcltb cur item then item else cur) rest
  end.

Definition py_max_float (items : list Qc) : result Qc :=
  match items with
  | [] => Raise ValueError
  | item :: rest => Ok (max_float_from item rest)
  end.

(** [xs[mask]] for a boolean array [mask]: the elements of [xs] where the
    mask is true; NumPy raises [IndexError] when the sizes differ. *)
Definition np_getitem_mask {A : Type} (xs : list A) (mask : list bool)
  : result (list A) :=
  if (length xs =? length mask)%nat
  then Ok (map fst (filter snd (combine xs mask)))
  else Raise IndexError.

(** [a + b] on float64 scalars. *)
Definition np_add (a b : npfloat) : npfloat :=
  match a, b with
  | NaN, _ | _, NaN => NaN
  | Fin x, Fin y => Fin (x + y)
  | PInf, NInf | NInf, PInf => NaN
  | PInf, _ | _, PInf => PInf
  | NInf, _ | _, NInf => NInf
  end.

(** [lags / self.fs], elementwise. *)
Definition lags_in_seconds (fs : Qc) (lags : list Z) : list npfloat :=
  map (fun l => np_true_divide (Fin (Qc_of_Z l)) (Fin fs)) lags.

(** The arrays that [plot_timedomain] computes and passes to matplotlib.
    The drawing itself, with the checks that matplotlib makes on its
    arguments and the file that it writes, is outside of the embedding. *)
Record timedomain_figure : Type := {
  (* plt.plot(lags / fs, Rxy / max(Rxy)) *)
  correlation_curve : list npfloat * list npfloat;
  (* plt.axvline(x=lags[Rxy == max(Rxy)] / fs) *)
  max_line : list npfloat
}.

Definition plot_timedomain (self : RMP_ConvectionVelocityCalculator)
  (result_plot : timedomain_plot) : result timedomain_figure :=
  let tau := lags_in_seconds (fs self) (lags result_plot) in
  Rxy_max <- py_max_float (Rxy result_plot) ;;
  let Rxy_norm := map (fun v => np_true_divide (Fin v) (Fin Rxy_max)) (Rxy result_plot) in
  Rxy_max' <- py_max_float (Rxy result_plot) ;;
  lags_max <- np_getitem_mask (lags result_plot)
                              (map (fun v => Qceqb v Rxy_max') (Rxy result_plot)) ;;
  Ok {| correlation_curve := (tau, Rxy_norm);
        max_line := lags_in_seconds (fs self) lags_max |}.

(** The arrays that [plot_freqdomain] computes and passes to matplotlib;
    the drawing itself is outside of the embedding. *)
Record freqdomain_figure : Type := {
  (* axs[0].axvspan(f_Pxy[ind_fmax_fit], 8000) and
     axs[1].axvspan(f_Pxy[ind_fmax_fit], 4000): the left edge of the bands *)
  fit_limit : Qc * Qc;
  (* axs[0].semilogx(f_Pxy, gamma2) *)
  coherence_curve : list Qc * list npfloat;
  (* axs[0].semilogx(f_Pxy[ind_fmax_fit], gamma2[ind_fmax_fit], 'ro') *)
  coherence_limit : Qc * npfloat;
  (* axs[1].plot(f_Pxy, np.unwrap(np.angle(Pxy)) * 180 / np.pi) *)
  phase_curve : list Qc * list npfloat;
  (* axs[1].plot(f_Pxy, P[0] * f_Pxy * 180 / np.pi + P[1] * 180 / np.pi, 'r--') *)
  fit_line : list Qc * list npfloat;
  (* axs[1].plot(fmax, P[0] * fmax * 180 / np.pi + P[1] * 180 / np.pi, 'ro') *)
  fit_limit_point : Qc * npfloat
}.

Section Plots.

Context {T : Transcendentals}.

(** [v * 180 / np.pi] *)
Definition degrees (v : Qc) : npfloat :=
  np_true_divide (Fin (v * qc 180 1)) (Fin np_pi).

(** [P[0] * f * 180 / np.pi + P[1] * 180 / np.pi] *)
Definition fitted_degrees (P : Qc * Qc) (f : Qc) : npfloat :=
  np_add (degrees (fst P * f)) (degrees (snd P)).

Definition plot_freqdomain (self : RMP_ConvectionVelocityCalculator)
  (result_plot : freqdomain_plot) : result freqdomain_figure :=
  fmax <- getitem (f_Pxy result_plot) (ind_fmax_fit result_plot) ;;
  span0 <- getitem (f_Pxy result_plot) (ind_fmax_fit result_plot) ;;
  f_lim <- getitem (f_Pxy result_plot) (ind_fmax_fit result_plot) ;;
  gamma2_lim <- getitem (gamma2 result_plot) (ind_fmax_fit result_plot) ;;
  span1 <- getitem (f_Pxy result_plot) (ind_fmax_fit result_plot) ;;
  Ok {| fit_limit := (span0, span1);
        coherence_curve := (f_Pxy result_plot, gamma2 result_plot);
        coherence_limit := (f_lim, gamma2_lim);
        phase_curve := (f_Pxy result_plot,
                        map degrees (np_unwrap (map np_angle (Pxy result_plot))));
        fit_line := (f_Pxy result_plot,
                     map (fitted_degrees (P result_plot)) (f_Pxy result_plot));
        fit_limit_point := (fmax, fitted_degrees (P result_plot) fmax) |}.

End Plots.

(* ================================================================== *)
(** ** The example script

    [main] reads two recordings from files, removes the low frequencies
    with a Butterworth high-pass filter, and runs the two estimators and
    the two plots.  The recordings read from the files are arguments of the
    embedding, and so are the coefficients of the filter, which
    [signal.butter] computes with tangents and square roots. *)

(** One row of an array of second-order sections:
    [b0, b1, b2, a0, a1, a2]. *)
Record sos_section : Type := {
  sos_b0 : Qc; sos_b1 : Qc; sos_b2 : Qc;
  sos_a0 : Qc; sos_a1 : Qc; sos_a2 : Qc
}.

(** The loop of [signal.sosfilt] over the sections, for one sample: every
    section is a direct-form II transposed filter with a state of two
    numbers, and feeds the next one. *)
Fixpoint sosfilt_sample (sos : list sos_section) (zi : list (Qc * Qc)) (x_cur : Qc)
  : list (Qc * Qc) * Qc :=
  match sos, zi with
  | s :: sos', z :: zi' =>
      let x_new := sos_b0 s * x_cur + fst z in
      let z0 := sos_b1 s * x_cur - sos_a1 s * x_new + snd z in
      let z1 := sos_b2 s * x_cur - sos_a2 s * x_new in
      let (zs, y) := sosfilt_sample sos' zi' x_new in
      ((z0, z1) :: zs, y)
  | _, _ => ([], x_cur)
  end.

(** The loop over the samples. *)
Fixpoint sosfilt_loop (sos : list sos_section) (zi : list (Qc * Qc)) (x : list Qc)
  : list Qc :=
  match x with
  | [] => []
  | x_cur :: rest =>
      let (zi', y) := sosfilt_sample sos zi x_cur in
      y :: sosfilt_loop sos zi' rest
  end.

(** [signal.sosfilt(sos, x)], for [sos] given as the list of its rows:
    the state starts at zero; a section whose [a0] is not 1 raises
    [ValueError], and so does the empty list, which is no array of six
    columns. *)
Definition signal_sosfilt (sos : list sos_section) (x : list Qc) : result (list Qc) :=
  match sos with
  | [] => Raise ValueError
  | _ :: _ =>
      if forallb (fun s => Qceqb (sos_a0 s) 1) sos
      then Ok (sosfilt_loop sos (map (fun _ => (0, 0)) sos) x)
      else Raise ValueError
  end.

(** [int(x)] of a float: the rounding towards zero. *)
Definition py_int (q : Qc) : Z := Z.quot (Qnum q) (Zpos (Qden q)).

(** One section, with a double zero at frequency 0. *)
Definition highpass_section : sos_section := {|
  sos_b0 := qc 1 1; sos_b1 := qc (-2) 1; sos_b2 := qc 1 1;
  sos_a0 := qc 1 1; sos_a1 := qc (-1) 1; sos_a2 := qc 1 4
|}.

Section Example.

Context {T : Transcendentals}.

(** [main()], from the two recordings read from the files on; the result
    is the pair of velocities that it prints.  Of the two plots, the
    arrays that they compute are part of the embedding. *)
Definition main (sos : list sos_section) (RMP_data_x1 RMP_data_x2 : list Qc)
  : result (npfloat * npfloat) :=
  let x1_RMP := qc 97 1000 in
  let x2_RMP := qc 110 1000 in
  let fs_ := qc 51200 1 in
  RMP_data_x1_filter <- signal_sosfilt sos RMP_data_x1 ;;
  RMP_data_x2_filter <- signal_sosfilt sos RMP_data_x2 ;;
  let df := qc 16 1 in
  let window := Z.to_nat (py_int (fs_ * (1 / df))) in
  let overlap := (window / 2)%nat in
  let Ucv_calculator := {| RMP_data_1 := RMP_data_x1_filter;
                           RMP_data_2 := RMP_data_x2_filter;
                           RMP_x1 := x1_RMP; RMP_x2 := x2_RMP; fs := fs_ |} in
  ' (Ucv_fitCSD, result_plot_fitCSD) <- compute_freqdomain Ucv_calculator window overlap ;;
  ' (Ucv_xcorr, result_plot_xcorr) <- compute_timedomain Ucv_calculator ;;
  _ <- plot_freqdomain Ucv_calculator result_plot_fitCSD ;;
  _ <- plot_timedomain Ucv_calculator result_plot_xcorr ;;
  Ok (Ucv_fitCSD, Ucv_xcorr).

End Example.

(* ================================================================== *)
(** * Properties *)

(** ** Numbers *)

Lemma Qceqb_eq (x y : Qc) : Qceqb x y = true <-> x = y.
Proof.
  unfold Qceqb. rewrite Qceq_alt. destruct (x ?= y); split; congruence.
Qed.

Lemma Qcltb_lt (x y : Qc) : Qcltb x y = true <-> x < y.
Proof.
  unfold Qcltb. rewrite Qclt_alt. destruct (x ?= y); split; congruence.
Qed.

Lemma Qcleb_le (x y : Qc) : Qcleb x y = true <-> x <= y.
Proof.
  unfold Qcleb. rewrite Qcle_alt. destruct (x ?= y); split; congruence.
Qed.

Lemma Qceqb_neq (x y : Qc) : Qceqb x y = false <-> x <> y.
Proof.
  rewrite <- Qceqb_eq. destruct (Qceqb x y); split; congruence.
Qed.

Lemma Qcltb_ge (x y : Qc) : Qcltb x y = false <-> y <= x.
Proof.
  split; intro H.
  - apply Qcnot_lt_le. rewrite <- Qcltb_lt. congruence.
  - destruct (Qcltb x y) eqn:E; [| reflexivity].
    apply Qcltb_lt in E. exfalso. exact (Qcle_not_lt _ _ H E).
Qed.

Lemma Qcleb_gt (x y : Qc) : Qcleb x y = false <-> y < x.
Proof.
  split; intro H.
  - apply Qcnot_le_lt. rewrite <- Qcleb_le. congruence.
  - destruct (Qcleb x y) eqn:E; [| reflexivity].
    apply Qcleb_le in E. exfalso. exact (Qclt_not_le _ _ H E).
Qed.

(** Goals on the order of [Qc] are moved to [Q], where [lra] and [nra]
    decide them. *)
Lemma this_Q2Qc (q : Q) : (this (Q2Qc q) == q)%Q.
Proof. apply Qred_correct. Qed.

Lemma this_plus (x y : Qc) : (this (x + y) == this x + this y)%Q.
Proof. apply Qred_correct. Qed.

Lemma this_mult (x y : Qc) : (this (x * y) == this x * this y)%Q.
Proof. apply Qred_correct. Qed.

Lemma this_opp (x : Qc) : (this (- x) == - this x)%Q.
Proof. apply Qred_correct. Qed.

Lemma this_inv (x : Qc) : (this (/ x) == / this x)%Q.
Proof. apply Qred_correct. Qed.

Lemma this_abs (x : Qc) : this (Qcabs x) = Qabs (this x).
Proof. reflexivity. Qed.

Lemma Qc_eq_Qeq (x y : Qc) : x = y -> (this x == this y)%Q.
Proof. intros ->. reflexivity. Qed.

Ltac qc_push_goal :=
  repeat first
    [ rewrite this_plus | rewrite this_mult | rewrite this_opp
    | rewrite this_inv | rewrite this_abs | rewrite this_Q2Qc ].

Ltac qc_push_in H :=
  repeat first
    [ rewrite this_plus in H | rewrite this_mult in H | rewrite this_opp in H
    | rewrite this_inv in H | rewrite this_abs in H | rewrite this_Q2Qc in H ].

Ltac qc_to_q :=
  unfold Qcdiv, Qcminus in *;
  repeat match goal with
  | H : @eq Qc _ _ |- _ => apply Qc_eq_Qeq in H
  | |- @eq Qc _ _ => apply Qc_is_canon
  | |- ~ @eq Qc _ _ => let H := fresh in intro H
  end;
  unfold Qcle, Qclt in *;
  qc_push_goal;
  repeat match goal with
  | H : Qeq _ _ |- _ => progress qc_push_in H
  | H : Qle _ _ |- _ => progress qc_push_in H
  | H : Qlt _ _ |- _ => progress qc_push_in H
  end.

(** A closed equation between values that contain rationals: both sides
    are evaluated, and the rationals compared as fractions. *)
Ltac qc_compute :=
  vm_compute;
  repeat first
    [ reflexivity
    | apply Qc_is_canon; reflexivity
    | progress f_equal ].

(** ** Python's [max] on (value, index) pairs *)

Lemma tuple_lt_spec (p q : Qc * nat) :
  tuple_lt p q = true <->
  fst p < fst q \/ (fst p = fst q /\ (snd p < snd q)%nat).
Proof.
  unfold tuple_lt.
  rewrite orb_true_iff, andb_true_iff, Qcltb_lt, Qceqb_eq, Nat.ltb_lt.
  reflexivity.
Qed.

Lemma tuple_lt_trans (p q r : Qc * nat) :
  tuple_lt p q = true -> tuple_lt q r = true -> tuple_lt p r = true.
Proof.
  rewrite !tuple_lt_spec.
  intros [H1 | [H1 H1']] [H2 | [H2 H2']].
  - left. eapply Qclt_trans; eauto.
  - left. rewrite <- H2. exact H1.
  - left. rewrite H1. exact H2.
  - right. split; [congruence | lia].
Qed.

Lemma tuple_lt_total (p q : Qc * nat) :
  tuple_lt p q = false -> tuple_lt q p = false -> p = q.
Proof.
  intros H1 H2. destruct p as [v i], q as [w j].
  destruct (Qc_dec v w) as [[L | L] | E].
  - assert (tuple_lt (v, i) (w, j) = true) by (apply tuple_lt_spec; left; exact L).
    congruence.
  - assert (tuple_lt (w, j) (v, i) = true) by (apply tuple_lt_spec; left; exact L).
    congruence.
  - subst w. destruct (Nat.lt_trichotomy i j) as [L | [E | L]].
    + assert (tuple_lt (v, i) (v, j) = true)
        by (apply tuple_lt_spec; right; split; [reflexivity | exact L]).
      congruence.
    + congruence.
    + assert (tuple_lt (v, j) (v, i) = true)
        by (apply tuple_lt_spec; right; split; [reflexivity | exact L]).
      congruence.
Qed.

Lemma tuple_lt_le_trans (p q r : Qc * nat) :
  tuple_lt p q = true -> tuple_lt r q = false -> tuple_lt p r = true.
Proof.
  intros H1 H2. destruct (tuple_lt p r) eqn:E; [reflexivity |].
  destruct (tuple_lt r p) eqn:E'.
  - rewrite (tuple_lt_trans _ _ _ E' H1) in H2. discriminate.
  - rewrite (tuple_lt_total _ _ E E') in H1. congruence.
Qed.

Lemma max_from_In (items : list (Qc * nat)) : forall cur,
  In (max_from cur items) (cur :: items).
Proof.
  induction items as [| item rest IH]; intro cur; cbn [max_from].
  - left. reflexivity.
  - destruct (IH (if tuple_lt cur item then item else cur)) as [E | H].
    + rewrite <- E. destruct (tuple_lt cur item); [right; left | left]; reflexivity.
    + right. right. exact H.
Qed.

Lemma max_from_upper (items : list (Qc * nat)) : forall cur p,
  In p (cur :: items) -> tuple_lt (max_from cur items) p = false.
Proof.
  induction items as [| item rest IH]; intros cur p Hp; cbn [max_from].
  - destruct Hp as [<- | []].
    destruct (tuple_lt cur cur) eqn:E; [| reflexivity].
    apply tuple_lt_spec in E. destruct E as [E | [_ E]].
    + exfalso. exact (Qclt_not_eq _ _ E eq_refl).
    + lia.
  - set (cur' := if tuple_lt cur item then item else cur).
    assert (Hcur' : tuple_lt (max_from cur' rest) cur' = false)
      by (apply IH; left; reflexivity).
    destruct Hp as [<- | [<- | Hp]].
    + subst cur'. destruct (tuple_lt cur item) eqn:E; [| exact Hcur'].
      destruct (tuple_lt (max_from item rest) cur) eqn:E'; [| reflexivity].
      rewrite (tuple_lt_trans _ _ _ E' E) in Hcur'. discriminate.
    + subst cur'. destruct (tuple_lt cur item) eqn:E; [exact Hcur' |].
      destruct (tuple_lt (max_from cur rest) item) eqn:E'; [| reflexivity].
      rewrite (tuple_lt_le_trans _ _ _ E' E) in Hcur'. discriminate.
    + apply IH. right. exact Hp.
Qed.

Lemma In_combine_seq {A : Type} (l : list A) : forall s i v,
  In (i, v) (combine (seq s (length l)) l) <->
  (s <= i)%nat /\ nth_error l (i - s) = Some v.
Proof.
  induction l as [| a l IH]; intros s i v; cbn [length seq combine].
  - split; [intros [] | intros [_ H]]. destruct (i - s)%nat; discriminate.
  - cbn [In]. rewrite IH. split.
    + intros [E | [Hle H]].
      * inversion E; subst. rewrite Nat.sub_diag. split; [lia | reflexivity].
      * split; [lia |]. replace (i - s)%nat with (S (i - S s)) by lia. exact H.
    + intros [Hle H]. destruct (Nat.eq_dec s i) as [-> | Hne].
      * left. rewrite Nat.sub_diag in H. cbn in H. congruence.
      * right. split; [lia |].
        replace (i - s)%nat with (S (i - S s)) in H by lia. exact H.
Qed.

Lemma In_enumerate {A : Type} (l : list A) (i : nat) (v : A) :
  In (i, v) (enumerate l) <-> nth_error l i = Some v.
Proof.
  unfold enumerate. rewrite In_combine_seq, Nat.sub_0_r.
  split; [intros [_ H]; exact H | intro H; split; [lia | exact H]].
Qed.

(** The index chosen by [ind_Rxy_max]: a maximum of the absolute values
    and, among the indices of that maximum, the last one. *)
Lemma ind_Rxy_max_spec (R : list Qc) (ind : nat) :
  ind_Rxy_max R = Ok ind ->
  (ind < length R)%nat /\
  (forall j, (j < length R)%nat -> Qcabs (nth0 R j) <= Qcabs (nth0 R ind)) /\
  (forall j, (j < length R)%nat ->
             Qcabs (nth0 R j) = Qcabs (nth0 R ind) -> (j <= ind)%nat).
Proof.
  unfold ind_Rxy_max, py_max.
  set (items := map (fun iv : nat * Qc => (snd iv, fst iv)) (enumerate (np_abs R))).
  assert (Hin : forall v i, In (v, i) items <-> nth_error (np_abs R) i = Some v).
  { intros v i. unfold items. rewrite in_map_iff. split.
    - intros [[i' v'] [E H]]. cbn in E. inversion E; subst.
      apply In_enumerate. exact H.
    - intro H. exists (i, v). split; [reflexivity | apply In_enumerate; exact H]. }
  assert (Hnth : forall j, (j < length R)%nat ->
                           nth_error (np_abs R) j = Some (Qcabs (nth0 R j))).
  { intros j Hj. unfold np_abs, nth0. rewrite nth_error_map.
    rewrite (nth_error_nth' R 0 Hj). reflexivity. }
  destruct items as [| item rest] eqn:Eitems; cbn [bind]; [discriminate |].
  intro E. inversion E as [E']. clear E.
  pose proof (max_from_In rest item) as HIn.
  pose proof (max_from_upper rest item) as Hup.
  destruct (max_from item rest) as [v i]. cbn [snd] in E'. subst i.
  apply Hin in HIn.
  assert (Hind : (ind < length R)%nat).
  { assert (H : nth_error (np_abs R) ind <> None) by congruence.
    apply nth_error_Some in H. unfold np_abs in H.
    rewrite length_map in H. exact H. }
  rewrite (Hnth ind Hind) in HIn. inversion HIn as [Hv]. clear HIn.
  split; [exact Hind |]. split.
  - intros j Hj.
    assert (H : tuple_lt (Qcabs (nth0 R ind), ind) (Qcabs (nth0 R j), j) = false).
    { rewrite Hv. apply Hup. apply Hin. apply Hnth. exact Hj. }
    apply Qcnot_lt_le. intro L.
    assert (tuple_lt (Qcabs (nth0 R ind), ind) (Qcabs (nth0 R j), j) = true)
      by (apply tuple_lt_spec; left; exact L).
    congruence.
  - intros j Hj Heq.
    assert (H : tuple_lt (Qcabs (nth0 R ind), ind) (Qcabs (nth0 R j), j) = false).
    { rewrite Hv. apply Hup. apply Hin. apply Hnth. exact Hj. }
    destruct (Nat.le_gt_cases j ind) as [L | L]; [exact L |].
    assert (tuple_lt (Qcabs (nth0 R ind), ind) (Qcabs (nth0 R j), j) = true)
      by (apply tuple_lt_spec; right; cbn [fst snd]; split; [symmetry; exact Heq | exact L]).
    congruence.
Qed.

Lemma ind_Rxy_max_total (R : list Qc) :
  R <> [] -> exists ind, ind_Rxy_max R = Ok ind.
Proof.
  intro HR. unfold ind_Rxy_max, enumerate, np_abs.
  destruct R as [| a R]; [congruence |].
  cbn [map length seq combine py_max bind]. eexists. reflexivity.
Qed.

(** ** Finite sums *)

Lemma Qcsum_app (l1 l2 : list Qc) : Qcsum (l1 ++ l2) = Qcsum l1 + Qcsum l2.
Proof.
  induction l1 as [| a l1 IH]; cbn.
  - rewrite Qcplus_0_l. reflexivity.
  - unfold Qcsum in *. rewrite IH. ring.
Qed.

Lemma Qcsum_rev (l : list Qc) : Qcsum (rev l) = Qcsum l.
Proof.
  induction l as [| a l IH]; cbn; [reflexivity |].
  rewrite Qcsum_app, IH. cbn. unfold Qcsum. ring.
Qed.

Lemma Qcsum_map_ext {A : Type} (f g : A -> Qc) (l : list A) :
  (forall a, In a l -> f a = g a) -> Qcsum (map f l) = Qcsum (map g l).
Proof.
  intro H. f_equal. apply map_ext_in. exact H.
Qed.

Lemma Qcsum_map_zero {A : Type} (f : A -> Qc) (l : list A) :
  (forall a, In a l -> f a = 0) -> Qcsum (map f l) = 0.
Proof.
  induction l as [| a l IH]; intro H; cbn; [reflexivity |].
  rewrite (H a (or_introl eq_refl)).
  unfold Qcsum in IH. rewrite IH; [ring |].
  intros b Hb. apply H. right. exact Hb.
Qed.

Lemma rev_seq (n : nat) :
  rev (seq 0 n) = map (fun i => (n - 1 - i)%nat) (seq 0 n).
Proof.
  induction n as [| n IH]; [reflexivity |].
  replace (rev (seq 0 (S n))) with (n :: rev (seq 0 n))
    by (rewrite seq_S, rev_app_distr; reflexivity).
  rewrite IH. cbn [seq map]. f_equal; [lia |].
  rewrite <- seq_shift, map_map. apply map_ext_in.
  intros i Hi. apply in_seq in Hi. lia.
Qed.

(** A sum over [0 .. n-1] may be read from the other end. *)
Lemma Qcsum_seq_reverse (f : nat -> Qc) (n : nat) :
  Qcsum (map f (seq 0 n)) = Qcsum (map (fun i => f (n - 1 - i)%nat) (seq 0 n)).
Proof.
  rewrite <- (Qcsum_rev (map f (seq 0 n))), <- map_rev, rev_seq, map_map.
  reflexivity.
Qed.

(** Terms that vanish beyond [n] may be added to, or dropped from, a sum. *)
Lemma Qcsum_seq_extend (f : nat -> Qc) (n m : nat) :
  (n <= m)%nat -> (forall i, (n <= i < m)%nat -> f i = 0) ->
  Qcsum (map f (seq 0 m)) = Qcsum (map f (seq 0 n)).
Proof.
  intros Hnm Hz. replace m with (n + (m - n))%nat by lia.
  rewrite seq_app, map_app, Qcsum_app. cbn [plus].
  rewrite (Qcsum_map_zero f (seq n (m - n))); [ring |].
  intros i Hi. apply in_seq in Hi. apply Hz. lia.
Qed.

Lemma Qcsum_seq_same_support (f : nat -> Qc) (n m : nat) :
  (forall i, (n <= i)%nat -> f i = 0) -> (forall i, (m <= i)%nat -> f i = 0) ->
  Qcsum (map f (seq 0 n)) = Qcsum (map f (seq 0 m)).
Proof.
  intros Hn Hm. destruct (Nat.le_ge_cases n m) as [L | L].
  - symmetry. apply Qcsum_seq_extend; [exact L |]. intros i Hi. apply Hn. lia.
  - apply Qcsum_seq_extend; [exact L |]. intros i Hi. apply Hm. lia.
Qed.

Lemma nth0_overflow (xs : list Qc) (i : nat) :
  (length xs <= i)%nat -> nth0 xs i = 0.
Proof. intro H. unfold nth0. apply nth_overflow. exact H. Qed.

Lemma nth0_rev (xs : list Qc) (i : nat) :
  (i < length xs)%nat -> nth0 (rev xs) i = nth0 xs (length xs - 1 - i).
Proof.
  intro H. unfold nth0. rewrite rev_nth by exact H. f_equal. lia.
Qed.

(** ** The correlation of SciPy is the cross-correlation *)

Lemma length_convolve_full (a v : list Qc) :
  length (convolve_full a v) = (length a + length v - 1)%nat.
Proof. unfold convolve_full. rewrite length_map, length_seq. reflexivity. Qed.

Lemma nth0_convolve_full (a v : list Qc) (k : nat) :
  (k < length a + length v - 1)%nat ->
  nth0 (convolve_full a v) k =
  Qcsum (map (fun m => nth0 a m * nth0 v (k - m)) (seq 0 (S k))).
Proof.
  intro Hk. unfold nth0 at 1. apply nth_error_nth. unfold convolve_full.
  rewrite nth_error_map.
  rewrite (nth_error_nth' _ O) by (rewrite length_seq; exact Hk).
  rewrite seq_nth by exact Hk. reflexivity.
Qed.

Lemma sample_nonneg (x : list Qc) (i : nat) : sample x (Z.of_nat i) = nth0 x i.
Proof.
  unfold sample. destruct (Z.ltb_spec (Z.of_nat i) 0); [lia |].
  rewrite Nat2Z.id. reflexivity.
Qed.

Lemma sample_neg (x : list Qc) (z : Z) : (z < 0)%Z -> sample x z = 0.
Proof.
  intro H. unfold sample. destruct (Z.ltb_spec z 0); [reflexivity | lia].
Qed.

(** Entry [k] of [convolve_full x (rev y)] is the cross-correlation of [x]
    and [y] at the lag [k - (len(y) - 1)]. *)
Lemma convolve_rev_cross_correlation (x y : list Qc) (k : nat) :
  (0 < length y)%nat -> (k < length x + length y - 1)%nat ->
  nth0 (convolve_full x (rev y)) k =
  cross_correlation x y (Z.of_nat k - (Z.of_nat (length y) - 1)).
Proof.
  intros HN Hk. set (N := length y). fold N in HN.
  rewrite nth0_convolve_full by (rewrite length_rev; exact Hk).
  set (g := fun j => sample x (Z.of_nat k - Z.of_nat j) * nth0 (rev y) j).
  transitivity (Qcsum (map g (seq 0 (S k)))).
  { rewrite Qcsum_seq_reverse. apply Qcsum_map_ext.
    intros j Hj. apply in_seq in Hj. unfold g.
    replace (Z.of_nat k - Z.of_nat j)%Z with (Z.of_nat (k - j)) by lia.
    rewrite sample_nonneg.
    replace (S k - 1 - j)%nat with (k - j)%nat by lia.
    replace (k - (k - j))%nat with j by lia. reflexivity. }
  transitivity (Qcsum (map g (seq 0 N))).
  { apply Qcsum_seq_same_support; intros j Hj; unfold g.
    - rewrite sample_neg by lia. ring.
    - rewrite nth0_overflow by (rewrite length_rev; exact Hj). ring. }
  unfold cross_correlation. fold N.
  rewrite (Qcsum_seq_reverse (fun n => sample x _ * nth0 y n)).
  apply Qcsum_map_ext. intros j Hj. apply in_seq in Hj. unfold g.
  rewrite nth0_rev by (fold N; lia). fold N. f_equal. f_equal. lia.
Qed.


(** ** [correlation_lags] *)

Lemma length_np_arange (lo hi : Z) : length (np_arange lo hi) = Z.to_nat (hi - lo).
Proof. unfold np_arange. rewrite length_map, length_seq. reflexivity. Qed.

Lemma nth_error_np_arange (lo hi : Z) (k : nat) :
  (k < Z.to_nat (hi - lo))%nat ->
  nth_error (np_arange lo hi) k = Some (lo + Z.of_nat k)%Z.
Proof.
  intro Hk. unfold np_arange. rewrite nth_error_map.
  rewrite (nth_error_nth' _ O) by (rewrite length_seq; exact Hk).
  rewrite seq_nth by exact Hk. reflexivity.
Qed.

Lemma length_correlation_lags (n1 n2 : nat) :
  (0 < n2)%nat -> length (signal_correlation_lags n1 n2) = (n1 + n2 - 1)%nat.
Proof.
  intro H. unfold signal_correlation_lags. rewrite length_np_arange. lia.
Qed.

Lemma nth_error_correlation_lags (n1 n2 k : nat) :
  (k < n1 + n2 - 1)%nat ->
  nth_error (signal_correlation_lags n1 n2) k
  = Some (Z.of_nat k - (Z.of_nat n2 - 1))%Z.
Proof.
  intro Hk. unfold signal_correlation_lags.
  rewrite nth_error_np_arange by lia. f_equal. lia.
Qed.

Lemma length_fluctuations (d : list Qc) : length (fluctuations d) = length d.
Proof. unfold fluctuations. apply length_map. Qed.

(** ** What [compute_timedomain] returns *)

(** The estimator returns whenever both signals have a sample, and every
    return has gone through the same steps. *)
Lemma compute_timedomain_steps (self : RMP_ConvectionVelocityCalculator) :
  RMP_data_1 self <> [] -> RMP_data_2 self <> [] ->
  exists ind lag,
    let R := convolve_full (fluctuations (RMP_data_1 self))
                           (rev (fluctuations (RMP_data_2 self))) in
    let L := signal_correlation_lags (length (RMP_data_1 self))
                                     (length (RMP_data_2 self)) in
    ind_Rxy_max R = Ok ind /\
    nth_error L ind = Some lag /\
    lag = (Z.of_nat ind - (Z.of_nat (length (RMP_data_2 self)) - 1))%Z /\
    compute_timedomain self =
    Ok (np_true_divide (Fin (RMP_x2 self - RMP_x1 self))
          (np_true_divide (Fin (Qc_of_Z lag)) (Fin (fs self))),
        {| Rxy := R; lags := L |}).
Proof.
  intros H1 H2. unfold compute_timedomain.
  set (f1 := fluctuations (RMP_data_1 self)).
  set (f2 := fluctuations (RMP_data_2 self)).
  assert (L1 : length f1 = length (RMP_data_1 self)) by apply length_fluctuations.
  assert (L2 : length f2 = length (RMP_data_2 self)) by apply length_fluctuations.
  assert (P1 : (0 < length (RMP_data_1 self))%nat)
    by (destruct (RMP_data_1 self); [congruence | cbn; lia]).
  assert (P2 : (0 < length (RMP_data_2 self))%nat)
    by (destruct (RMP_data_2 self); [congruence | cbn; lia]).
  assert (E : signal_correlate f1 f2 = Ok (convolve_full f1 (rev f2))).
  { unfold signal_correlate. destruct f1; [cbn in L1; lia |].
    destruct f2; [cbn in L2; lia | reflexivity]. }
  rewrite E. cbn [bind].
  assert (HR : convolve_full f1 (rev f2) <> []).
  { intro H. apply (f_equal (@length Qc)) in H.
    rewrite length_convolve_full, length_rev in H. cbn in H. lia. }
  destruct (ind_Rxy_max_total _ HR) as [ind Hind].
  pose proof (ind_Rxy_max_spec _ _ Hind) as [Hlt _].
  rewrite length_convolve_full, length_rev in Hlt.
  exists ind, (Z.of_nat ind - (Z.of_nat (length (RMP_data_2 self)) - 1))%Z.
  cbn zeta. rewrite Hind. cbn [bind]. rewrite L1, L2.
  assert (Hn : nth_error (signal_correlation_lags (length (RMP_data_1 self))
                            (length (RMP_data_2 self))) ind
               = Some (Z.of_nat ind - (Z.of_nat (length (RMP_data_2 self)) - 1))%Z)
    by (apply nth_error_correlation_lags; lia).
  unfold getitem. rewrite Hn. cbn [bind].
  repeat split; reflexivity.
Qed.

Lemma compute_timedomain_empty (self : RMP_ConvectionVelocityCalculator) :
  RMP_data_1 self = [] \/ RMP_data_2 self = [] ->
  compute_timedomain self = Raise ValueError.
Proof.
  intros [H | H]; unfold compute_timedomain; rewrite H.
  - reflexivity.
  - destruct (fluctuations (RMP_data_1 self)); reflexivity.
Qed.

Lemma lagDiff_steps (self : RMP_ConvectionVelocityCalculator) :
  RMP_data_1 self <> [] -> RMP_data_2 self <> [] ->
  exists ind,
    ind_Rxy_max (convolve_full (fluctuations (RMP_data_1 self))
                               (rev (fluctuations (RMP_data_2 self)))) = Ok ind /\
    lagDiff self = Ok (Z.of_nat ind - (Z.of_nat (length (RMP_data_2 self)) - 1))%Z /\
    compute_timedomain self =
    Ok (np_true_divide (Fin (RMP_x2 self - RMP_x1 self))
          (np_true_divide
             (Fin (Qc_of_Z (Z.of_nat ind - (Z.of_nat (length (RMP_data_2 self)) - 1))))
             (Fin (fs self))),
        {| Rxy := convolve_full (fluctuations (RMP_data_1 self))
                                (rev (fluctuations (RMP_data_2 self)));
           lags := signal_correlation_lags (length (RMP_data_1 self))
                                           (length (RMP_data_2 self)) |}).
Proof.
  intros H1 H2.
  destruct (compute_timedomain_steps self H1 H2) as (ind & lag & Hind & Hn & -> & E).
  exists ind. split; [exact Hind |]. split; [| exact E].
  unfold lagDiff.
  assert (Ec : signal_correlate (fluctuations (RMP_data_1 self))
                                (fluctuations (RMP_data_2 self))
               = Ok (convolve_full (fluctuations (RMP_data_1 self))
                                   (rev (fluctuations (RMP_data_2 self))))).
  { unfold signal_correlate, fluctuations.
    destruct (RMP_data_1 self); [congruence |].
    destruct (RMP_data_2 self); [congruence | reflexivity]. }
  rewrite Ec. cbn [bind]. rewrite Hind. cbn [bind].
  rewrite !length_fluctuations. unfold getitem. rewrite Hn. reflexivity.
Qed.

(** Every return of [compute_timedomain] is made of the selected lag. *)
Lemma compute_timedomain_lagDiff (self : RMP_ConvectionVelocityCalculator)
  (U : npfloat) (r : timedomain_plot) :
  compute_timedomain self = Ok (U, r) ->
  exists ind lag,
    lagDiff self = Ok lag /\
    ind_Rxy_max (Rxy r) = Ok ind /\
    nth_error (lags r) ind = Some lag /\
    lag = (Z.of_nat ind - (Z.of_nat (length (RMP_data_2 self)) - 1))%Z /\
    length (Rxy r) = (length (RMP_data_1 self) + length (RMP_data_2 self) - 1)%nat /\
    U = np_true_divide (Fin (RMP_x2 self - RMP_x1 self))
          (np_true_divide (Fin (Qc_of_Z lag)) (Fin (fs self))).
Proof.
  intro E.
  destruct (RMP_data_1 self) as [| a d1] eqn:E1.
  { rewrite compute_timedomain_empty in E by (left; exact E1). discriminate. }
  destruct (RMP_data_2 self) as [| b d2] eqn:E2.
  { rewrite compute_timedomain_empty in E by (right; exact E2). discriminate. }
  assert (H1 : RMP_data_1 self <> []) by congruence.
  assert (H2 : RMP_data_2 self <> []) by congruence.
  destruct (compute_timedomain_steps self H1 H2) as (ind & lag & Hind & Hn & Hlag & E').
  destruct (lagDiff_steps self H1 H2) as (ind' & Hind' & HL & _).
  cbn zeta in Hind, Hn.
  assert (ind' = ind) by congruence. subst ind'.
  rewrite E' in E. inversion E; subst U r. cbn [Rxy lags].
  exists ind, lag. rewrite <- E1, <- E2.
  repeat split; try assumption.
  - rewrite HL, Hlag. reflexivity.
  - rewrite length_convolve_full, length_rev, !length_fluctuations. reflexivity.
Qed.

(* ------------------------------------------------------------------ *)
(** ** C1: which lag is selected *)

(** C1, on an example: with the recordings [tie_probes] the absolute
    correlation is 1 at the indices 0, 1, 2 and 3; the estimator selects
    index 3 (lag +1), not the earliest index 0 (lag -2), and returns the
    velocity of lag +1. *)
Lemma timedomain_tie_takes_last_index :
  compute_timedomain tie_probes
  = Ok (Fin (qc 1 10),
        {| Rxy := [qc (-1) 1; qc 1 1; qc 1 1; qc (-1) 1; qc 0 1];
           lags := [-2; -1; 0; 1; 2]%Z |}) /\
  ind_Rxy_max [qc (-1) 1; qc 1 1; qc 1 1; qc (-1) 1; qc 0 1] = Ok 3%nat /\
  Qcabs (nth0 [qc (-1) 1; qc 1 1; qc 1 1; qc (-1) 1; qc 0 1] 0)
  = Qcabs (nth0 [qc (-1) 1; qc 1 1; qc 1 1; qc (-1) 1; qc 0 1] 3).
Proof.
  split; [| split]; qc_compute.
Qed.

(** C1, as the program has it: the selected lag is the entry of the lag
    axis at an index where the absolute cross-correlation is maximal, and
    when several indices attain that maximum, the last of them in index
    order is the one chosen. *)
Theorem timedomain_selects_last_maximum
  (self : RMP_ConvectionVelocityCalculator) (U : npfloat) (r : timedomain_plot) :
  compute_timedomain self = Ok (U, r) ->
  exists ind lag,
    ind_Rxy_max (Rxy r) = Ok ind /\
    nth_error (lags r) ind = Some lag /\
    U = np_true_divide (Fin (RMP_x2 self - RMP_x1 self))
          (np_true_divide (Fin (Qc_of_Z lag)) (Fin (fs self))) /\
    (forall j, (j < length (Rxy r))%nat ->
               Qcabs (nth0 (Rxy r) j) <= Qcabs (nth0 (Rxy r) ind)) /\
    (forall j, (j < length (Rxy r))%nat ->
               Qcabs (nth0 (Rxy r) j) = Qcabs (nth0 (Rxy r) ind) -> (j <= ind)%nat).
Proof.
  intro E.
  destruct (compute_timedomain_lagDiff self U r E)
    as (ind & lag & _ & Hind & Hn & _ & _ & HU).
  exists ind, lag.
  destruct (ind_Rxy_max_spec _ _ Hind) as (_ & Hmax & Hlast).
  repeat split; assumption.
Qed.

Lemma timedomain_selects_last_maximum_witness :
  exists ind lag,
    ind_Rxy_max [qc (-1) 1; qc 1 1; qc 1 1; qc (-1) 1; qc 0 1] = Ok ind /\
    nth_error [-2; -1; 0; 1; 2]%Z ind = Some lag /\
    Fin (qc 1 10)
    = np_true_divide (Fin (RMP_x2 tie_probes - RMP_x1 tie_probes))
        (np_true_divide (Fin (Qc_of_Z lag)) (Fin (fs tie_probes))) /\
    (forall j, (j < 5)%nat ->
               Qcabs (nth0 [qc (-1) 1; qc 1 1; qc 1 1; qc (-1) 1; qc 0 1] j)
               <= Qcabs (nth0 [qc (-1) 1; qc 1 1; qc 1 1; qc (-1) 1; qc 0 1] ind)) /\
    (forall j, (j < 5)%nat ->
               Qcabs (nth0 [qc (-1) 1; qc 1 1; qc 1 1; qc (-1) 1; qc 0 1] j)
               = Qcabs (nth0 [qc (-1) 1; qc 1 1; qc 1 1; qc (-1) 1; qc 0 1] ind) ->
               (j <= ind)%nat).
Proof.
  apply (timedomain_selects_last_maximum tie_probes (Fin (qc 1 10))
           {| Rxy := [qc (-1) 1; qc 1 1; qc 1 1; qc (-1) 1; qc 0 1];
              lags := [-2; -1; 0; 1; 2]%Z |}).
  qc_compute.
Defined.

(* ------------------------------------------------------------------ *)
(** ** C2: a peak at lag 0 *)

Lemma lagDiff_empty (self : RMP_ConvectionVelocityCalculator) :
  RMP_data_1 self = [] \/ RMP_data_2 self = [] ->
  lagDiff self = Raise ValueError.
Proof.
  intros [H | H]; unfold lagDiff; rewrite H.
  - reflexivity.
  - destruct (fluctuations (RMP_data_1 self)); reflexivity.
Qed.

Lemma lagDiff_nonempty (self : RMP_ConvectionVelocityCalculator) (lag : Z) :
  lagDiff self = Ok lag -> RMP_data_1 self <> [] /\ RMP_data_2 self <> [].
Proof.
  intro E. split; intro H.
  - rewrite lagDiff_empty in E by (left; exact H). discriminate.
  - rewrite lagDiff_empty in E by (right; exact H). discriminate.
Qed.

Lemma compute_timedomain_of_lagDiff (self : RMP_ConvectionVelocityCalculator) (lag : Z) :
  lagDiff self = Ok lag ->
  exists r,
    compute_timedomain self =
    Ok (np_true_divide (Fin (RMP_x2 self - RMP_x1 self))
          (np_true_divide (Fin (Qc_of_Z lag)) (Fin (fs self))), r).
Proof.
  intro E. destruct (lagDiff_nonempty self lag E) as [H1 H2].
  destruct (lagDiff_steps self H1 H2) as (ind & _ & HL & HC).
  rewrite HL in E. injection E as Hlag. subst lag.
  eexists. exact HC.
Qed.

Lemma div_by_zero_not_finite (q v : Qc) : div_by_zero q <> Fin v.
Proof.
  unfold div_by_zero. destruct (Qcltb 0 q); [discriminate |].
  destruct (Qcltb q 0); discriminate.
Qed.

Lemma zero_over (q : Qc) : q <> 0 -> np_true_divide (Fin 0) (Fin q) = Fin 0.
Proof.
  intro H. cbn [np_true_divide]. apply Qceqb_neq in H. rewrite H.
  f_equal. unfold Qcdiv. apply Qcmult_0_l.
Qed.

(** C2, on an example: the same recording on both probes peaks at lag 0,
    and the estimator returns the velocity [inf]; nothing is raised. *)
Lemma timedomain_zero_lag_returns_inf :
  lagDiff same_probes = Ok 0%Z /\
  compute_timedomain same_probes
  = Ok (PInf, {| Rxy := [qc (-1) 4; qc 1 2; qc (-1) 4]; lags := [-1; 0; 1]%Z |}).
Proof.
  split; qc_compute.
Qed.

(** C2, as the program has it: when the lag of maximum absolute
    correlation is exactly 0 (and the sampling frequency is positive),
    [compute_timedomain] raises nothing: it returns the quotient of
    [x2 - x1] by a zero delay, which is [+inf], [-inf] or, for equal
    positions, NaN, but never a finite velocity. *)
Theorem timedomain_zero_lag_not_raised (self : RMP_ConvectionVelocityCalculator) :
  0 < fs self -> lagDiff self = Ok 0%Z ->
  exists r,
    compute_timedomain self = Ok (div_by_zero (RMP_x2 self - RMP_x1 self), r) /\
    forall v, div_by_zero (RMP_x2 self - RMP_x1 self) <> Fin v.
Proof.
  intros Hfs E. destruct (compute_timedomain_of_lagDiff self 0%Z E) as [r Hr].
  exists r. split; [| intro v; apply div_by_zero_not_finite].
  rewrite Hr. f_equal. f_equal.
  change (Qc_of_Z 0) with 0. rewrite zero_over by (apply not_eq_sym, Qclt_not_eq, Hfs).
  reflexivity.
Qed.

Lemma timedomain_zero_lag_not_raised_witness :
  exists r,
    compute_timedomain same_probes
    = Ok (div_by_zero (RMP_x2 same_probes - RMP_x1 same_probes), r) /\
    forall v, div_by_zero (RMP_x2 same_probes - RMP_x1 same_probes) <> Fin v.
Proof.
  apply (timedomain_zero_lag_not_raised same_probes).
  - reflexivity.
  - qc_compute.
Defined.

(* ------------------------------------------------------------------ *)
(** ** C8: the lag axis and the correlation values *)




(* ------------------------------------------------------------------ *)
(** ** C10: the delay is a whole number of samples *)


Lemma Qc_of_Z_le (a b : Z) : (a <= b)%Z -> Qc_of_Z a <= Qc_of_Z b.
Proof.
  intro H. unfold Qc_of_Z. qc_to_q. rewrite <- Zle_Qle. exact H.
Qed.

Lemma Qc_of_Z_lt (a b : Z) : (a < b)%Z -> Qc_of_Z a < Qc_of_Z b.
Proof.
  intro H. unfold Qc_of_Z. qc_to_q. rewrite <- Zlt_Qlt. exact H.
Qed.

Lemma Qc_of_Z_eq_0 (k : Z) : Qc_of_Z k = 0 -> k = 0%Z.
Proof.
  intro H. apply (f_equal this) in H. unfold Qc_of_Z, Q2Qc in H. cbn [this] in H.
  assert (E : inject_Z k == inject_Z 0) by (rewrite <- (Qred_correct (inject_Z k)), H; reflexivity).
  unfold Qeq in E. cbn in E. lia.
Qed.





(* ================================================================== *)
(** ** The frequency-domain estimator *)

(** *** The cutoff: last index whose coherence reaches the threshold *)

Lemma combine_snoc {A B : Type} (l : list A) (l' : list B) (a : A) (b : B) :
  length l = length l' ->
  combine (l ++ a :: nil) (l' ++ b :: nil) = combine l l' ++ (a, b) :: nil.
Proof.
  revert l'. induction l as [| x l IH]; intros [| y l'] H; try discriminate.
  - reflexivity.
  - cbn. f_equal. apply IH. injection H as H. exact H.
Qed.

Lemma enumerate_snoc {A : Type} (l : list A) (a : A) :
  enumerate (l ++ a :: nil) = enumerate l ++ (length l, a) :: nil.
Proof.
  unfold enumerate. rewrite length_app. cbn [length].
  rewrite Nat.add_1_r, seq_S, combine_snoc by (rewrite length_seq; reflexivity).
  reflexivity.
Qed.

Lemma ind_tmp_snoc (g : list npfloat) (v : npfloat) :
  ind_tmp (g ++ v :: nil)
  = ind_tmp g ++ (if coherent v then length g :: nil else nil).
Proof.
  unfold ind_tmp. rewrite enumerate_snoc, filter_app, map_app. f_equal.
  cbn [filter snd]. destruct (coherent v); reflexivity.
Qed.

Lemma getitem_last_snoc {A : Type} (l : list A) (a : A) :
  getitem_last (l ++ a :: nil) = Ok a.
Proof. unfold getitem_last. rewrite rev_app_distr. reflexivity. Qed.

(** The index [ind_tmp[-1]]: the coherence reaches 0.1 there and at no
    later bin. *)
Lemma cutoff_is_last_coherent (g : list npfloat) (c : nat) :
  getitem_last (ind_tmp g) = Ok c ->
  (exists v, nth_error g c = Some v /\ coherent v = true) /\
  (forall j v, nth_error g j = Some v -> coherent v = true -> (j <= c)%nat).
Proof.
  revert c. induction g as [| v g IH] using rev_ind; intros c Hc.
  - discriminate.
  - rewrite ind_tmp_snoc in Hc. destruct (coherent v) eqn:Ev.
    + rewrite getitem_last_snoc in Hc. injection Hc as <-. split.
      * exists v. split; [| exact Ev].
        rewrite nth_error_app2, Nat.sub_diag by lia. reflexivity.
      * intros j w Hj _.
        assert (Hs : nth_error (g ++ v :: nil) j <> None) by congruence.
        apply nth_error_Some in Hs. rewrite length_app in Hs. cbn in Hs. lia.
    + rewrite app_nil_r in Hc. destruct (IH c Hc) as [(w & Hw & Ew) Hmax]. split.
      * exists w. split; [| exact Ew].
        rewrite nth_error_app1; [exact Hw |].
        apply nth_error_Some. congruence.
      * intros j u Hj Eu.
        destruct (Nat.lt_ge_cases j (length g)) as [L | L].
        -- rewrite nth_error_app1 in Hj by exact L. eapply Hmax; eauto.
        -- rewrite nth_error_app2 in Hj by exact L.
           destruct (j - length g)%nat as [| m] eqn:Em.
           ++ cbn in Hj. injection Hj as <-. congruence.
           ++ cbn in Hj. destruct m; discriminate.
Qed.

Lemma no_coherent_bin (g : list npfloat) :
  (forall j v, nth_error g j = Some v -> coherent v = false) <->
  getitem_last (ind_tmp g) = Raise IndexError.
Proof.
  induction g as [| v g IH] using rev_ind.
  - split; [reflexivity |]. intros _ j v Hj. destruct j; discriminate.
  - rewrite ind_tmp_snoc. split.
    + intro H.
      assert (Ev : coherent v = false).
      { apply (H (length g)). rewrite nth_error_app2, Nat.sub_diag by lia. reflexivity. }
      rewrite Ev, app_nil_r. apply IH. intros j w Hj. apply (H j).
      rewrite nth_error_app1; [exact Hj |]. apply nth_error_Some. congruence.
    + destruct (coherent v) eqn:Ev.
      * rewrite getitem_last_snoc. discriminate.
      * rewrite app_nil_r. intros H j w Hj.
        destruct (Nat.lt_ge_cases j (length g)) as [L | L].
        -- rewrite nth_error_app1 in Hj by exact L.
           apply (proj2 IH H j w Hj).
        -- rewrite nth_error_app2 in Hj by exact L.
           destruct (j - length g)%nat as [| m] eqn:Em.
           ++ cbn in Hj. injection Hj as <-. exact Ev.
           ++ cbn in Hj. destruct m; discriminate.
Qed.

Lemma getitem_last_cases {A : Type} (l : list A) :
  getitem_last l = Raise IndexError \/ exists a, getitem_last l = Ok a.
Proof.
  unfold getitem_last. destruct (rev l); [left | right; eexists]; reflexivity.
Qed.

(** *** Slices *)

Lemma slice_1_nth_error {A : Type} (c : nat) (xs : list A) (i : nat) :
  nth_error (slice 1 c xs) i
  = if (S i <? c)%nat then nth_error xs (S i) else None.
Proof.
  unfold slice. rewrite nth_error_skipn. cbn [plus].
  apply nth_error_firstn.
Qed.

Lemma length_slice_1 {A : Type} (c : nat) (xs : list A) :
  length (slice 1 c xs) = (Nat.min c (length xs) - 1)%nat.
Proof. unfold slice. rewrite length_skipn, length_firstn. reflexivity. Qed.

Section SpectralProperties.

Context {T : Transcendentals}.

(** *** The steps of [compute_freqdomain] *)

(** [compute_freqdomain] is [spectra] followed by the cutoff, the fit and
    the velocity. *)
Lemma compute_freqdomain_spectra (self : RMP_ConvectionVelocityCalculator)
  (N_window N_overlap : nat) :
  compute_freqdomain self N_window N_overlap =
  (fZg <- spectra self N_window N_overlap ;;
   c <- getitem_last (ind_tmp (snd fZg)) ;;
   P <- np_polyfit1 (slice 1 c (fst (fst fZg)))
                    (np_unwrap (map np_angle (slice 1 c (snd (fst fZg))))) ;;
   Ok (np_multiply
         (np_multiply
            (np_true_divide (Fin (RMP_x2 self - RMP_x1 self)) (Fin (fst P)))
            (Fin (qc 2 1)))
         (Fin np_pi),
       {| gamma2 := snd fZg; ind_fmax_fit := c; f_Pxy := fst (fst fZg);
          P := P; Pxy := snd (fst fZg) |})).
Proof.
  unfold compute_freqdomain, spectra.
  destruct (signal_csd _ _ _ _ _ _) as [[f Z] | e]; cbn [bind]; [| reflexivity].
  destruct (signal_welch (RMP_data_1 self) _ _ _ _) as [[f1 Pxx] | e];
    cbn [bind]; [| reflexivity].
  destruct (signal_welch (RMP_data_2 self) _ _ _ _) as [[f2 Pyy] | e];
    cbn [bind]; [| reflexivity].
  destruct (coherence Z Pxx Pyy) as [g | e]; cbn [bind]; reflexivity.
Qed.

(** Every return of [compute_freqdomain] has gone through these steps. *)
Lemma compute_freqdomain_inv (self : RMP_ConvectionVelocityCalculator)
  (N_window N_overlap : nat) (U : npfloat) (r : freqdomain_plot) :
  compute_freqdomain self N_window N_overlap = Ok (U, r) ->
  spectra self N_window N_overlap = Ok (f_Pxy r, Pxy r, gamma2 r) /\
  getitem_last (ind_tmp (gamma2 r)) = Ok (ind_fmax_fit r) /\
  np_polyfit1 (slice 1 (ind_fmax_fit r) (f_Pxy r))
              (np_unwrap (map np_angle (slice 1 (ind_fmax_fit r) (Pxy r))))
  = Ok (P r) /\
  U = np_multiply
        (np_multiply
           (np_true_divide (Fin (RMP_x2 self - RMP_x1 self)) (Fin (fst (P r))))
           (Fin (qc 2 1)))
        (Fin np_pi).
Proof.
  rewrite compute_freqdomain_spectra.
  destruct (spectra self N_window N_overlap) as [[[f Z] g] | e]; cbn [bind fst snd];
    [| discriminate].
  destruct (getitem_last (ind_tmp g)) as [c | e] eqn:Ec; cbn [bind]; [| discriminate].
  destruct (np_polyfit1 _ _) as [p | e] eqn:Ep; cbn [bind]; [| discriminate].
  intro E. injection E as <- <-. cbn [f_Pxy Pxy gamma2 ind_fmax_fit P].
  split; [reflexivity |]. split; [exact Ec |]. split; [exact Ep | reflexivity].
Qed.

(** *** The shape of the spectra *)

Lemma length_rfftfreq (nfft : nat) (fs : Qc) :
  length (rfftfreq nfft fs) = (nfft / 2 + 1)%nat.
Proof. unfold rfftfreq. rewrite length_map, length_seq. reflexivity. Qed.

Lemma length_rfft (v : list Qc) (nfft : nat) :
  length (rfft v nfft) = (nfft / 2 + 1)%nat.
Proof. unfold rfft. rewrite length_map, length_seq. reflexivity. Qed.

(** A cross-spectral density is empty, for an empty signal, or has the
    [nfft // 2 + 1] bins of the frequency axis [rfftfreq]. *)
Lemma signal_csd_shape (x y : list Qc) (fs : Qc) (nperseg noverlap nfft : nat)
  (f : list Qc) (Z : list complex) :
  signal_csd x y fs nperseg noverlap nfft = Ok (f, Z) ->
  ((x = [] \/ y = []) /\ f = [] /\ Z = []) \/
  (x <> [] /\ y <> [] /\ (1 <= nperseg)%nat /\ fs <> 0 /\
   f = rfftfreq nfft fs /\ length Z = (nfft / 2 + 1)%nat).
Proof.
  unfold signal_csd.
  destruct ((length x =? 0)%nat || (length y =? 0)%nat) eqn:Eempty.
  { intro E. injection E as <- <-. left. repeat split.
    apply orb_true_iff in Eempty. destruct Eempty as [H | H];
      apply Nat.eqb_eq, length_zero_iff_nil in H; [left | right]; exact H. }
  apply orb_false_iff in Eempty. destruct Eempty as [Hx Hy].
  apply Nat.eqb_neq in Hx, Hy.
  assert (Hx' : x <> []) by (intro H; apply Hx; rewrite H; reflexivity).
  assert (Hy' : y <> []) by (intro H; apply Hy; rewrite H; reflexivity).
  destruct (Nat.ltb_spec nperseg 1) as [L | L]; [discriminate |].
  destruct (nfft <? _)%nat; [discriminate |].
  destruct (_ <=? noverlap)%nat; [discriminate |].
  destruct (Qceqb fs 0) eqn:Efs; [discriminate |].
  intro E. injection E as <- <-. right.
  split; [exact Hx' |]. split; [exact Hy' |]. split; [exact L |].
  split; [apply Qceqb_neq; exact Efs |]. split; [reflexivity |].
  unfold mean_over_segments. rewrite length_map, length_seq. reflexivity.
Qed.

Lemma signal_welch_shape (x : list Qc) (fs : Qc) (nperseg noverlap nfft : nat)
  (f Pxx : list Qc) :
  signal_welch x fs nperseg noverlap nfft = Ok (f, Pxx) ->
  (x = [] /\ Pxx = []) \/ (x <> [] /\ length Pxx = (nfft / 2 + 1)%nat).
Proof.
  unfold signal_welch.
  destruct (signal_csd x x fs nperseg noverlap nfft) as [[f' Z] | e] eqn:E;
    cbn [bind]; [| discriminate].
  intro H. injection H as <- <-.
  destruct (signal_csd_shape _ _ _ _ _ _ _ _ E) as [([Hx | Hx] & _ & ->) | (Hx & _ & _ & _ & _ & HZ)].
  - left. split; [exact Hx | reflexivity].
  - left. split; [exact Hx | reflexivity].
  - right. split; [exact Hx |]. rewrite length_map. exact HZ.
Qed.

Lemma np_broadcast_equal_lengths {A B C : Type} (f : A -> B -> C)
  (xs : list A) (ys : list B) :
  length xs = length ys ->
  np_broadcast f xs ys = Ok (map (fun p => f (fst p) (snd p)) (combine xs ys)).
Proof.
  intro H. unfold np_broadcast. rewrite H, Nat.eqb_refl. reflexivity.
Qed.

Lemma np_broadcast_nil_l {A B C : Type} (f : A -> B -> C) (ys : list B) (zs : list C) :
  np_broadcast f [] ys = Ok zs -> zs = [].
Proof.
  unfold np_broadcast. destruct ys as [| y ys]; cbn.
  - intro E. injection E as <-. reflexivity.
  - destruct ys; [| discriminate]. intro E. injection E as <-. reflexivity.
Qed.

(** The three arrays that [spectra] returns have the same length. *)
Lemma spectra_shape (self : RMP_ConvectionVelocityCalculator)
  (N_window N_overlap : nat) (f : list Qc) (Z : list complex) (g : list npfloat) :
  spectra self N_window N_overlap = Ok (f, Z, g) ->
  length f = length g /\ length Z = length g /\
  (g <> [] ->
   RMP_data_1 self <> [] /\ RMP_data_2 self <> [] /\
   (1 <= N_window)%nat /\ fs self <> 0 /\
   f = rfftfreq N_window (fs self) /\ length g = (N_window / 2 + 1)%nat).
Proof.
  unfold spectra.
  destruct (signal_csd _ _ _ _ _ _) as [[f' Z'] | e] eqn:Ecsd; cbn [bind]; [| discriminate].
  destruct (signal_welch (RMP_data_1 self) _ _ _ _) as [[f1 Pxx] | e] eqn:E1;
    cbn [bind]; [| discriminate].
  destruct (signal_welch (RMP_data_2 self) _ _ _ _) as [[f2 Pyy] | e] eqn:E2;
    cbn [bind]; [| discriminate].
  destruct (coherence Z' Pxx Pyy) as [g' | e] eqn:Ec; cbn [bind]; [| discriminate].
  intro E. injection E as <- <- <-.
  unfold coherence in Ec.
  destruct (np_broadcast Qcmult Pxx Pyy) as [den | e] eqn:Eden; cbn [bind] in Ec;
    [| discriminate].
  destruct (signal_csd_shape _ _ _ _ _ _ _ _ Ecsd)
    as [(Hempty & -> & ->) | (Hx & Hy & Hn & Hfs & -> & HZ)].
  - cbn [map] in Ec. apply np_broadcast_nil_l in Ec. subst g'.
    split; [reflexivity |]. split; [reflexivity |]. congruence.
  - destruct (signal_welch_shape _ _ _ _ _ _ _ E1) as [[H _] | [_ L1]]; [congruence |].
    destruct (signal_welch_shape _ _ _ _ _ _ _ E2) as [[H _] | [_ L2]]; [congruence |].
    rewrite np_broadcast_equal_lengths in Eden by congruence.
    injection Eden as <-.
    rewrite np_broadcast_equal_lengths in Ec
      by (rewrite !length_map, length_combine, L1, L2, HZ; lia).
    injection Ec as <-.
    rewrite !length_map, !length_combine, !length_map, length_combine, L1, L2, HZ,
      length_rfftfreq.
    split; [lia |]. split; [lia |]. intros _. repeat split; try assumption. lia.
Qed.

(** *** [np.polyfit]: the fitted line is a least-squares line *)

Lemma Qc_of_nat_S (n : nat) : Qc_of_nat (S n) = Qc_of_nat n + 1.
Proof.
  unfold Qc_of_nat, Qc_of_Z. qc_to_q.
  rewrite Nat2Z.inj_succ. unfold Z.succ. rewrite inject_Z_plus. reflexivity.
Qed.

Lemma Qc_of_nat_pos (n : nat) : (0 < n)%nat -> 0 < Qc_of_nat n.
Proof.
  intro H. unfold Qc_of_nat. change 0 with (Qc_of_Z 0). apply Qc_of_Z_lt. lia.
Qed.

Lemma Qc_of_nat_neq_0 (n : nat) : (0 < n)%nat -> Qc_of_nat n <> 0.
Proof. intro H. apply not_eq_sym, Qclt_not_eq, Qc_of_nat_pos, H. Qed.

(** Side conditions of [field]: hypotheses, or closed numbers. *)
Ltac qc_nonzero :=
  repeat split;
  first [ assumption
        | let H := fresh in intro H; apply (f_equal this) in H; discriminate ].

Lemma two_is_1_plus_1 : qc 2 1 = 1 + 1.
Proof. apply Qc_is_canon. reflexivity. Qed.

Lemma Qcsum_cons (a : Qc) (l : list Qc) : Qcsum (a :: l) = a + Qcsum l.
Proof. reflexivity. Qed.

Lemma Qcsum_nonneg (l : list Qc) : (forall v, In v l -> 0 <= v) -> 0 <= Qcsum l.
Proof.
  induction l as [| a l IH]; intro H.
  - apply Qcle_refl.
  - rewrite Qcsum_cons.
    assert (Ha : 0 <= a) by (apply H; left; reflexivity).
    assert (Hl : 0 <= Qcsum l) by (apply IH; intros v Hv; apply H; right; exact Hv).
    qc_to_q. lra.
Qed.

Lemma Qcsquare_nonneg (a : Qc) : 0 <= a * a.
Proof. qc_to_q. nra. Qed.

Lemma Qcsum_squares_nonneg {A : Type} (e : A -> Qc) (l : list A) :
  0 <= Qcsum (map (fun v => e v * e v) l).
Proof.
  apply Qcsum_nonneg. intros v Hv. apply in_map_iff in Hv.
  destruct Hv as (a & <- & _). apply Qcsquare_nonneg.
Qed.

Lemma Qcsum_squares_zero {A : Type} (e : A -> Qc) (l : list A) :
  Qcsum (map (fun v => e v * e v) l) = 0 -> forall v, In v l -> e v = 0.
Proof.
  induction l as [| a l IH]; intros H v Hv; [destruct Hv |].
  cbn [map] in H. rewrite Qcsum_cons in H.
  pose proof (Qcsum_squares_nonneg e l) as Hl.
  pose proof (Qcsquare_nonneg (e a)) as Ha.
  assert (Ha0 : e a * e a = 0) by (qc_to_q; lra).
  assert (Hl0 : Qcsum (map (fun v => e v * e v) l) = 0) by (qc_to_q; lra).
  destruct Hv as [<- | Hv].
  - destruct (Qcmult_integral _ _ Ha0); assumption.
  - apply IH; assumption.
Qed.

(** The squared residuals, and the squares of a line, in terms of the sums
    of the data. *)
Lemma squared_error_expand (x : list Qc) : forall (y : list Qc) (a b : Qc),
  length x = length y ->
  squared_error x y a b
  = Sxx y - (1 + 1) * a * Sxy x y - (1 + 1) * b * Qcsum y
    + a * a * Sxx x + (1 + 1) * a * b * Qcsum x + Qc_of_nat (length x) * (b * b).
Proof.
  unfold squared_error, Sxx, Sxy.
  induction x as [| u x IH]; intros [| v y] a b H; try discriminate.
  - cbn. change (Qc_of_nat 0) with 0. ring.
  - cbn [length combine map fst snd]. rewrite !Qcsum_cons, Qc_of_nat_S.
    rewrite (IH y a b) by (injection H as H; exact H). ring.
Qed.

Lemma line_squares_expand (x : list Qc) (a b : Qc) :
  Qcsum (map (fun u => (a * u + b) * (a * u + b)) x)
  = a * a * Sxx x + (1 + 1) * a * b * Qcsum x + Qc_of_nat (length x) * (b * b).
Proof.
  unfold Sxx. induction x as [| u x IH].
  - cbn. change (Qc_of_nat 0) with 0. ring.
  - cbn [length map]. rewrite !Qcsum_cons, Qc_of_nat_S, IH. ring.
Qed.

(** For a line that satisfies the two normal equations, the squared error
    of any other line is larger by the sum of the squares of the
    difference of the two lines. *)
Lemma squared_error_decomposition (x y : list Qc) (a b : Qc) :
  length x = length y ->
  Qc_of_nat (length x) * b + a * Qcsum x = Qcsum y ->
  a * Sxx x + b * Qcsum x = Sxy x y ->
  forall a' b',
    squared_error x y a' b'
    = squared_error x y a b
      + Qcsum (map (fun u => ((a' - a) * u + (b' - b)) * ((a' - a) * u + (b' - b))) x).
Proof.
  intros Hlen N1 N2 a' b'.
  rewrite line_squares_expand, !squared_error_expand by exact Hlen.
  rewrite <- N1, <- N2. ring.
Qed.

(** Hence it has the least sum of squared residuals, *)
Lemma normal_equations_least_squares (x y : list Qc) (a b : Qc) :
  length x = length y ->
  Qc_of_nat (length x) * b + a * Qcsum x = Qcsum y ->
  a * Sxx x + b * Qcsum x = Sxy x y ->
  forall a' b', squared_error x y a b <= squared_error x y a' b'.
Proof.
  intros Hlen N1 N2 a' b'.
  rewrite (squared_error_decomposition x y a b Hlen N1 N2 a' b').
  pose proof (Qcsum_squares_nonneg (fun u => (a' - a) * u + (b' - b)) x) as Hq.
  cbv beta in Hq.
  set (q := Qcsum _) in *. clearbody q.
  set (s := squared_error x y a b). clearbody s.
  qc_to_q. lra.
Qed.


Lemma constant_sums (x : list Qc) (x0 : Qc) :
  (forall u, In u x -> u = x0) ->
  Qcsum x = Qc_of_nat (length x) * x0 /\
  Sxx x = Qc_of_nat (length x) * (x0 * x0) /\
  forall y, length x = length y -> Sxy x y = x0 * Qcsum y.
Proof.
  unfold Sxx, Sxy. induction x as [| u x IH]; intro H.
  - repeat split; try (cbn; change (Qc_of_nat 0) with 0; ring).
    intros [| v y] Hy; [cbn; ring | discriminate].
  - assert (Hu : u = x0) by (apply H; left; reflexivity). subst u.
    destruct IH as (I1 & I2 & I3); [intros u Hu; apply H; right; exact Hu |].
    cbn [length map]. rewrite !Qcsum_cons, Qc_of_nat_S, I1, I2.
    repeat split; try ring.
    intros [| v y] Hy; [discriminate |].
    cbn [combine map fst snd]. rewrite !Qcsum_cons, (I3 y) by (injection Hy as Hy; exact Hy).
    ring.
Qed.

(** When the determinant of the normal equations vanishes, all the
    abscissae are equal. *)
Lemma singular_abscissae (x : list Qc) (x0 : Qc) :
  In x0 x ->
  Qc_of_nat (length x) * Sxx x - Qcsum x * Qcsum x = 0 ->
  forall u, In u x -> u = x0.
Proof.
  intros Hx0 HD.
  set (n := Qc_of_nat (length x)) in *.
  assert (Hn : n <> 0).
  { apply Qc_of_nat_neq_0. destruct x; [destruct Hx0 | cbn; lia]. }
  assert (E : Qcsum (map (fun u => (n * u + - Qcsum x) * (n * u + - Qcsum x)) x) = 0).
  { rewrite line_squares_expand. fold n.
    transitivity (n * (n * Sxx x - Qcsum x * Qcsum x)); [ring |].
    rewrite HD. ring. }
  pose proof (Qcsum_squares_zero (fun u => n * u + - Qcsum x) x E) as Hall.
  cbv beta in Hall.
  intros u Hu.
  assert (E1 : n * u = n * x0).
  { pose proof (Hall u Hu) as A. pose proof (Hall x0 Hx0) as B.
    transitivity (Qcsum x).
    - transitivity (n * u + - Qcsum x + Qcsum x); [ring | rewrite A; ring].
    - transitivity (n * x0 + - Qcsum x + Qcsum x); [rewrite B; ring | ring]. }
  transitivity (n * u / n); [field; exact Hn |].
  rewrite E1. field. exact Hn.
Qed.

(** The line that [np.polyfit] returns satisfies the normal equations. *)
Lemma np_polyfit1_normal_equations (x y : list Qc) (a b : Qc) :
  np_polyfit1 x y = Ok (a, b) ->
  length x = length y /\
  Qc_of_nat (length x) * b + a * Qcsum x = Qcsum y /\
  a * Sxx x + b * Qcsum x = Sxy x y.
Proof.
  unfold np_polyfit1. destruct x as [| x0 x']; [discriminate |].
  remember (x0 :: x') as x eqn:Ex.
  assert (Hx0 : In x0 x) by (rewrite Ex; left; reflexivity).
  assert (Hpos : (0 < length x)%nat) by (rewrite Ex; cbn; lia).
  clear Ex x'.
  destruct (Nat.eqb_spec (length x) (length y)) as [Hlen | Hlen];
    cbn [negb]; [| discriminate].
  set (n := Qc_of_nat (length x)).
  assert (Hn : n <> 0) by (apply Qc_of_nat_neq_0; exact Hpos).
  destruct (Qceqb _ 0) eqn:ED.
  - apply Qceqb_eq in ED.
    destruct (Qceqb x0 0) eqn:E0; [discriminate |]. apply Qceqb_neq in E0.
    intro E. injection E as <- <-. split; [exact Hlen |].
    pose proof (singular_abscissae x x0 Hx0 ED) as Hall.
    destruct (constant_sums x x0 Hall) as (C1 & C2 & C3).
    split.
    + rewrite C1. unfold np_mean. rewrite <- Hlen. fold n.
      rewrite two_is_1_plus_1. field. qc_nonzero.
    + rewrite C1, C2, (C3 y Hlen). unfold np_mean. rewrite <- Hlen. fold n.
      rewrite two_is_1_plus_1. field. qc_nonzero.
  - apply Qceqb_neq in ED. intro E. injection E as <- <-. split; [exact Hlen |].
    split; fold n; field; exact ED.
Qed.

(** It minimises the sum of the squared residuals: it is an ordinary
    least-squares fit. *)
Lemma np_polyfit1_least_squares (x y : list Qc) (a b : Qc) :
  np_polyfit1 x y = Ok (a, b) ->
  length x = length y /\
  forall a' b', squared_error x y a b <= squared_error x y a' b'.
Proof.
  intro E. destruct (np_polyfit1_normal_equations x y a b E) as (Hlen & N1 & N2).
  split; [exact Hlen |].
  apply normal_equations_least_squares; assumption.
Qed.

Lemma nth_error_rfftfreq (nfft : nat) (fs : Qc) (i : nat) :
  (i < nfft / 2 + 1)%nat ->
  nth_error (rfftfreq nfft fs) i = Some (Qc_of_nat i * (fs / Qc_of_nat nfft)).
Proof.
  intro H. unfold rfftfreq. rewrite nth_error_map.
  rewrite (nth_error_nth' _ O) by (rewrite length_seq; exact H).
  rewrite seq_nth by exact H. reflexivity.
Qed.

Lemma Qcdiv_neq_0 (a b : Qc) : a <> 0 -> b <> 0 -> a / b <> 0.
Proof.
  intros Ha Hb H. apply Ha.
  transitivity (a / b * b); [field; exact Hb | rewrite H; ring].
Qed.


(* ------------------------------------------------------------------ *)
(** *** C3: the velocity is made of the least-squares slope *)


(* ------------------------------------------------------------------ *)
(** *** C4: the cutoff and the fit range *)

Lemma np_polyfit1_nonempty (x y : list Qc) (p : Qc * Qc) :
  np_polyfit1 x y = Ok p -> (1 <= length x)%nat.
Proof. destruct x; [discriminate | cbn; lia]. Qed.


(* ------------------------------------------------------------------ *)
(** *** C6: when the fit fails, and when it does not *)

Lemma slice_empty {A : Type} (c : nat) (xs : list A) :
  (c <= 1)%nat -> slice 1 c xs = [].
Proof.
  intro H. apply length_zero_iff_nil. rewrite length_slice_1. lia.
Qed.


Lemma length_np_diff (p : list Qc) : length (np_diff p) = (length p - 1)%nat.
Proof.
  induction p as [| a [| b p] IH]; try reflexivity.
  cbn [np_diff length] in *. rewrite IH. lia.
Qed.

Lemma length_cumsum_from (l : list Qc) : forall acc,
  length (cumsum_from acc l) = length l.
Proof.
  induction l as [| a l IH]; intro acc; [reflexivity |].
  cbn [cumsum_from length]. rewrite IH. reflexivity.
Qed.

Lemma length_np_unwrap (p : list Qc) : length (np_unwrap p) = length p.
Proof.
  unfold np_unwrap. destruct p as [| p0 rest]; [reflexivity |].
  cbn [length]. rewrite length_map, length_combine.
  unfold np_cumsum. rewrite length_cumsum_from, length_map, length_np_diff.
  cbn [length]. lia.
Qed.

(** [np.polyfit] returns a line for non-empty data whose first abscissa is
    not zero. *)
Lemma np_polyfit1_returns (x y : list Qc) :
  (0 < length x)%nat -> length x = length y -> hd 0 x <> 0 ->
  exists p, np_polyfit1 x y = Ok p.
Proof.
  intros Hpos Hlen Hhd. unfold np_polyfit1.
  destruct x as [| x0 x']; [cbn in Hpos; lia |].
  cbn [hd] in Hhd. rewrite Hlen, Nat.eqb_refl. cbn [negb].
  destruct (Qceqb _ 0).
  - apply Qceqb_neq in Hhd. rewrite Hhd. eexists. reflexivity.
  - eexists. reflexivity.
Qed.

(** The first frequency of the fit range is [fs / N_window]. *)
Lemma hd_fit_frequencies (nfft c : nat) (fs : Qc) :
  (2 <= c)%nat -> (c < nfft / 2 + 1)%nat ->
  hd 0 (slice 1 c (rfftfreq nfft fs)) = fs / Qc_of_nat nfft.
Proof.
  intros Hc Hlt.
  assert (E : nth_error (slice 1 c (rfftfreq nfft fs)) 0
              = Some (Qc_of_nat 1 * (fs / Qc_of_nat nfft))).
  { rewrite slice_1_nth_error.
    destruct (Nat.ltb_spec 1 c) as [_ | L]; [| lia].
    apply nth_error_rfftfreq. lia. }
  destruct (slice 1 c (rfftfreq nfft fs)) as [| a l]; [discriminate |].
  cbn in E. injection E as ->. cbn [hd].
  change (Qc_of_nat 1) with 1. apply Qcmult_1_l.
Qed.


(** C6, as the program has it: once the spectra are computed,
    [compute_freqdomain] fails with [IndexError] when no bin reaches the
    coherence 0.1, and with [TypeError] when the fit range [ [1, cutoff) ]
    is empty (cutoff 0 or 1).  With any other cutoff it returns; in
    particular, when the fit range holds exactly one point (cutoff 2) it
    does not fail: a line is fitted to that single point and a velocity is
    returned. *)
Theorem freqdomain_fit_failures
  (self : RMP_ConvectionVelocityCalculator) (N_window N_overlap : nat)
  (f : list Qc) (Z : list complex) (g : list npfloat) :
  spectra self N_window N_overlap = Ok (f, Z, g) ->
  ((forall j v, nth_error g j = Some v -> np_greater_equal v (Fin (qc 1 10)) = false) ->
   compute_freqdomain self N_window N_overlap = Raise IndexError) /\
  (forall c, getitem_last (ind_tmp g) = Ok c -> (c <= 1)%nat ->
             length (slice 1 c f) = 0%nat /\
             compute_freqdomain self N_window N_overlap = Raise TypeError) /\
  (forall c, getitem_last (ind_tmp g) = Ok c -> (2 <= c)%nat ->
             length (slice 1 c f) = (c - 1)%nat /\
             exists U r, compute_freqdomain self N_window N_overlap = Ok (U, r) /\
                         ind_fmax_fit r = c) /\
  (getitem_last (ind_tmp g) = Ok 2%nat ->
   length (slice 1 2 f) = 1%nat /\
   exists U r, compute_freqdomain self N_window N_overlap = Ok (U, r) /\
               ind_fmax_fit r = 2%nat).
Proof.
  intro Hs.
  assert (Hret : forall c, getitem_last (ind_tmp g) = Ok c -> (2 <= c)%nat ->
             length (slice 1 c f) = (c - 1)%nat /\
             exists U r, compute_freqdomain self N_window N_overlap = Ok (U, r) /\
                         ind_fmax_fit r = c).
  { intros c Hc Hle. rewrite compute_freqdomain_spectra, Hs. cbn [bind fst snd].
    rewrite Hc. cbn [bind].
    destruct (cutoff_is_last_coherent _ _ Hc) as [(v & Hv & _) _].
    assert (Hlt : (c < length g)%nat) by (apply nth_error_Some; congruence).
    destruct (spectra_shape _ _ _ _ _ _ Hs) as (Lf & LZ & Hshape).
    destruct Hshape as (_ & _ & HN & Hfs & Ef & Lg).
    { intro H0. rewrite H0 in Hlt. cbn in Hlt. lia. }
    assert (Lsf : length (slice 1 c f) = (c - 1)%nat) by (rewrite length_slice_1; lia).
    split; [exact Lsf |].
    destruct (np_polyfit1_returns (slice 1 c f)
                (np_unwrap (map np_angle (slice 1 c Z)))) as [p Hp].
    - lia.
    - rewrite length_np_unwrap, length_map, !length_slice_1. lia.
    - rewrite Ef, hd_fit_frequencies by lia.
      apply Qcdiv_neq_0; [exact Hfs | apply Qc_of_nat_neq_0; lia].
    - rewrite Hp. cbn [bind]. eexists. eexists. split; reflexivity. }
  split; [| split; [| split]].
  - intro Hnone. rewrite compute_freqdomain_spectra, Hs. cbn [bind fst snd].
    apply no_coherent_bin in Hnone. rewrite Hnone. reflexivity.
  - intros c Hc Hle. rewrite compute_freqdomain_spectra, Hs. cbn [bind fst snd].
    rewrite Hc. cbn [bind].
    rewrite (slice_empty c f Hle). split; reflexivity.
  - exact Hret.
  - intro Hc. exact (Hret 2%nat Hc (le_n 2)).
Qed.

(* ------------------------------------------------------------------ *)
(** *** C9: the coherence *)

Lemma Cscale_Cplus (k : Qc) (a b : complex) :
  Cscale k (Cplus a b) = Cplus (Cscale k a) (Cscale k b).
Proof. unfold Cscale, Cplus. cbn [re im]. f_equal; ring. Qed.

Lemma Csum_cons (a : complex) (l : list complex) : Csum (a :: l) = Cplus a (Csum l).
Proof. reflexivity. Qed.

Lemma Csum_scale {A : Type} (k : Qc) (h : A -> complex) (l : list A) :
  Csum (map (fun a => Cscale k (h a)) l) = Cscale k (Csum (map h l)).
Proof.
  induction l as [| a l IH]; cbn [map Csum fold_right].
  - unfold Cscale, Czero. cbn [re im]. f_equal; ring.
  - fold (Csum (map (fun a => Cscale k (h a)) l)). fold (Csum (map h l)).
    rewrite IH, Cscale_Cplus. reflexivity.
Qed.

Lemma nth_error_enumerate {A : Type} (l : list A) (i : nat) :
  nth_error (enumerate l) i = option_map (pair i) (nth_error l i).
Proof.
  assert (G : forall (l : list A) s i,
            nth_error (combine (seq s (length l)) l) i
            = option_map (pair (s + i)%nat) (nth_error l i)).
  { clear. induction l as [| a l IH]; intros s i.
    - destruct i; reflexivity.
    - destruct i as [| i]; cbn [length seq combine nth_error option_map].
      + rewrite Nat.add_0_r. reflexivity.
      + rewrite IH. do 2 f_equal. lia. }
  unfold enumerate. rewrite G. reflexivity.
Qed.

(** Bin [f] of the cross periodogram of one segment. *)
Lemma nth_cross_periodogram (scale : Qc) (nfft : nat) (Xk Yk : list complex) (f : nat) :
  nth f (cross_periodogram scale nfft Xk Yk) Czero
  = Cscale (scale * onesided_factor nfft f)
           (Cmult (Cconj (nth f Xk Czero)) (nth f Yk Czero)).
Proof.
  unfold cross_periodogram.
  destruct (nth_error (combine Xk Yk) f) as [[a b] |] eqn:E.
  - apply nth_error_nth. rewrite nth_error_map, nth_error_enumerate, E.
    cbn [option_map fst snd].
    assert (Hlt : (f < length (combine Xk Yk))%nat) by (apply nth_error_Some; congruence).
    rewrite length_combine in Hlt.
    assert (Ha : nth f Xk Czero = a /\ nth f Yk Czero = b).
    { clear - E. revert Yk f E. induction Xk as [| u Xk IH]; intros [| v Yk] [| f] E;
        cbn in E; try discriminate.
      - injection E as <- <-. split; reflexivity.
      - cbn [nth]. apply IH. exact E. }
    destruct Ha as [-> ->]. reflexivity.
  - apply nth_error_None in E. rewrite length_combine in E.
    rewrite nth_overflow
      by (rewrite length_map; unfold enumerate;
          rewrite length_combine, length_seq, length_combine; lia).
    destruct (Nat.le_ge_cases (length Xk) (length Yk)) as [L | L].
    + rewrite (nth_overflow Xk) by lia.
      unfold Cscale, Cmult, Cconj, Czero. cbn [re im]. f_equal; ring.
    + rewrite (nth_overflow Yk) by lia.
      unfold Cscale, Cmult, Cconj, Czero. cbn [re im]. f_equal; ring.
Qed.

(** The Cauchy-Schwarz inequality, one more term at a time. *)
Lemma square_lt_square (a b : Q) : (0 <= a -> a < b -> a * a < b * b)%Q.
Proof.
  intros Ha Hab. apply Qle_lt_trans with (b * a)%Q.
  - apply Qmult_le_compat_r; [lra | exact Ha].
  - rewrite (Qmult_comm b a). apply Qmult_lt_compat_r; lra.
Qed.

Lemma Qsquare_nonneg (a : Q) : (0 <= a * a)%Q.
Proof. nra. Qed.

Lemma cauchy_schwarz_step_Q (sr si zr zi P Q p q : Q) :
  (0 <= P -> 0 <= Q -> 0 <= p -> 0 <= q ->
   sr * sr + si * si <= P * Q ->
   zr * zr + zi * zi <= p * q ->
   (zr + sr) * (zr + sr) + (zi + si) * (zi + si) <= (p + P) * (q + Q))%Q.
Proof.
  intros HP HQ Hp Hq HS Hz.
  set (t := (sr * zr + si * zi)%Q).
  assert (H1 : (t * t <= (sr * sr + si * si) * (zr * zr + zi * zi))%Q).
  { pose proof (Qsquare_nonneg (sr * zi - si * zr)) as H.
    assert (E : ((sr * sr + si * si) * (zr * zr + zi * zi) - t * t
                 == (sr * zi - si * zr) * (sr * zi - si * zr))%Q) by (unfold t; ring).
    lra. }
  assert (H2 : ((sr * sr + si * si) * (zr * zr + zi * zi) <= (P * Q) * (p * q))%Q).
  { pose proof (Qsquare_nonneg sr). pose proof (Qsquare_nonneg si).
    pose proof (Qsquare_nonneg zr). pose proof (Qsquare_nonneg zi).
    assert (0 <= P * Q)%Q by (apply Qmult_le_0_compat; assumption).
    apply Qle_trans with ((P * Q) * (zr * zr + zi * zi))%Q.
    - apply Qmult_le_compat_r; [exact HS | lra].
    - rewrite (Qmult_comm (P * Q) (zr * zr + zi * zi)), (Qmult_comm (P * Q) (p * q)).
      apply Qmult_le_compat_r; [exact Hz | assumption]. }
  assert (H3 : (2 * t <= P * q + p * Q)%Q).
  { assert (A : (0 <= P * q)%Q) by (apply Qmult_le_0_compat; assumption).
    assert (B : (0 <= p * Q)%Q) by (apply Qmult_le_0_compat; assumption).
    pose proof (Qsquare_nonneg (P * q - p * Q)) as H5.
    assert (H4 : (4 * (t * t) <= (P * q + p * Q) * (P * q + p * Q))%Q).
    { assert (E : ((P * q + p * Q) * (P * q + p * Q) - 4 * ((P * Q) * (p * q))
                   == (P * q - p * Q) * (P * q - p * Q))%Q) by ring.
      lra. }
    destruct (Qlt_le_dec (P * q + p * Q) (2 * t)) as [L | L]; [| exact L].
    exfalso.
    assert (C : ((P * q + p * Q) * (P * q + p * Q) < (2 * t) * (2 * t))%Q)
      by (apply square_lt_square; lra).
    assert (E : (2 * t * (2 * t) == 4 * (t * t))%Q) by ring.
    lra. }
  unfold t in H3.
  assert (E : ((zr + sr) * (zr + sr) + (zi + si) * (zi + si)
               == (sr * sr + si * si) + (zr * zr + zi * zi) + 2 * (sr * zr + si * zi))%Q)
    by ring.
  assert (E' : ((p + P) * (q + Q) == P * Q + p * q + (P * q + p * Q))%Q) by ring.
  lra.
Qed.

Lemma cauchy_schwarz_step (S z : complex) (P Q p q : Qc) :
  0 <= P -> 0 <= Q -> 0 <= p -> 0 <= q ->
  Cnorm2 S <= P * Q -> Cnorm2 z <= p * q ->
  Cnorm2 (Cplus z S) <= (p + P) * (q + Q).
Proof.
  unfold Cnorm2, Cplus. cbn [re im]. intros HP HQ Hp Hq HS Hz.
  qc_to_q. apply cauchy_schwarz_step_Q; assumption.
Qed.

Lemma bin_sum_cauchy_schwarz (f : nat) (X : list (list complex)) : forall Y,
  length X = length Y ->
  im (bin_sum f X X) = 0 /\ im (bin_sum f Y Y) = 0 /\
  0 <= re (bin_sum f X X) /\ 0 <= re (bin_sum f Y Y) /\
  Cnorm2 (bin_sum f X Y) <= re (bin_sum f X X) * re (bin_sum f Y Y).
Proof.
  unfold bin_sum. induction X as [| a X IH]; intros [| b Y] H; try discriminate.
  - cbn. repeat split; try apply Qcle_refl.
  - injection H as H. destruct (IH Y H) as (I1 & I2 & I3 & I4 & I5).
    cbn [combine map fst snd]. rewrite !Csum_cons.
    set (SXY := Csum (map _ (combine X Y))) in *.
    set (SXX := Csum (map _ (combine X X))) in *.
    set (SYY := Csum (map _ (combine Y Y))) in *.
    set (u := nth f a Czero). set (v := nth f b Czero).
    assert (Eu : Cmult (Cconj u) u = mkC (Cnorm2 u) 0)
      by (unfold Cmult, Cconj, Cnorm2; cbn [re im]; f_equal; ring).
    assert (Ev : Cmult (Cconj v) v = mkC (Cnorm2 v) 0)
      by (unfold Cmult, Cconj, Cnorm2; cbn [re im]; f_equal; ring).
    rewrite Eu, Ev. unfold Cplus at 1 2 3 4. cbn [re im].
    assert (Nu : 0 <= Cnorm2 u)
      by (unfold Cnorm2; pose proof (Qcsquare_nonneg (re u));
          pose proof (Qcsquare_nonneg (im u)); qc_to_q; lra).
    assert (Nv : 0 <= Cnorm2 v)
      by (unfold Cnorm2; pose proof (Qcsquare_nonneg (re v));
          pose proof (Qcsquare_nonneg (im v)); qc_to_q; lra).
    split; [rewrite I1; ring |]. split; [rewrite I2; ring |].
    split; [qc_to_q; lra |]. split; [qc_to_q; lra |].
    apply cauchy_schwarz_step; try assumption.
    assert (E : Cnorm2 (Cmult (Cconj u) v) = Cnorm2 u * Cnorm2 v)
      by (unfold Cnorm2, Cmult, Cconj; cbn [re im]; ring).
    rewrite E. apply Qcle_refl.
Qed.

Lemma zero_pad_same (x : list Qc) : zero_pad (length x) x = x.
Proof. unfold zero_pad. rewrite Nat.sub_diag. apply app_nil_r. Qed.


(** For two recordings of the same length the cross-spectral density is
    the mean over the segments of the cross periodograms of their segment
    spectra. *)
Lemma signal_csd_equal_lengths (x y : list Qc) (fs : Qc)
  (nperseg noverlap nfft : nat) (f : list Qc) (Z : list complex) :
  x <> [] -> length x = length y ->
  signal_csd x y fs nperseg noverlap nfft = Ok (f, Z) ->
  Z = mean_over_segments (nfft / 2 + 1)
        (map (fun XY => cross_periodogram (density_scale fs nperseg (length x)) nfft
                          (fst XY) (snd XY))
             (combine (segment_spectra x nperseg noverlap nfft)
                      (segment_spectra y nperseg noverlap nfft))).
Proof.
  intros Hx Hlen. unfold signal_csd, segment_spectra, density_scale.
  rewrite <- Hlen, Nat.max_id, zero_pad_same.
  replace (zero_pad (length x) y) with y by (rewrite Hlen; symmetry; apply zero_pad_same).
  destruct (length x =? 0)%nat eqn:E0.
  { apply Nat.eqb_eq, length_zero_iff_nil in E0. congruence. }
  cbn [orb].
  destruct (nperseg <? 1)%nat; [discriminate |].
  destruct (nfft <? _)%nat; [discriminate |].
  destruct (_ <=? noverlap)%nat; [discriminate |].
  destruct (Qceqb fs 0); [discriminate |].
  intro E. injection E as _ <-. reflexivity.
Qed.

Lemma nth_error_mean_over_segments (nbins : nat) (pg : list (list complex)) (f : nat) :
  nth_error (mean_over_segments nbins pg) f
  = if (f <? nbins)%nat
    then Some (Cscale (1 / Qc_of_nat (length pg))
                 (Csum (map (fun seg => nth f seg Czero) pg)))
    else None.
Proof.
  unfold mean_over_segments. rewrite nth_error_map.
  destruct (Nat.ltb_spec f nbins) as [L | L].
  - rewrite (nth_error_nth' _ O) by (rewrite length_seq; exact L).
    rewrite seq_nth by exact L. reflexivity.
  - replace (nth_error (seq 0 nbins) f) with (@None nat); [reflexivity |].
    symmetry. apply nth_error_None. rewrite length_seq. exact L.
Qed.

(** Bin [f] of a Welch estimate, in terms of the sum over the segments. *)
Lemma welch_bin (scale : Qc) (nfft f : nat) (X Y : list (list complex)) :
  Cscale (1 / Qc_of_nat (length (combine X Y)))
    (Csum (map (fun seg => nth f seg Czero)
               (map (fun XY => cross_periodogram scale nfft (fst XY) (snd XY))
                    (combine X Y))))
  = Cscale (1 / Qc_of_nat (length (combine X Y)) * (scale * onesided_factor nfft f))
           (bin_sum f X Y).
Proof.
  rewrite map_map.
  rewrite (map_ext _ (fun XY => Cscale (scale * onesided_factor nfft f)
                                  (Cmult (Cconj (nth f (fst XY) Czero))
                                         (nth f (snd XY) Czero))))
    by (intro XY; apply nth_cross_periodogram).
  rewrite Csum_scale. unfold bin_sum, Cscale. cbn [re im]. f_equal; ring.
Qed.






(* ------------------------------------------------------------------ *)
(** *** C5: short recordings and equal positions *)









(* ------------------------------------------------------------------ *)
(** *** C7: exchanging the two sensors *)

(** In the time domain. *)

Lemma sample_overflow (x : list Qc) (z : Z) :
  (Z.of_nat (length x) <= z)%Z -> sample x z = 0.
Proof.
  intro H. unfold sample. destruct (Z.ltb_spec z 0); [reflexivity |].
  apply nth0_overflow. lia.
Qed.

Lemma sample_rev (x : list Qc) (z : Z) :
  sample (rev x) z = sample x (Z.of_nat (length x) - 1 - z).
Proof.
  destruct (Z.lt_ge_cases z 0) as [L | L].
  - rewrite sample_neg by exact L. rewrite sample_overflow by lia. reflexivity.
  - destruct (Z.lt_ge_cases z (Z.of_nat (length x))) as [L' | L'].
    + replace z with (Z.of_nat (Z.to_nat z)) at 1 by lia.
      rewrite sample_nonneg, nth0_rev by lia.
      replace (Z.of_nat (length x) - 1 - z)%Z
        with (Z.of_nat (length x - 1 - Z.to_nat z)) by lia.
      rewrite sample_nonneg. reflexivity.
    + rewrite sample_overflow by (rewrite length_rev; exact L').
      rewrite sample_neg by lia. reflexivity.
Qed.

Lemma correlate_exchanged_nth (x y : list Qc) (k : nat) :
  (0 < length x)%nat -> (0 < length y)%nat -> (k < length x + length y - 1)%nat ->
  nth0 (convolve_full y (rev x)) k
  = nth0 (convolve_full x (rev y)) (length x + length y - 2 - k).
Proof.
  intros Hx Hy Hk.
  rewrite (convolve_rev_cross_correlation x y) by lia.
  rewrite nth0_convolve_full by (rewrite length_rev; lia).
  set (g := fun m => nth0 y m * sample (rev x) (Z.of_nat k - Z.of_nat m)).
  transitivity (Qcsum (map g (seq 0 (S k)))).
  { apply Qcsum_map_ext. intros m Hm. apply in_seq in Hm. unfold g.
    replace (Z.of_nat k - Z.of_nat m)%Z with (Z.of_nat (k - m)) by lia.
    rewrite sample_nonneg. reflexivity. }
  transitivity (Qcsum (map g (seq 0 (length y)))).
  { apply Qcsum_seq_same_support; intros m Hm; unfold g.
    - rewrite sample_neg by lia. ring.
    - rewrite nth0_overflow by exact Hm. ring. }
  unfold cross_correlation. apply Qcsum_map_ext. intros m Hm. unfold g.
  rewrite sample_rev, Qcmult_comm. f_equal. f_equal. lia.
Qed.

(** The correlation of the exchanged signals is the correlation read
    backwards. *)
Lemma correlate_exchanged (x y : list Qc) :
  x <> [] -> y <> [] ->
  convolve_full y (rev x) = rev (convolve_full x (rev y)).
Proof.
  intros Hx Hy.
  assert (Lx : (0 < length x)%nat) by (destruct x; [congruence | cbn; lia]).
  assert (Ly : (0 < length y)%nat) by (destruct y; [congruence | cbn; lia]).
  apply (nth_ext _ _ 0 0).
  - rewrite length_rev, !length_convolve_full, !length_rev. lia.
  - intros k Hk. rewrite length_convolve_full, length_rev in Hk.
    rewrite rev_nth by (rewrite length_convolve_full, length_rev; lia).
    rewrite length_convolve_full, length_rev.
    replace (length x + length y - 1 - S k)%nat with (length x + length y - 2 - k)%nat
      by lia.
    apply correlate_exchanged_nth; lia.
Qed.

(** A maximum attained at one index only is found again, mirrored, in the
    reversed array. *)
Lemma ind_Rxy_max_rev (R : list Qc) (ind : nat) :
  ind_Rxy_max R = Ok ind ->
  (forall j, (j < length R)%nat ->
             Qcabs (nth0 R j) = Qcabs (nth0 R ind) -> j = ind) ->
  ind_Rxy_max (rev R) = Ok (length R - 1 - ind)%nat.
Proof.
  intros Hind Huniq.
  destruct (ind_Rxy_max_spec _ _ Hind) as (Hlt & Hmax & _).
  assert (HR : rev R <> []).
  { intro H. apply (f_equal (@length Qc)) in H. rewrite length_rev in H.
    cbn in H. lia. }
  destruct (ind_Rxy_max_total _ HR) as [i' Hi']. rewrite Hi'. f_equal.
  destruct (ind_Rxy_max_spec _ _ Hi') as (Hlt' & Hmax' & _).
  rewrite length_rev in Hlt', Hmax'.
  assert (E : (length R - 1 - i')%nat = ind).
  { apply Huniq; [lia |].
    apply Qcle_antisym; [apply Hmax; lia |].
    specialize (Hmax' (length R - 1 - ind)%nat ltac:(lia)).
    rewrite !nth0_rev in Hmax' by lia.
    replace (length R - 1 - (length R - 1 - ind))%nat with ind in Hmax' by lia.
    exact Hmax'. }
  lia.
Qed.

Lemma div_by_zero_cases (q : Qc) :
  q <> 0 -> div_by_zero q = PInf \/ div_by_zero q = NInf.
Proof.
  intro H. unfold div_by_zero.
  destruct (Qcltb 0 q) eqn:E1; [left; reflexivity |].
  destruct (Qcltb q 0) eqn:E2; [right; reflexivity |].
  apply Qcltb_ge in E1, E2. exfalso. apply H. apply Qcle_antisym; assumption.
Qed.

Lemma Qc_of_Z_opp (k : Z) : Qc_of_Z (- k) = - Qc_of_Z k.
Proof.
  unfold Qc_of_Z. qc_to_q. rewrite inject_Z_opp. reflexivity.
Qed.

Lemma exchanged_delay_velocity (x1 x2 fs : Qc) (lag : Z) :
  lag <> 0%Z ->
  np_true_divide (Fin (x1 - x2)) (np_true_divide (Fin (Qc_of_Z (- lag))) (Fin fs))
  = np_true_divide (Fin (x2 - x1)) (np_true_divide (Fin (Qc_of_Z lag)) (Fin fs)).
Proof.
  intro Hlag.
  assert (Hq : Qc_of_Z lag <> 0) by (intro H; apply Hlag, Qc_of_Z_eq_0, H).
  assert (Hq' : Qc_of_Z (- lag) <> 0).
  { intro H. apply Hlag. apply Qc_of_Z_eq_0 in H. lia. }
  cbn [np_true_divide]. destruct (Qceqb fs 0) eqn:Efs.
  - destruct (div_by_zero_cases _ Hq) as [-> | ->];
      destruct (div_by_zero_cases _ Hq') as [-> | ->]; reflexivity.
  - apply Qceqb_neq in Efs. cbn [np_true_divide].
    assert (N1 : Qc_of_Z (- lag) / fs <> 0).
    { unfold Qcdiv. intro H. destruct (Qcmult_integral _ _ H) as [H0 | H0];
        [exact (Hq' H0) |].
      apply Efs. rewrite <- (Qcmult_1_l fs), <- (Qcmult_inv_l fs) by exact Efs.
      rewrite Qcmult_comm, Qcmult_assoc. rewrite (Qcmult_comm fs), H0. ring. }
    assert (N2 : Qc_of_Z lag / fs <> 0).
    { intro H. apply N1. rewrite Qc_of_Z_opp. unfold Qcdiv in *.
      transitivity (- (Qc_of_Z lag * / fs)); [ring | rewrite H; ring]. }
    apply Qceqb_neq in N1, N2. rewrite N1, N2. f_equal.
    rewrite Qc_of_Z_opp in *. field. repeat split; assumption.
Qed.

Lemma fluctuations_nonempty (d : list Qc) : d <> [] -> fluctuations d <> [].
Proof.
  intros H E. apply H. apply length_zero_iff_nil.
  rewrite <- (length_fluctuations d), E. reflexivity.
Qed.

(** Exchanging the sensors leaves the velocity of [compute_timedomain]
    as it is, when the peak of the correlation is at one lag only and
    that lag is not zero. *)
Lemma timedomain_exchanged (self : RMP_ConvectionVelocityCalculator)
  (U : npfloat) (r : timedomain_plot) (ind : nat) :
  compute_timedomain self = Ok (U, r) ->
  ind_Rxy_max (Rxy r) = Ok ind ->
  (forall j, (j < length (Rxy r))%nat ->
             Qcabs (nth0 (Rxy r) j) = Qcabs (nth0 (Rxy r) ind) -> j = ind) ->
  nth_error (lags r) ind <> Some 0%Z ->
  compute_timedomain (exchanged self)
  = Ok (U, {| Rxy := rev (Rxy r);
              lags := signal_correlation_lags (length (RMP_data_2 self))
                                              (length (RMP_data_1 self)) |}).
Proof.
  intros E Hind Huniq Hlag.
  assert (H1 : RMP_data_1 self <> []).
  { intro H. rewrite compute_timedomain_empty in E by (left; exact H). discriminate. }
  assert (H2 : RMP_data_2 self <> []).
  { intro H. rewrite compute_timedomain_empty in E by (right; exact H). discriminate. }
  destruct (compute_timedomain_steps self H1 H2) as (i0 & lag & Hi0 & Hn & Hl & E0).
  cbn zeta in Hi0, Hn, E0. rewrite E0 in E. injection E as <- <-.
  cbn [Rxy lags] in *.
  assert (i0 = ind) by congruence. subst i0.
  assert (Hlag0 : lag <> 0%Z) by (intro H0; apply Hlag; rewrite Hn, H0; reflexivity).
  destruct (compute_timedomain_steps (exchanged self) H2 H1)
    as (i' & lag' & Hi' & Hn' & Hl' & E').
  cbn [exchanged RMP_data_1 RMP_data_2 RMP_x1 RMP_x2 fs] in Hi', Hn', Hl', E'.
  cbn zeta in Hi', Hn', E'.
  rewrite (correlate_exchanged (fluctuations (RMP_data_1 self))
                               (fluctuations (RMP_data_2 self)))
    in Hi', E' by (apply fluctuations_nonempty; assumption).
  rewrite (ind_Rxy_max_rev _ _ Hind Huniq) in Hi'. injection Hi' as <-.
  destruct (ind_Rxy_max_spec _ _ Hind) as (Hlt & _).
  rewrite length_convolve_full, length_rev, !length_fluctuations in *.
  assert (Eneg : lag' = (- lag)%Z) by lia.
  rewrite E', Eneg. f_equal. f_equal.
  apply exchanged_delay_velocity. exact Hlag0.
Qed.

(** In the frequency domain. *)

Lemma Cconj_Cplus (a b : complex) : Cconj (Cplus a b) = Cplus (Cconj a) (Cconj b).
Proof. unfold Cconj, Cplus. cbn [re im]. f_equal; ring. Qed.

Lemma Cconj_Cscale (k : Qc) (a : complex) : Cconj (Cscale k a) = Cscale k (Cconj a).
Proof. unfold Cconj, Cscale. cbn [re im]. f_equal; ring. Qed.

Lemma Cnorm2_Cconj (a : complex) : Cnorm2 (Cconj a) = Cnorm2 a.
Proof. unfold Cnorm2, Cconj. cbn [re im]. ring. Qed.

Lemma bin_sum_exchanged (f : nat) (X : list (list complex)) : forall Y,
  bin_sum f Y X = Cconj (bin_sum f X Y).
Proof.
  unfold bin_sum. induction X as [| a X IH]; intros [| b Y]; cbn [combine map].
  - unfold Cconj, Csum, Czero. cbn [fold_right map re im]. f_equal; ring.
  - unfold Cconj, Csum, Czero. cbn [fold_right map re im]. f_equal; ring.
  - unfold Cconj, Csum, Czero. cbn [fold_right map re im]. f_equal; ring.
  - rewrite !Csum_cons, Cconj_Cplus, IH. f_equal. cbn [fst snd].
    unfold Cconj, Cmult. cbn [re im]. f_equal; ring.
Qed.

(** The cross-spectral density of the exchanged signals is the complex
    conjugate. *)
Lemma signal_csd_exchanged (x y : list Qc) (fs : Qc) (nperseg noverlap nfft : nat)
  (f : list Qc) (Z : list complex) :
  signal_csd x y fs nperseg noverlap nfft = Ok (f, Z) ->
  signal_csd y x fs nperseg noverlap nfft = Ok (f, map Cconj Z).
Proof.
  unfold signal_csd. rewrite (orb_comm (length y =? 0)%nat), (Nat.max_comm (length y)).
  destruct ((length x =? 0)%nat || (length y =? 0)%nat).
  { intro E. injection E as <- <-. reflexivity. }
  destruct (nperseg <? 1)%nat; [discriminate |].
  destruct (nfft <? _)%nat; [discriminate |].
  destruct (_ <=? noverlap)%nat; [discriminate |].
  destruct (Qceqb fs 0); [discriminate |].
  intro E. injection E as <- <-. f_equal. f_equal.
  unfold mean_over_segments. rewrite map_map. apply map_ext. intro k.
  rewrite !length_map, !welch_bin, Cconj_Cscale, bin_sum_exchanged.
  rewrite !length_combine, Nat.min_comm. reflexivity.
Qed.

Lemma combine_exchanged {A B C : Type} (h : A -> B -> C) (xs : list A) : forall ys,
  map (fun p => h (snd p) (fst p)) (combine ys xs)
  = map (fun p => h (fst p) (snd p)) (combine xs ys).
Proof.
  induction xs as [| x xs IH]; intros [| y ys]; cbn; try reflexivity.
  f_equal. apply IH.
Qed.

Lemma np_broadcast_comm (xs ys : list Qc) :
  np_broadcast Qcmult ys xs = np_broadcast Qcmult xs ys.
Proof.
  unfold np_broadcast. rewrite (Nat.eqb_sym (length ys)).
  destruct (Nat.eqb_spec (length xs) (length ys)) as [E | E].
  - f_equal. rewrite <- (combine_exchanged Qcmult xs ys).
    apply map_ext. intros [a b]. cbn. apply Qcmult_comm.
  - destruct xs as [| x [| x' xs]], ys as [| y [| y' ys]]; cbn in *;
      try reflexivity; try lia.
    + f_equal. f_equal; [apply Qcmult_comm |]. f_equal; [apply Qcmult_comm |].
      apply map_ext. intro a. apply Qcmult_comm.
    + f_equal. f_equal; [apply Qcmult_comm |]. f_equal; [apply Qcmult_comm |].
      apply map_ext. intro a. apply Qcmult_comm.
Qed.

Lemma coherence_exchanged (Z : list complex) (Pxx Pyy : list Qc) :
  coherence (map Cconj Z) Pyy Pxx = coherence Z Pxx Pyy.
Proof.
  unfold coherence. rewrite np_broadcast_comm, map_map.
  rewrite (map_ext (fun z => Cnorm2 (Cconj z)) Cnorm2) by apply Cnorm2_Cconj.
  reflexivity.
Qed.

Lemma spectra_exchanged (self : RMP_ConvectionVelocityCalculator)
  (N_window N_overlap : nat) (f : list Qc) (Z : list complex) (g : list npfloat) :
  spectra self N_window N_overlap = Ok (f, Z, g) ->
  spectra (exchanged self) N_window N_overlap = Ok (f, map Cconj Z, g).
Proof.
  unfold spectra. cbn [exchanged RMP_data_1 RMP_data_2 fs].
  destruct (signal_csd (RMP_data_1 self) _ _ _ _ _) as [[f' Z'] | e] eqn:Ecsd;
    cbn [bind]; [| discriminate].
  rewrite (signal_csd_exchanged _ _ _ _ _ _ _ _ Ecsd). cbn [bind].
  destruct (signal_welch (RMP_data_1 self) _ _ _ _) as [[f1 Pxx] | e];
    cbn [bind]; [| discriminate].
  destruct (signal_welch (RMP_data_2 self) _ _ _ _) as [[f2 Pyy] | e];
    cbn [bind]; [| discriminate].
  rewrite coherence_exchanged.
  destruct (coherence Z' Pxx Pyy) as [g' | e]; cbn [bind]; [| discriminate].
  intro E. injection E as <- <- <-. reflexivity.
Qed.

(** [np.mod]: the remainder of the division by a positive number. *)
Lemma Qfloor_unique (x : Q) (k : Z) :
  (inject_Z k <= x)%Q -> (x < inject_Z (k + 1))%Q -> Qfloor x = k.
Proof.
  intros H1 H2.
  pose proof (Qfloor_le x) as F1. pose proof (Qlt_floor x) as F2.
  assert (A : (inject_Z (Qfloor x) < inject_Z (k + 1))%Q) by (eapply Qle_lt_trans; eauto).
  assert (B : (inject_Z k < inject_Z (Qfloor x + 1))%Q) by (eapply Qle_lt_trans; eauto).
  rewrite <- Zlt_Qlt in A, B. lia.
Qed.

Lemma np_mod_unique (a m r : Qc) (k : Z) :
  0 < m -> a = m * Qc_of_Z k + r -> 0 <= r -> r < m -> np_mod a m = r.
Proof.
  intros Hm Ea Hr0 Hrm. unfold np_mod.
  assert (Hm0 : m <> 0) by (apply not_eq_sym, Qclt_not_eq, Hm).
  assert (Ek : Qcfloor (a / m) = k).
  { unfold Qcfloor. apply Qfloor_unique.
    - assert (G : Qc_of_Z k <= a / m).
      { replace (a / m) with (Qc_of_Z k + r / m) by (rewrite Ea; field; exact Hm0).
        assert (0 <= r / m).
        { unfold Qcdiv. qc_to_q. apply Qle_shift_div_l; [exact Hm | lra]. }
        set (q := r / m) in *. clearbody q. qc_to_q. lra. }
      unfold Qc_of_Z in G. qc_to_q. exact G.
    - assert (G : a / m < Qc_of_Z (k + 1)).
      { replace (a / m) with (Qc_of_Z k + r / m) by (rewrite Ea; field; exact Hm0).
        assert (r / m < 1).
        { unfold Qcdiv. qc_to_q. apply Qlt_shift_div_r; [exact Hm | lra]. }
        set (q := r / m) in *. clearbody q.
        unfold Qc_of_Z in *. qc_to_q. rewrite inject_Z_plus.
        change (inject_Z 1) with 1%Q. lra. }
      unfold Qc_of_Z in G. qc_to_q. exact G. }
  rewrite Ek, Ea. ring.
Qed.

Lemma np_mod_spec (a m : Qc) :
  0 < m ->
  0 <= np_mod a m /\ np_mod a m < m /\
  a = m * Qc_of_Z (Qcfloor (a / m)) + np_mod a m.
Proof.
  intro Hm. unfold np_mod.
  assert (Hm0 : m <> 0) by (apply not_eq_sym, Qclt_not_eq, Hm).
  set (k := Qcfloor (a / m)).
  assert (F1 : Qc_of_Z k <= a / m).
  { unfold k, Qcfloor, Qc_of_Z. pose proof (Qfloor_le (this (a / m)%Qc)) as F.
    unfold Qcle. rewrite this_Q2Qc. exact F. }
  assert (F2 : a / m < Qc_of_Z k + 1).
  { unfold k, Qcfloor, Qc_of_Z. pose proof (Qlt_floor (this (a / m)%Qc)) as F.
    rewrite inject_Z_plus in F. unfold Qclt. rewrite this_plus, !this_Q2Qc. exact F. }
  assert (Ea : a = m * (a / m)) by (field; exact Hm0).
  set (q := a / m) in *. clearbody q. set (kq := Qc_of_Z k) in *. clearbody kq.
  split; [| split].
  - rewrite Ea at 1. qc_to_q. nra.
  - rewrite Ea at 1. qc_to_q. nra.
  - ring.
Qed.

Lemma Qc_of_Z_plus (a b : Z) : Qc_of_Z (a + b) = Qc_of_Z a + Qc_of_Z b.
Proof. unfold Qc_of_Z. qc_to_q. rewrite inject_Z_plus. reflexivity. Qed.

Lemma odd_multiple_not_zero (k : Z) (p : Qc) :
  0 < p -> qc 2 1 * p * Qc_of_Z k - p <> 0.
Proof.
  intros Hp H.
  assert (E : qc 2 1 * Qc_of_Z k = 1).
  { assert (Hp0 : p <> 0) by (apply not_eq_sym, Qclt_not_eq, Hp).
    transitivity ((qc 2 1 * p * Qc_of_Z k - p) / p + 1); [field; exact Hp0 |].
    rewrite H. field. exact Hp0. }
  apply (f_equal this) in E. unfold qc, Qc_of_Z, Qcmult, Q2Qc in E. cbn [this] in E.
  assert (E' : (Qred (2 # 1) * Qred (inject_Z k) == 1)%Q).
  { rewrite <- (Qred_correct (Qred (2 # 1) * Qred (inject_Z k))), E. reflexivity. }
  rewrite !Qred_correct in E'. unfold Qeq in E'. cbn in E'.
  destruct k; cbn in E'; lia.
Qed.

(** The phase correction of [np.unwrap] is an odd function of the phase
    step. *)
Lemma unwrap_ddmod_odd (dd : Qc) :
  0 < np_pi -> unwrap_ddmod (- dd) = - unwrap_ddmod dd.
Proof.
  intro Hpi. unfold unwrap_ddmod.
  set (m := qc 2 1 * np_pi).
  assert (Em : m = np_pi + np_pi) by (unfold m; rewrite two_is_1_plus_1; ring).
  assert (Hm : 0 < m) by (rewrite Em; qc_to_q; lra).
  destruct (np_mod_spec (dd + np_pi) m Hm) as (R0 & Rm & Ea).
  set (r := np_mod (dd + np_pi) m) in *.
  set (k := Qcfloor ((dd + np_pi) / m)) in *.
  destruct (Qc_eq_dec r 0) as [Er | Er].
  - rewrite Er in *.
    assert (E' : np_mod (- dd + np_pi) m = 0).
    { apply (np_mod_unique _ _ _ (1 - k)); [exact Hm | | apply Qcle_refl | exact Hm].
      unfold Z.sub. rewrite Qc_of_Z_plus, Qc_of_Z_opp. change (Qc_of_Z 1) with 1.
      transitivity (m - (dd + np_pi) + 0 + (np_pi + np_pi - m)); [rewrite Em; ring |].
      rewrite Ea at 1. rewrite Em. ring. }
    rewrite E'.
    assert (Eq : Qceqb (0 - np_pi) (- np_pi) = true) by (apply Qceqb_eq; ring).
    rewrite Eq. cbn [andb].
    assert (Hdd : dd <> 0).
    { intro H0. apply (odd_multiple_not_zero k np_pi Hpi). fold m.
      transitivity (m * Qc_of_Z k + 0 - np_pi); [ring |].
      rewrite <- Ea, H0. ring. }
    destruct (Qcltb 0 dd) eqn:Epos.
    + apply Qcltb_lt in Epos.
      assert (En : Qcltb 0 (- dd) = false) by (apply Qcltb_ge; qc_to_q; lra).
      rewrite En. ring.
    + apply Qcltb_ge in Epos.
      assert (En : Qcltb 0 (- dd) = true).
      { apply Qcltb_lt. destruct (Qcle_lt_or_eq _ _ Epos) as [L | E0];
          [qc_to_q; lra | congruence]. }
      rewrite En. ring.
  - assert (Hr : 0 < r).
    { destruct (Qcle_lt_or_eq _ _ R0) as [L | E0]; [exact L | congruence]. }
    assert (E' : np_mod (- dd + np_pi) m = m - r).
    { apply (np_mod_unique _ _ _ (- k)); [exact Hm | | qc_to_q; lra | qc_to_q; lra].
      rewrite Qc_of_Z_opp.
      transitivity (- (dd + np_pi) + (np_pi + np_pi)); [ring |].
      rewrite Ea at 1. rewrite Em. ring. }
    rewrite E'.
    assert (Eq1 : Qceqb (r - np_pi) (- np_pi) = false).
    { apply Qceqb_neq. intro H. apply Er.
      transitivity (r - np_pi + np_pi); [ring | rewrite H; ring]. }
    assert (Eq2 : Qceqb (m - r - np_pi) (- np_pi) = false).
    { apply Qceqb_neq. intro H.
      assert (m - r = 0) by (transitivity (m - r - np_pi + np_pi); [ring | rewrite H; ring]).
      qc_to_q. lra. }
    rewrite Eq1, Eq2. cbn [andb]. rewrite Em. ring.
Qed.

Lemma unwrap_ph_correct_odd (dd : Qc) :
  0 < np_pi -> unwrap_ph_correct (- dd) = - unwrap_ph_correct dd.
Proof.
  intro Hpi. unfold unwrap_ph_correct. rewrite Qcabs_opp.
  destruct (Qcltb (Qcabs dd) np_pi); [ring |].
  rewrite unwrap_ddmod_odd by exact Hpi. ring.
Qed.

Lemma np_diff_opp (p : list Qc) : np_diff (map Qcopp p) = map Qcopp (np_diff p).
Proof.
  induction p as [| a [| b p] IH]; try reflexivity.
  cbn [map np_diff] in *. rewrite IH. f_equal. ring.
Qed.

Lemma cumsum_from_opp (l : list Qc) : forall acc,
  cumsum_from (- acc) (map Qcopp l) = map Qcopp (cumsum_from acc l).
Proof.
  induction l as [| a l IH]; intro acc; [reflexivity |].
  cbn [map cumsum_from].
  replace (- acc + - a) with (- (acc + a)) by ring.
  rewrite IH. reflexivity.
Qed.

Lemma np_unwrap_opp (p : list Qc) :
  0 < np_pi -> np_unwrap (map Qcopp p) = map Qcopp (np_unwrap p).
Proof.
  intro Hpi. unfold np_unwrap. destruct p as [| p0 rest]; [reflexivity |].
  cbn [map]. f_equal.
  change (- p0 :: map Qcopp rest) with (map Qcopp (p0 :: rest)).
  rewrite np_diff_opp, map_map.
  rewrite (map_ext (fun x => unwrap_ph_correct (- x)) (fun x => - unwrap_ph_correct x))
    by (intro x; apply unwrap_ph_correct_odd; exact Hpi).
  rewrite <- (map_map unwrap_ph_correct Qcopp).
  unfold np_cumsum. replace 0 with (- 0) at 1 by ring.
  rewrite cumsum_from_opp.
  generalize (cumsum_from 0 (map unwrap_ph_correct (np_diff (p0 :: rest)))) as cs.
  clear. induction rest as [| a rest IH]; intros [| c cs]; try reflexivity.
  cbn [map combine fst snd]. rewrite IH. f_equal. ring.
Qed.

Lemma Qcsum_opp (y : list Qc) : Qcsum (map Qcopp y) = - Qcsum y.
Proof.
  induction y as [| b y IH]; cbn [map]; [cbn; ring |].
  rewrite !Qcsum_cons, IH. ring.
Qed.

Lemma Sxy_opp (x : list Qc) : forall y, Sxy x (map Qcopp y) = - Sxy x y.
Proof.
  unfold Sxy. induction x as [| a x IH]; intros [| b y]; cbn [map combine];
    try (cbn; ring).
  rewrite !Qcsum_cons, IH. cbn [fst snd]. ring.
Qed.

(** The line fitted to the opposite ordinates is the opposite line. *)
Lemma np_polyfit1_opp (x y : list Qc) (a b : Qc) :
  np_polyfit1 x y = Ok (a, b) ->
  np_polyfit1 x (map Qcopp y) = Ok (- a, - b).
Proof.
  unfold np_polyfit1. destruct x as [| x0 x']; [discriminate |].
  remember (x0 :: x') as x eqn:Ex.
  assert (Hpos : (0 < length x)%nat) by (rewrite Ex; cbn; lia).
  clear Ex x'.
  rewrite length_map, Sxy_opp, Qcsum_opp.
  destruct (negb (length x =? length y)%nat) eqn:El; [discriminate |].
  apply negb_false_iff, Nat.eqb_eq in El.
  assert (Hn : Qc_of_nat (length x) <> 0) by (apply Qc_of_nat_neq_0; exact Hpos).
  assert (Emean : np_mean (map Qcopp y) = - np_mean y).
  { unfold np_mean. rewrite length_map, Qcsum_opp, <- El. field. exact Hn. }
  destruct (Qceqb _ 0) eqn:ED.
  - destruct (Qceqb x0 0) eqn:E0; [discriminate |]. apply Qceqb_neq in E0.
    intro E. injection E as <- <-. rewrite Emean. f_equal. f_equal.
    + rewrite two_is_1_plus_1. field. qc_nonzero.
    + rewrite two_is_1_plus_1. field. qc_nonzero.
  - apply Qceqb_neq in ED. intro E. injection E as <- <-. f_equal.
    f_equal; field; exact ED.
Qed.

Lemma slice_map {A B : Type} (h : A -> B) (a b : nat) (xs : list A) :
  slice a b (map h xs) = map h (slice a b xs).
Proof. unfold slice. rewrite firstn_map, skipn_map. reflexivity. Qed.

(** Exchanging the sensors leaves the velocity of [compute_freqdomain] as
    it is, when the fitted slope is not zero and no cross-spectral value
    of the fit range is a negative real number. *)
Lemma freqdomain_exchanged (self : RMP_ConvectionVelocityCalculator)
  (N_window N_overlap : nat) (U : npfloat) (r : freqdomain_plot) :
  0 < np_pi ->
  (forall y x, y <> 0 \/ 0 <= x -> np_arctan2 (- y) x = - np_arctan2 y x) ->
  compute_freqdomain self N_window N_overlap = Ok (U, r) ->
  fst (P r) <> 0 ->
  (forall z, In z (slice 1 (ind_fmax_fit r) (Pxy r)) -> im z <> 0 \/ 0 <= re z) ->
  compute_freqdomain (exchanged self) N_window N_overlap
  = Ok (U, {| gamma2 := gamma2 r; ind_fmax_fit := ind_fmax_fit r;
              f_Pxy := f_Pxy r; P := (- fst (P r), - snd (P r));
              Pxy := map Cconj (Pxy r) |}).
Proof.
  intros Hpi Hodd E Hslope Haxis.
  destruct (compute_freqdomain_inv _ _ _ _ _ E) as (Hs & Hc & Hfit & HU).
  rewrite compute_freqdomain_spectra, (spectra_exchanged _ _ _ _ _ _ Hs).
  cbn [bind fst snd]. rewrite Hc. cbn [bind].
  rewrite slice_map, map_map.
  rewrite (map_ext_in (fun z => np_angle (Cconj z)) (fun z => - np_angle z)).
  2:{ intros z Hz. unfold np_angle, Cconj. cbn [re im]. apply Hodd, Haxis, Hz. }
  rewrite <- (map_map np_angle Qcopp), (np_unwrap_opp _ Hpi).
  rewrite (surjective_pairing (P r)) in Hfit.
  rewrite (np_polyfit1_opp _ _ _ _ Hfit). cbn [bind fst snd].
  f_equal. f_equal. rewrite HU. f_equal. f_equal.
  cbn [exchanged RMP_x1 RMP_x2 np_true_divide].
  assert (Hs1 : Qceqb (fst (P r)) 0 = false) by (apply Qceqb_neq; exact Hslope).
  assert (Hs2 : Qceqb (- fst (P r)) 0 = false).
  { apply Qceqb_neq. intro H. apply Hslope.
    transitivity (- - fst (P r)); [ring | rewrite H; ring]. }
  rewrite Hs1, Hs2. f_equal. field. split; [exact Hslope |].
  apply Qceqb_neq. exact Hs2.
Qed.

(** C7, as the program has it: exchanging signal 1 with signal 2 and
    position x1 with position x2 does not negate the velocity, it leaves
    it unchanged: in [compute_timedomain] whenever the maximum absolute
    correlation is attained at a single lag and that lag is not zero, and
    in [compute_freqdomain] whenever the fitted slope is not zero and no
    cross-spectral value of the fit range is a negative real number
    ([np.pi] being positive and [np.arctan2] odd in its first argument
    away from the negative real axis). *)
Theorem exchange_keeps_velocity :
  (forall self U r ind,
      compute_timedomain self = Ok (U, r) ->
      ind_Rxy_max (Rxy r) = Ok ind ->
      (forall j, (j < length (Rxy r))%nat ->
                 Qcabs (nth0 (Rxy r) j) = Qcabs (nth0 (Rxy r) ind) -> j = ind) ->
      nth_error (lags r) ind <> Some 0%Z ->
      compute_timedomain (exchanged self)
      = Ok (U, {| Rxy := rev (Rxy r);
                  lags := signal_correlation_lags (length (RMP_data_2 self))
                                                  (length (RMP_data_1 self)) |})) /\
  (0 < np_pi ->
   (forall y x, y <> 0 \/ 0 <= x -> np_arctan2 (- y) x = - np_arctan2 y x) ->
   forall self N_window N_overlap U r,
     compute_freqdomain self N_window N_overlap = Ok (U, r) ->
     fst (P r) <> 0 ->
     (forall z, In z (slice 1 (ind_fmax_fit r) (Pxy r)) -> im z <> 0 \/ 0 <= re z) ->
     compute_freqdomain (exchanged self) N_window N_overlap
     = Ok (U, {| gamma2 := gamma2 r; ind_fmax_fit := ind_fmax_fit r;
                 f_Pxy := f_Pxy r; P := (- fst (P r), - snd (P r));
                 Pxy := map Cconj (Pxy r) |})).
Proof.
  split.
  - exact timedomain_exchanged.
  - intros Hpi Hodd self N_window N_overlap U r.
    apply freqdomain_exchanged; assumption.
Qed.

End SpectralProperties.

(* ================================================================== *)
(** ** The frequency-domain properties on recordings

    The transcendental functions are those of [quarter_turns]. *)

(** A window of eight samples gives five bins, and a run can reach a
    cutoff of 4, with three bins to fit.  (At the eighths of a turn the
    functions of [quarter_turns] are step functions, not the cosine and the
    sine: the run shows which statements are reached, not the values of
    NumPy.) *)
Lemma cutoff_of_four_is_reached :
  exists U r, compute_freqdomain triangle_probes 8 0 = Ok (U, r) /\
              ind_fmax_fit r = 4%nat /\
              length (slice 1 (ind_fmax_fit r) (f_Pxy r)) = 3%nat.
Proof.
  eexists. eexists. split; [vm_compute; reflexivity |].
  split; reflexivity.
Qed.





(** C6, on an example: for [quadrature_probes] the cutoff is 2, the fit
    range is the single bin 1, a line is fitted to that one point and the
    velocity -8 is returned. *)
Lemma freqdomain_fits_one_point :
  compute_freqdomain quadrature_probes 4 0 = Ok (Fin (qc (-8) 1), quadrature_plot) /\
  ind_fmax_fit quadrature_plot = 2%nat /\
  slice 1 (ind_fmax_fit quadrature_plot) (f_Pxy quadrature_plot) = qc 1 1 :: nil.
Proof.
  split; [| split]; qc_compute.
Qed.

Lemma freqdomain_fit_failures_witness :
  ((forall j v, nth_error (gamma2 quadrature_plot) j = Some v ->
                np_greater_equal v (Fin (qc 1 10)) = false) ->
   compute_freqdomain quadrature_probes 4 0 = Raise IndexError) /\
  (forall c, getitem_last (ind_tmp (gamma2 quadrature_plot)) = Ok c -> (c <= 1)%nat ->
             length (slice 1 c (f_Pxy quadrature_plot)) = 0%nat /\
             compute_freqdomain quadrature_probes 4 0 = Raise TypeError) /\
  (forall c, getitem_last (ind_tmp (gamma2 quadrature_plot)) = Ok c -> (2 <= c)%nat ->
             length (slice 1 c (f_Pxy quadrature_plot)) = (c - 1)%nat /\
             exists U r, compute_freqdomain quadrature_probes 4 0 = Ok (U, r) /\
                         ind_fmax_fit r = c) /\
  (getitem_last (ind_tmp (gamma2 quadrature_plot)) = Ok 2%nat ->
   length (slice 1 2 (f_Pxy quadrature_plot)) = 1%nat /\
   exists U r, compute_freqdomain quadrature_probes 4 0 = Ok (U, r) /\
               ind_fmax_fit r = 2%nat).
Proof.
  apply (freqdomain_fit_failures quadrature_probes 4 0
           (f_Pxy quadrature_plot) (Pxy quadrature_plot) (gamma2 quadrature_plot)).
  qc_compute.
Defined.



(** C7, on examples: the pulse of [delayed_probes] gives the velocity
    -1/20 and, with the sensors exchanged, -1/20 again, not +1/20; the
    recordings of [quadrature_probes] give -8 either way. *)
Lemma exchange_does_not_negate :
  compute_timedomain delayed_probes
  = Ok (Fin (qc (-1) 20),
        {| Rxy := [qc (-3) 1; qc 10 1; qc (-5) 1; qc (-4) 1; qc (-1) 1; qc 2 1; qc 1 1];
           lags := [-3; -2; -1; 0; 1; 2; 3]%Z |}) /\
  compute_timedomain (exchanged delayed_probes)
  = Ok (Fin (qc (-1) 20),
        {| Rxy := [qc 1 1; qc 2 1; qc (-1) 1; qc (-4) 1; qc (-5) 1; qc 10 1; qc (-3) 1];
           lags := [-3; -2; -1; 0; 1; 2; 3]%Z |}) /\
  np_negative (Fin (qc (-1) 20)) = Fin (qc 1 20) /\
  compute_freqdomain quadrature_probes 4 0 = Ok (Fin (qc (-8) 1), quadrature_plot) /\
  compute_freqdomain (exchanged quadrature_probes) 4 0
  = Ok (Fin (qc (-8) 1),
        {| gamma2 := gamma2 quadrature_plot;
           ind_fmax_fit := 2;
           f_Pxy := f_Pxy quadrature_plot;
           P := (pi_float64 / qc 4 1, pi_float64 / qc 4 1);
           Pxy := [mkC (qc 1 6) (qc 0 1); mkC (qc 0 1) (qc 1 3);
                   mkC (qc (-1) 6) (qc 0 1)] |}).
Proof.
  repeat split; qc_compute.
Qed.

Lemma arctan2_diamond_odd (y x : Qc) :
  y <> 0 \/ 0 <= x -> arctan2_diamond (- y) x = - arctan2_diamond y x.
Proof.
  intro H. unfold arctan2_diamond. rewrite Qcabs_opp.
  assert (Ey : Qceqb (- y) 0 = Qceqb y 0).
  { destruct (Qceqb y 0) eqn:E.
    - apply Qceqb_eq in E. subst y. reflexivity.
    - apply Qceqb_neq in E. apply Qceqb_neq. intro H0. apply E.
      transitivity (- - y); [ring | rewrite H0; ring]. }
  rewrite Ey.
  destruct (Qceqb x 0 && Qceqb y 0) eqn:E0; [ring |].
  destruct (Qcleb 0 x) eqn:Ex; [unfold Qcdiv; ring |].
  apply Qcleb_gt in Ex.
  destruct H as [Hy | Hx]; [| exfalso; exact (Qclt_not_le _ _ Ex Hx)].
  destruct (Qcleb 0 y) eqn:Ey0.
  - apply Qcleb_le in Ey0.
    assert (En : Qcleb 0 (- y) = false).
    { apply Qcleb_gt. destruct (Qcle_lt_or_eq _ _ Ey0) as [L | E]; [| congruence].
      qc_to_q. lra. }
    rewrite En. unfold Qcdiv. ring.
  - apply Qcleb_gt in Ey0.
    assert (En : Qcleb 0 (- y) = true) by (apply Qcleb_le; qc_to_q; lra).
    rewrite En. unfold Qcdiv. ring.
Qed.

Lemma exchange_keeps_velocity_witness :
  compute_timedomain (exchanged delayed_probes)
  = Ok (Fin (qc (-1) 20),
        {| Rxy := rev [qc (-3) 1; qc 10 1; qc (-5) 1; qc (-4) 1; qc (-1) 1; qc 2 1; qc 1 1];
           lags := signal_correlation_lags 4 4 |}) /\
  compute_freqdomain (exchanged quadrature_probes) 4 0
  = Ok (Fin (qc (-8) 1),
        {| gamma2 := gamma2 quadrature_plot;
           ind_fmax_fit := ind_fmax_fit quadrature_plot;
           f_Pxy := f_Pxy quadrature_plot;
           P := (- fst (P quadrature_plot), - snd (P quadrature_plot));
           Pxy := map Cconj (Pxy quadrature_plot) |}).
Proof.
  split.
  - apply (proj1 exchange_keeps_velocity delayed_probes (Fin (qc (-1) 20))
             {| Rxy := [qc (-3) 1; qc 10 1; qc (-5) 1; qc (-4) 1; qc (-1) 1; qc 2 1; qc 1 1];
                lags := [-3; -2; -1; 0; 1; 2; 3]%Z |} 1%nat).
    + qc_compute.
    + qc_compute.
    + cbn [Rxy length]. intros j Hj Habs.
      do 7 (destruct j as [| j]; [try reflexivity; apply (f_equal this) in Habs;
                                  discriminate |]).
      lia.
    + discriminate.
  - apply (proj2 (exchange_keeps_velocity (T := quarter_turns))).
    + reflexivity.
    + exact arctan2_diamond_odd.
    + qc_compute.
    + intro H. apply (f_equal this) in H. discriminate.
    + intros z Hz. destruct Hz as [<- | []]. left.
      intro H. apply (f_equal this) in H. discriminate.
Defined.

(* ================================================================== *)
(** * Further properties of the code *)

(** ** [compute_timedomain]: offsets, gains, silent probes *)


Lemma Qcsum_map_mult (g : Qc) (d : list Qc) :
  Qcsum (map (Qcmult g) d) = g * Qcsum d.
Proof.
  induction d as [| a d IH].
  - cbn. ring.
  - cbn [map]. rewrite !Qcsum_cons, IH. ring.
Qed.

Lemma length_pos_nonempty {A : Type} (d : list A) : d <> [] -> (0 < length d)%nat.
Proof. destruct d; [congruence | cbn; lia]. Qed.








Lemma Qcabs_gt_0 (k : Qc) : k <> 0 -> 0 < Qcabs k.
Proof.
  intro Hk. apply Qcabs_case; intro H.
  - destruct (Qcle_lt_or_eq _ _ H) as [L | E]; [exact L | congruence].
  - destruct (Qcle_lt_or_eq _ _ H) as [L | E]; [qc_to_q; lra | congruence].
Qed.


Ltac qc_neq := apply Qceqb_neq; vm_compute; reflexivity.





(* ------------------------------------------------------------------ *)
(** *** When [compute_timedomain] raises *)

(** X1: [compute_timedomain] returns exactly when both recordings hold a
    sample, whatever their lengths, the positions and the sampling
    frequency; the correlation and the lag axis then have
    [len(RMP_data_1) + len(RMP_data_2) - 1] entries.  With an empty
    recording it raises [ValueError], and it raises nothing else. *)
Theorem timedomain_returns_iff_nonempty (self : RMP_ConvectionVelocityCalculator) :
  ((exists Ucv result_plot, compute_timedomain self = Ok (Ucv, result_plot)) <->
   RMP_data_1 self <> [] /\ RMP_data_2 self <> []) /\
  (forall Ucv result_plot,
      compute_timedomain self = Ok (Ucv, result_plot) ->
      length (Rxy result_plot)
      = (length (RMP_data_1 self) + length (RMP_data_2 self) - 1)%nat /\
      length (lags result_plot) = length (Rxy result_plot)) /\
  (forall e, compute_timedomain self = Raise e ->
             e = ValueError /\ (RMP_data_1 self = [] \/ RMP_data_2 self = [])).
Proof.
  assert (Hdec : (RMP_data_1 self = [] \/ RMP_data_2 self = []) \/
                 (RMP_data_1 self <> [] /\ RMP_data_2 self <> [])).
  { destruct (RMP_data_1 self); [left; left; reflexivity |].
    destruct (RMP_data_2 self); [left; right; reflexivity |].
    right. split; discriminate. }
  destruct Hdec as [Hempty | [H1 H2]].
  - pose proof (compute_timedomain_empty self Hempty) as E.
    split; [| split].
    + split.
      * intros (U & r & Hr). congruence.
      * intros [N1 N2]. destruct Hempty; contradiction.
    + intros U r Hr. congruence.
    + intros e He. split; [congruence | exact Hempty].
  - destruct (compute_timedomain_steps self H1 H2) as (ind & lag & _ & _ & _ & E).
    cbv zeta in E.
    pose proof (length_pos_nonempty _ H1) as P1.
    pose proof (length_pos_nonempty _ H2) as P2.
    split; [| split].
    + split; [intros _; split; assumption |].
      intros _. eexists. eexists. exact E.
    + intros U r Hr. rewrite E in Hr. injection Hr as _ <-. cbn [Rxy lags].
      rewrite length_convolve_full, length_rev, !length_fluctuations.
      rewrite length_correlation_lags by exact P2. split; reflexivity.
    + intros e He. congruence.
Qed.

Lemma timedomain_returns_iff_nonempty_witness :
  exists Ucv result_plot, compute_timedomain tie_probes = Ok (Ucv, result_plot).
Proof.
  apply (proj1 (timedomain_returns_iff_nonempty tie_probes)).
  split; discriminate.
Defined.

(* ------------------------------------------------------------------ *)
(** *** Offsets and gains of the probes *)




(* ------------------------------------------------------------------ *)
(** *** A probe that records a constant *)



(* ------------------------------------------------------------------ *)
(** *** The correlation values sum to zero *)















(* ================================================================== *)
(** ** [plot_timedomain] *)





(* ------------------------------------------------------------------ *)
(** *** The plot of an estimate *)





Lemma nth_error_nth0 (R : list Qc) (k : nat) (v : Qc) :
  nth_error R k = Some v -> (k < length R)%nat /\ nth0 R k = v.
Proof.
  intro H. split; [apply nth_error_Some; congruence |].
  unfold nth0. apply nth_error_nth. exact H.
Qed.



(* ================================================================== *)
(** ** [compute_timedomain] on a recording and its delayed copy *)

Lemma seq_add_map (d n : nat) : seq d n = map (fun i => (d + i)%nat) (seq 0 n).
Proof.
  induction d as [| d IH].
  - rewrite map_id. reflexivity.
  - rewrite <- seq_shift, IH, map_map. reflexivity.
Qed.

Lemma Qcsum_seq_split (g : nat -> Qc) (t m : nat) :
  Qcsum (map g (seq 0 (t + m)))
  = Qcsum (map g (seq 0 t)) + Qcsum (map (fun j => g (t + j)%nat) (seq 0 m)).
Proof.
  rewrite seq_app, map_app, Qcsum_app. cbn [plus].
  rewrite (seq_add_map t m), map_map. reflexivity.
Qed.

Lemma sample_app_zeros (q : list Qc) (d : nat) (z : Z) :
  sample (q ++ repeat 0 d) z = sample q z.
Proof.
  unfold sample. destruct (z <? 0)%Z; [reflexivity |]. unfold nth0.
  destruct (Nat.lt_ge_cases (Z.to_nat z) (length q)) as [L | L].
  - apply app_nth1. exact L.
  - rewrite app_nth2 by exact L. rewrite (nth_overflow q) by exact L.
    apply nth_repeat.
Qed.

Lemma nth0_zeros_app (q : list Qc) (d i : nat) :
  nth0 (repeat 0 d ++ q) (d + i) = nth0 q i.
Proof.
  unfold nth0. rewrite app_nth2 by (rewrite repeat_length; lia).
  rewrite repeat_length. f_equal. lia.
Qed.

Lemma nth0_zeros_app_low (q : list Qc) (d m : nat) :
  (m < d)%nat -> nth0 (repeat 0 d ++ q) m = 0.
Proof.
  intro H. unfold nth0. rewrite app_nth1 by (rewrite repeat_length; exact H).
  apply nth_repeat.
Qed.

(** The correlation of a recording with its copy delayed by [d] samples is
    the correlation of the recording with itself, [d] lags earlier. *)
Lemma cross_correlation_delayed (q : list Qc) (d : nat) (L : Z) :
  cross_correlation (q ++ repeat 0 d) (repeat 0 d ++ q) L
  = cross_correlation q q (L + Z.of_nat d).
Proof.
  unfold cross_correlation. rewrite length_app, repeat_length.
  rewrite Qcsum_seq_split.
  rewrite Qcsum_map_zero
    by (intros m Hm; apply in_seq in Hm; rewrite nth0_zeros_app_low by lia; ring).
  rewrite Qcplus_0_l. apply Qcsum_map_ext. intros i _.
  rewrite nth0_zeros_app, sample_app_zeros. f_equal. f_equal. lia.
Qed.

(** *** The correlation of a recording with itself *)

Lemma Qcsum_square_sum {A : Type} (s : Qc) (u w : A -> Qc) (l : list A) :
  Qcsum (map (fun i => (u i + s * w i) * (u i + s * w i)) l)
  = Qcsum (map (fun i => u i * u i) l)
    + (1 + 1) * s * Qcsum (map (fun i => w i * u i) l)
    + s * s * Qcsum (map (fun i => w i * w i) l).
Proof.
  induction l as [| a l IH]; [cbn; ring |].
  cbn [map]. rewrite !Qcsum_cons, IH. ring.
Qed.

Lemma autocorrelation_zero_lag (q : list Qc) :
  cross_correlation q q 0
  = Qcsum (map (fun i => nth0 q i * nth0 q i) (seq 0 (length q))).
Proof.
  unfold cross_correlation. apply Qcsum_map_ext. intros i _.
  rewrite Z.add_0_r, sample_nonneg. reflexivity.
Qed.

(** The energy of the shifted recording is at most that of the
    recording. *)
Lemma shifted_energy_le (q : list Qc) (s : Z) :
  Qcsum (map (fun i => sample q (Z.of_nat i + s) * sample q (Z.of_nat i + s))
             (seq 0 (length q)))
  <= Qcsum (map (fun i => nth0 q i * nth0 q i) (seq 0 (length q))).
Proof.
  set (n := length q). set (g := fun j => nth0 q j * nth0 q j).
  assert (Hg : forall l, 0 <= Qcsum (map g l))
    by (intro l; apply (Qcsum_squares_nonneg (nth0 q) l)).
  assert (Hover : forall j, (n <= j)%nat -> g j = 0).
  { intros j Hj. unfold g. rewrite nth0_overflow by exact Hj. ring. }
  destruct (Z.le_gt_cases 0 s) as [Hs | Hs].
  - set (t := Z.to_nat s).
    rewrite (Qcsum_map_ext _ (fun i => g (t + i)%nat)).
    2:{ intros i _. unfold g.
        replace (Z.of_nat i + s)%Z with (Z.of_nat (t + i)) by (unfold t; lia).
        rewrite sample_nonneg. reflexivity. }
    pose proof (Qcsum_seq_split g t n) as Hsplit.
    rewrite (Qcsum_seq_extend g n (t + n)) in Hsplit
      by (try lia; intros j Hj; apply Hover; lia).
    pose proof (Hg (seq 0 t)) as H0.
    fold g. rewrite Hsplit.
    set (a := Qcsum (map g (seq 0 t))) in *.
    set (b := Qcsum (map (fun j => g (t + j)%nat) (seq 0 n))) in *.
    clearbody a b. qc_to_q. lra.
  - set (t := Z.to_nat (- s)).
    destruct (Nat.le_gt_cases n t) as [Hnt | Hnt].
    + rewrite Qcsum_map_zero; [apply (Hg (seq 0 n)) |].
      intros i Hi. apply in_seq in Hi.
      rewrite sample_neg by (unfold t in Hnt; lia). ring.
    + replace n with (t + (n - t))%nat at 1 by lia.
      rewrite Qcsum_seq_split.
      rewrite Qcsum_map_zero
        by (intros i Hi; apply in_seq in Hi;
            rewrite sample_neg by (unfold t; lia); ring).
      rewrite Qcplus_0_l.
      rewrite (Qcsum_map_ext _ g).
      2:{ intros j _. unfold g.
          replace (Z.of_nat (t + j) + s)%Z with (Z.of_nat j) by (unfold t; lia).
          rewrite sample_nonneg. reflexivity. }
      fold g. replace n with ((n - t) + t)%nat at 2 by lia.
      rewrite Qcsum_seq_split.
      pose proof (Hg (map (fun j => (n - t + j)%nat) (seq 0 t))) as H0.
      rewrite map_map in H0.
      set (a := Qcsum (map g (seq 0 (n - t)))) in *.
      set (b := Qcsum (map (fun j => g (n - t + j)%nat) (seq 0 t))) in *.
      clearbody a b. qc_to_q. lra.
Qed.

(** A recording that is a multiple of a shifted copy of itself is zero. *)
Lemma shifted_multiple_zero (q : list Qc) (sigma : Qc) (s : Z) :
  s <> 0%Z ->
  (forall i, (i < length q)%nat -> nth0 q i = sigma * sample q (Z.of_nat i + s)) ->
  forall i, nth0 q i = 0.
Proof.
  intros Hs Heq.
  destruct (Z.lt_ge_cases 0 s) as [Hpos | Hneg].
  - assert (H : forall m i, (length q - i <= m)%nat -> nth0 q i = 0).
    { induction m as [| m IH]; intros i Hi.
      - apply nth0_overflow. lia.
      - destruct (Nat.lt_ge_cases i (length q)) as [L | L];
          [| apply nth0_overflow; exact L].
        rewrite (Heq i L).
        replace (Z.of_nat i + s)%Z with (Z.of_nat (i + Z.to_nat s)) by lia.
        rewrite sample_nonneg, IH by lia. ring. }
    intro i. apply (H (length q - i)%nat). lia.
  - intro i. induction i as [i IH] using lt_wf_ind.
    destruct (Nat.lt_ge_cases i (length q)) as [L | L];
      [| apply nth0_overflow; exact L].
    rewrite (Heq i L).
    destruct (Z.lt_ge_cases (Z.of_nat i + s) 0) as [Hz | Hz].
    + rewrite sample_neg by exact Hz. ring.
    + replace (Z.of_nat i + s)%Z with (Z.of_nat (Z.to_nat (Z.of_nat i + s))) by lia.
      rewrite sample_nonneg, IH by lia. ring.
Qed.

Lemma energy_positive (q : list Qc) :
  (exists v, In v q /\ v <> 0) ->
  0 < Qcsum (map (fun i => nth0 q i * nth0 q i) (seq 0 (length q))).
Proof.
  intros (v & Hv & Hne).
  destruct (Qcle_lt_or_eq _ _ (Qcsum_squares_nonneg (nth0 q) (seq 0 (length q))))
    as [L | E]; [exact L |].
  exfalso. apply Hne. symmetry in E.
  apply In_nth_error in Hv. destruct Hv as [i Hi].
  destruct (nth_error_nth0 _ _ _ Hi) as [Hlt <-].
  apply (Qcsum_squares_zero (nth0 q) _ E). apply in_seq. lia.
Qed.

(** The correlation of a recording with itself is largest at lag 0, and
    strictly so in absolute value, unless the recording is zero. *)
Lemma autocorrelation_strict (q : list Qc) (s : Z) :
  (exists v, In v q /\ v <> 0) -> s <> 0%Z ->
  Qcabs (cross_correlation q q s) < cross_correlation q q 0.
Proof.
  intros Hq Hs. rewrite autocorrelation_zero_lag.
  pose proof (energy_positive q Hq) as HE.
  set (u := nth0 q) in *.
  set (w := fun i => sample q (Z.of_nat i + s)).
  set (E := Qcsum (map (fun i => u i * u i) (seq 0 (length q)))) in *.
  set (W := Qcsum (map (fun i => w i * w i) (seq 0 (length q)))).
  assert (HW : W <= E) by apply (shifted_energy_le q s).
  assert (Ec : cross_correlation q q s
               = Qcsum (map (fun i => w i * u i) (seq 0 (length q)))) by reflexivity.
  set (c := cross_correlation q q s) in *.
  assert (Hcase : forall sigma : Qc,
             sigma * sigma = 1 -> E + (1 + 1) * sigma * c + W <= 0 -> False).
  { intros sigma Hsig Hle.
    pose proof (Qcsum_square_sum sigma u w (seq 0 (length q))) as Hsum.
    fold E W in Hsum. rewrite <- Ec, Hsig in Hsum.
    pose proof (Qcsum_squares_nonneg (fun i => u i + sigma * w i) (seq 0 (length q)))
      as Hnn. cbv beta in Hnn.
    assert (H0 : Qcsum (map (fun i => (u i + sigma * w i) * (u i + sigma * w i))
                            (seq 0 (length q))) = 0).
    { apply Qcle_antisym; [| exact Hnn]. rewrite Hsum.
      replace (E + (1 + 1) * sigma * c + 1 * W) with (E + (1 + 1) * sigma * c + W)
        by ring.
      exact Hle. }
    pose proof (Qcsum_squares_zero (fun i => u i + sigma * w i) _ H0) as Hall.
    cbv beta in Hall.
    assert (Hz : forall i, nth0 q i = 0).
    { apply (shifted_multiple_zero q (- sigma) s Hs). intros i Hi.
      pose proof (Hall i (proj2 (in_seq _ _ _) (conj (Nat.le_0_l i) Hi))) as Hi0.
      fold (u i) (w i).
      transitivity (u i + sigma * w i - sigma * w i); [ring | rewrite Hi0; ring]. }
    assert (EE : E = 0).
    { unfold E. apply Qcsum_map_zero. intros i _. unfold u. rewrite Hz. ring. }
    rewrite EE in HE. exact (Qclt_not_le _ _ HE (Qcle_refl 0)). }
  apply Qcnot_le_lt. intro Hge.
  revert Hge. apply Qcabs_case; intros Hc Hge.
  - apply (Hcase (- (1))); [ring |].
    clearbody E W c. qc_to_q. lra.
  - apply (Hcase 1); [ring |].
    clearbody E W c. qc_to_q. lra.
Qed.

(** A value that exceeds all the others in absolute value is the one that
    [max] selects. *)
Lemma ind_Rxy_max_unique_peak (R : list Qc) (k0 : nat) :
  (k0 < length R)%nat ->
  (forall k, (k < length R)%nat -> k <> k0 ->
             Qcabs (nth0 R k) < Qcabs (nth0 R k0)) ->
  ind_Rxy_max R = Ok k0.
Proof.
  intros Hk0 Hpeak.
  assert (HR : R <> []) by (intro H; rewrite H in Hk0; cbn in Hk0; lia).
  destruct (ind_Rxy_max_total R HR) as [ind Hind]. rewrite Hind. f_equal.
  destruct (ind_Rxy_max_spec R ind Hind) as (Hlt & Hmax & _).
  destruct (Nat.eq_dec ind k0) as [E | N]; [exact E |].
  exfalso. pose proof (Hpeak ind Hlt N) as H1. pose proof (Hmax k0 Hk0) as H2.
  exact (Qclt_not_le _ _ H1 H2).
Qed.

(** In the correlation of a recording with its copy delayed by [d]
    samples, [max] selects the entry [len - 1] of the recording, which is
    the lag [-d]. *)
Lemma delayed_copy_peak (q : list Qc) (d : nat) :
  (exists v, In v q /\ v <> 0) ->
  ind_Rxy_max (convolve_full (q ++ repeat 0 d) (rev (repeat 0 d ++ q)))
  = Ok (length q - 1)%nat.
Proof.
  intro Hq.
  assert (Hn : (0 < length q)%nat).
  { destruct Hq as (v & Hv & _). destruct q; [destruct Hv | cbn; lia]. }
  set (x := q ++ repeat 0 d). set (y := repeat 0 d ++ q).
  assert (Lx : length x = (length q + d)%nat)
    by (unfold x; rewrite length_app, repeat_length; reflexivity).
  assert (Ly : length y = (length q + d)%nat)
    by (unfold y; rewrite length_app, repeat_length; lia).
  assert (Hval : forall k, (k < length x + length y - 1)%nat ->
                           nth0 (convolve_full x (rev y)) k
                           = cross_correlation q q (Z.of_nat k - (Z.of_nat (length q) - 1))).
  { intros k Hk. rewrite convolve_rev_cross_correlation by lia.
    unfold x, y. rewrite cross_correlation_delayed. f_equal.
    fold y. rewrite Ly. lia. }
  apply ind_Rxy_max_unique_peak.
  - rewrite length_convolve_full, length_rev. lia.
  - rewrite length_convolve_full, length_rev. intros k Hk Hne.
    rewrite !Hval by lia.
    replace (Z.of_nat (length q - 1) - (Z.of_nat (length q) - 1))%Z with 0%Z by lia.
    pose proof (autocorrelation_strict q (Z.of_nat k - (Z.of_nat (length q) - 1)) Hq)
      as Hstrict.
    rewrite (Qcabs_pos (cross_correlation q q 0)).
    + apply Hstrict. lia.
    + rewrite autocorrelation_zero_lag. apply Qclt_le_weak, energy_positive, Hq.
Qed.

Lemma fluctuations_mean_zero (data : list Qc) :
  Qcsum data = 0 -> fluctuations data = data.
Proof.
  intro H. unfold fluctuations, np_mean. rewrite H.
  transitivity (map (fun v : Qc => v) data); [| apply map_id].
  apply map_ext. intro v. unfold Qcdiv. ring.
Qed.

Lemma Qcsum_repeat_zero (d : nat) : Qcsum (repeat 0 d) = 0.
Proof. induction d as [| d IH]; [reflexivity |]. cbn [repeat]. rewrite Qcsum_cons, IH. ring. Qed.

(* ------------------------------------------------------------------ *)
(** *** A delay is recovered, with the sign of the lag *)

(** X8: the second probe records the first recording [d] samples later: a
    recording of mean zero that is not zero, followed by [d] zeros on the
    first probe and preceded by [d] zeros on the second.  The lag that
    [compute_timedomain] selects is [-d], whatever the recording: the
    delay is recovered exactly, as a negative lag.  For a delay of one
    sample at least and a positive sampling frequency the velocity is
    [- (x2 - x1) * fs / d]: it has the sign opposite to that of
    [x2 - x1]. *)
Theorem timedomain_recovers_delay
  (self : RMP_ConvectionVelocityCalculator) (recording : list Qc) (d : nat) :
  (exists v, In v recording /\ v <> 0) -> Qcsum recording = 0 ->
  RMP_data_1 self = recording ++ repeat 0 d ->
  RMP_data_2 self = repeat 0 d ++ recording ->
  lagDiff self = Ok (- Z.of_nat d)%Z /\
  exists result_plot,
    compute_timedomain self
    = Ok (np_true_divide (Fin (RMP_x2 self - RMP_x1 self))
            (np_true_divide (Fin (Qc_of_Z (- Z.of_nat d))) (Fin (fs self))),
          result_plot) /\
    ((0 < d)%nat -> 0 < fs self ->
     compute_timedomain self
     = Ok (Fin (- ((RMP_x2 self - RMP_x1 self) * fs self / Qc_of_nat d)), result_plot)).
Proof.
  intros Hq Hsum E1 E2.
  assert (Hn : (0 < length recording)%nat).
  { destruct Hq as (v & Hv & _). destruct recording; [destruct Hv | cbn; lia]. }
  assert (H1 : RMP_data_1 self <> []).
  { rewrite E1. intro H. apply (f_equal (@length Qc)) in H.
    rewrite length_app in H. cbn in H. lia. }
  assert (H2 : RMP_data_2 self <> []).
  { rewrite E2. intro H. apply (f_equal (@length Qc)) in H.
    rewrite length_app in H. cbn in H. lia. }
  destruct (lagDiff_steps self H1 H2) as (ind & Hind & Hlag & E).
  rewrite E1, E2 in Hind.
  rewrite !fluctuations_mean_zero in Hind
    by (rewrite Qcsum_app, Qcsum_repeat_zero, Hsum; ring).
  rewrite (delayed_copy_peak recording d Hq) in Hind. injection Hind as <-.
  assert (El : (Z.of_nat (length recording - 1)
                - (Z.of_nat (length (RMP_data_2 self)) - 1))%Z = (- Z.of_nat d)%Z).
  { rewrite E2, length_app, repeat_length. lia. }
  rewrite El in Hlag, E.
  split; [exact Hlag |]. eexists. split; [exact E |].
  intros Hd Hfs. rewrite E. f_equal. f_equal.
  assert (Hfs0 : fs self <> 0) by (apply not_eq_sym, Qclt_not_eq, Hfs).
  assert (Hd0 : Qc_of_nat d <> 0) by (apply Qc_of_nat_neq_0; exact Hd).
  assert (Ed : Qc_of_Z (- Z.of_nat d) = - Qc_of_nat d) by apply Qc_of_Z_opp.
  cbn [np_true_divide].
  apply Qceqb_neq in Hfs0. rewrite Hfs0. apply Qceqb_neq in Hfs0.
  assert (Hquot : Qc_of_Z (- Z.of_nat d) / fs self <> 0).
  { rewrite Ed. intro H.
    assert (H' : - Qc_of_nat d = 0).
    { transitivity (- Qc_of_nat d / fs self * fs self); [field; exact Hfs0 |].
      rewrite H. ring. }
    apply Hd0. transitivity (- - Qc_of_nat d); [ring | rewrite H'; ring]. }
  apply Qceqb_neq in Hquot. rewrite Hquot. f_equal.
  rewrite Ed. field. repeat split; try assumption.
  intro H. apply Hd0. transitivity (- - Qc_of_nat d); [ring | rewrite H; ring].
Qed.

(** X9: the same recording on both probes, not constant: the correlation is
    largest at lag 0 only, and [compute_timedomain] divides by a delay of
    zero; for a positive sampling frequency the velocity is an infinity,
    or NaN when the positions are equal too. *)
Theorem timedomain_identical_recordings (self : RMP_ConvectionVelocityCalculator) :
  RMP_data_2 self = RMP_data_1 self ->
  (exists u v, In u (RMP_data_1 self) /\ In v (RMP_data_1 self) /\ u <> v) ->
  lagDiff self = Ok 0%Z /\
  exists result_plot,
    compute_timedomain self
    = Ok (np_true_divide (Fin (RMP_x2 self - RMP_x1 self))
            (np_true_divide (Fin 0) (Fin (fs self))),
          result_plot) /\
    (0 < fs self ->
     compute_timedomain self
     = Ok (div_by_zero (RMP_x2 self - RMP_x1 self), result_plot)).
Proof.
  intros E2 (u & v & Hu & Hv & Huv).
  assert (H1 : RMP_data_1 self <> []) by (intro H; rewrite H in Hu; destruct Hu).
  assert (H2 : RMP_data_2 self <> []) by (rewrite E2; exact H1).
  set (q := fluctuations (RMP_data_1 self)).
  assert (Hq : exists w, In w q /\ w <> 0).
  { destruct (Qc_eq_dec u (np_mean (RMP_data_1 self))) as [Eu | Nu].
    - exists (v - np_mean (RMP_data_1 self)). split.
      + unfold q, fluctuations. apply in_map_iff. exists v. split; [reflexivity | exact Hv].
      + intro H. apply Huv. rewrite Eu.
        transitivity (v - np_mean (RMP_data_1 self) + np_mean (RMP_data_1 self));
          [rewrite H; ring | ring].
    - exists (u - np_mean (RMP_data_1 self)). split.
      + unfold q, fluctuations. apply in_map_iff. exists u. split; [reflexivity | exact Hu].
      + intro H. apply Nu.
        transitivity (u - np_mean (RMP_data_1 self) + np_mean (RMP_data_1 self));
          [ring | rewrite H; ring]. }
  destruct (lagDiff_steps self H1 H2) as (ind & Hind & Hlag & E).
  rewrite E2 in Hind. fold q in Hind.
  pose proof (delayed_copy_peak q 0 Hq) as Hpeak.
  cbn [repeat app] in Hpeak. rewrite app_nil_r in Hpeak.
  rewrite Hpeak in Hind. injection Hind as <-.
  assert (El : (Z.of_nat (length q - 1)
                - (Z.of_nat (length (RMP_data_2 self)) - 1))%Z = 0%Z).
  { rewrite E2. unfold q. rewrite length_fluctuations.
    assert (0 < length (RMP_data_1 self))%nat
      by (destruct (RMP_data_1 self); [congruence | cbn; lia]).
    lia. }
  rewrite El in Hlag, E. change (Qc_of_Z 0) with 0 in E.
  split; [exact Hlag |]. eexists. split; [exact E |].
  intro Hfs. rewrite E. f_equal. f_equal.
  rewrite zero_over by (apply not_eq_sym, Qclt_not_eq, Hfs).
  cbn [np_true_divide]. rewrite (proj2 (Qceqb_eq 0 0) eq_refl). reflexivity.
Qed.

Lemma timedomain_recovers_delay_witness :
  lagDiff {| RMP_data_1 := [qc 1 1; qc (-1) 1; qc 0 1; qc 0 1];
             RMP_data_2 := [qc 0 1; qc 0 1; qc 1 1; qc (-1) 1];
             RMP_x1 := qc 0 1; RMP_x2 := qc 1 100; fs := qc 10 1 |} = Ok (-2)%Z /\
  exists result_plot,
    compute_timedomain
      {| RMP_data_1 := [qc 1 1; qc (-1) 1; qc 0 1; qc 0 1];
         RMP_data_2 := [qc 0 1; qc 0 1; qc 1 1; qc (-1) 1];
         RMP_x1 := qc 0 1; RMP_x2 := qc 1 100; fs := qc 10 1 |}
    = Ok (Fin (qc (-1) 20), result_plot).
Proof.
  destruct (timedomain_recovers_delay
              {| RMP_data_1 := [qc 1 1; qc (-1) 1; qc 0 1; qc 0 1];
                 RMP_data_2 := [qc 0 1; qc 0 1; qc 1 1; qc (-1) 1];
                 RMP_x1 := qc 0 1; RMP_x2 := qc 1 100; fs := qc 10 1 |}
              [qc 1 1; qc (-1) 1] 2)
    as (Hlag & result_plot & _ & HU).
  - exists (qc 1 1). split; [left; reflexivity | qc_neq].
  - qc_compute.
  - reflexivity.
  - reflexivity.
  - split; [exact Hlag |]. exists result_plot.
    rewrite HU; [| lia | reflexivity]. repeat f_equal.
Defined.

Lemma timedomain_identical_recordings_witness :
  lagDiff {| RMP_data_1 := [qc 1 1; qc 0 1; qc 2 1];
             RMP_data_2 := [qc 1 1; qc 0 1; qc 2 1];
             RMP_x1 := qc 0 1; RMP_x2 := qc 1 100; fs := qc 10 1 |} = Ok 0%Z /\
  exists result_plot,
    compute_timedomain
      {| RMP_data_1 := [qc 1 1; qc 0 1; qc 2 1];
         RMP_data_2 := [qc 1 1; qc 0 1; qc 2 1];
         RMP_x1 := qc 0 1; RMP_x2 := qc 1 100; fs := qc 10 1 |}
    = Ok (PInf, result_plot).
Proof.
  destruct (timedomain_identical_recordings
              {| RMP_data_1 := [qc 1 1; qc 0 1; qc 2 1];
                 RMP_data_2 := [qc 1 1; qc 0 1; qc 2 1];
                 RMP_x1 := qc 0 1; RMP_x2 := qc 1 100; fs := qc 10 1 |})
    as (Hlag & result_plot & _ & HU).
  - reflexivity.
  - exists (qc 1 1), (qc 0 1). repeat split.
    + left; reflexivity.
    + right; left; reflexivity.
    + qc_neq.
  - split; [exact Hlag |]. exists result_plot.
    rewrite HU by reflexivity. reflexivity.
Defined.

(* ================================================================== *)
(** ** [np.unwrap] and [np.polyfit] in the phase fit *)

Section PhaseFit.

Context {T : Transcendentals}.

(** The corrected step of [np.unwrap] lies within half a period. *)
Lemma unwrap_step_bound (dd : Qc) :
  0 < np_pi -> Qcabs (dd + unwrap_ph_correct dd) <= np_pi.
Proof.
  intro Hpi. unfold unwrap_ph_correct.
  destruct (Qcltb (Qcabs dd) np_pi) eqn:Ed.
  - apply Qcltb_lt in Ed. replace (dd + 0) with dd by ring.
    apply Qclt_le_weak. exact Ed.
  - replace (dd + (unwrap_ddmod dd - dd)) with (unwrap_ddmod dd) by ring.
    unfold unwrap_ddmod.
    set (m := qc 2 1 * np_pi).
    assert (Em : m = np_pi + np_pi) by (unfold m; rewrite two_is_1_plus_1; ring).
    assert (Hm : 0 < m) by (rewrite Em; qc_to_q; lra).
    destruct (np_mod_spec (dd + np_pi) m Hm) as (R0 & Rm & _).
    set (r := np_mod (dd + np_pi) m) in *. clearbody r.
    destruct (Qceqb (r - np_pi) (- np_pi) && Qcltb 0 dd).
    + rewrite Qcabs_pos by (apply Qclt_le_weak; exact Hpi). apply Qcle_refl.
    + rewrite Em in Rm. apply Qcabs_case; intros _; qc_to_q; lra.
Qed.

(** The correction of [np.unwrap] is a whole number of periods. *)
Lemma unwrap_ph_correct_period (dd : Qc) :
  0 < np_pi -> exists k : Z, unwrap_ph_correct dd = qc 2 1 * np_pi * Qc_of_Z k.
Proof.
  intro Hpi. unfold unwrap_ph_correct.
  destruct (Qcltb (Qcabs dd) np_pi).
  - exists 0%Z. change (Qc_of_Z 0) with 0. ring.
  - unfold unwrap_ddmod.
    set (m := qc 2 1 * np_pi).
    assert (Em : m = np_pi + np_pi) by (unfold m; rewrite two_is_1_plus_1; ring).
    assert (Hm : 0 < m) by (rewrite Em; qc_to_q; lra).
    destruct (np_mod_spec (dd + np_pi) m Hm) as (_ & _ & Ea).
    set (r := np_mod (dd + np_pi) m) in *.
    set (k := Qcfloor ((dd + np_pi) / m)) in *.
    assert (Edd : dd = m * Qc_of_Z k + r - np_pi).
    { transitivity (dd + np_pi - np_pi); [ring | rewrite Ea at 1; ring]. }
    destruct (Qceqb (r - np_pi) (- np_pi) && Qcltb 0 dd) eqn:Eb.
    + exists (1 - k)%Z. unfold Z.sub. rewrite Qc_of_Z_plus, Qc_of_Z_opp.
      change (Qc_of_Z 1) with 1.
      apply andb_true_iff in Eb. destruct Eb as [Eb _]. apply Qceqb_eq in Eb.
      assert (Er : r = 0).
      { transitivity (r - np_pi + np_pi); [ring | rewrite Eb; ring]. }
      transitivity (np_pi - (m * Qc_of_Z k + r - np_pi));
        [rewrite <- Edd; reflexivity | rewrite Er, Em; ring].
    + exists (- k)%Z. rewrite Qc_of_Z_opp.
      transitivity (r - np_pi - (m * Qc_of_Z k + r - np_pi));
        [rewrite <- Edd; reflexivity | unfold m; ring].
Qed.

(** The unwrapped phase after the first sample, with the correction
    accumulated so far. *)
Lemma unwrap_tail_cons (p0 r0 acc : Qc) (rest : list Qc) :
  map (fun pc => fst pc + snd pc)
      (combine (r0 :: rest)
               (cumsum_from acc (map unwrap_ph_correct (np_diff (p0 :: r0 :: rest)))))
  = (r0 + (acc + unwrap_ph_correct (r0 - p0)))
    :: map (fun pc => fst pc + snd pc)
           (combine rest
                    (cumsum_from (acc + unwrap_ph_correct (r0 - p0))
                                 (map unwrap_ph_correct (np_diff (r0 :: rest))))).
Proof. reflexivity. Qed.

Lemma unwrap_steps_from (rest : list Qc) : forall p0 acc u0,
  0 < np_pi -> u0 = p0 + acc ->
  forall i a b,
    nth_error (u0 :: map (fun pc => fst pc + snd pc)
                       (combine rest (cumsum_from acc
                                        (map unwrap_ph_correct (np_diff (p0 :: rest)))))) i
    = Some a ->
    nth_error (u0 :: map (fun pc => fst pc + snd pc)
                       (combine rest (cumsum_from acc
                                        (map unwrap_ph_correct (np_diff (p0 :: rest)))))) (S i)
    = Some b ->
    Qcabs (b - a) <= np_pi.
Proof.
  induction rest as [| r0 rest IH]; intros p0 acc u0 Hpi Eu i a b Ha Hb.
  - destruct i; discriminate.
  - rewrite unwrap_tail_cons in Ha, Hb.
    destruct i as [| i].
    + cbn in Ha, Hb. injection Ha as <-. injection Hb as <-.
      replace (r0 + (acc + unwrap_ph_correct (r0 - p0)) - u0)
        with (r0 - p0 + unwrap_ph_correct (r0 - p0)) by (rewrite Eu; ring).
      apply unwrap_step_bound. exact Hpi.
    + cbn [nth_error] in Ha, Hb.
      apply (IH r0 (acc + unwrap_ph_correct (r0 - p0))
                (r0 + (acc + unwrap_ph_correct (r0 - p0))) Hpi eq_refl i a b Ha Hb).
Qed.

Lemma unwrap_periods_from (rest : list Qc) : forall p0 acc u0 (k0 : Z),
  0 < np_pi -> u0 = p0 + acc -> acc = qc 2 1 * np_pi * Qc_of_Z k0 ->
  forall i a,
    nth_error (u0 :: map (fun pc => fst pc + snd pc)
                       (combine rest (cumsum_from acc
                                        (map unwrap_ph_correct (np_diff (p0 :: rest)))))) i
    = Some a ->
    exists v (k : Z), nth_error (p0 :: rest) i = Some v /\
                      a = v + qc 2 1 * np_pi * Qc_of_Z k.
Proof.
  induction rest as [| r0 rest IH]; intros p0 acc u0 k0 Hpi Eu Eacc i a Ha.
  - destruct i as [| i]; [| destruct i; discriminate].
    cbn in Ha. injection Ha as <-. exists p0, k0. split; [reflexivity |].
    rewrite Eu, Eacc. reflexivity.
  - rewrite unwrap_tail_cons in Ha.
    destruct i as [| i].
    + cbn in Ha. injection Ha as <-. exists p0, k0. split; [reflexivity |].
      rewrite Eu, Eacc. reflexivity.
    + cbn [nth_error] in Ha |- *.
      destruct (unwrap_ph_correct_period (r0 - p0) Hpi) as [k1 Ek1].
      apply (IH r0 (acc + unwrap_ph_correct (r0 - p0))
                (r0 + (acc + unwrap_ph_correct (r0 - p0))) (k0 + k1)%Z Hpi eq_refl);
        [| exact Ha].
      rewrite Eacc, Ek1, Qc_of_Z_plus. ring.
Qed.

Lemma unwrap_fixed_from (rest : list Qc) : forall p0 acc,
  (forall i a b, nth_error (p0 :: rest) i = Some a ->
                 nth_error (p0 :: rest) (S i) = Some b -> Qcabs (b - a) < np_pi) ->
  acc = 0 ->
  map (fun pc => fst pc + snd pc)
      (combine rest (cumsum_from acc (map unwrap_ph_correct (np_diff (p0 :: rest)))))
  = rest.
Proof.
  induction rest as [| r0 rest IH]; intros p0 acc Hsmall Eacc; [reflexivity |].
  rewrite unwrap_tail_cons.
  assert (E0 : unwrap_ph_correct (r0 - p0) = 0).
  { unfold unwrap_ph_correct.
    assert (H : Qcltb (Qcabs (r0 - p0)) np_pi = true)
      by (apply Qcltb_lt; apply (Hsmall 0%nat); reflexivity).
    rewrite H. reflexivity. }
  rewrite E0, Eacc. f_equal; [ring |].
  apply IH; [| ring].
  intros i a b Ha Hb. apply (Hsmall (S i)); assumption.
Qed.

(* ------------------------------------------------------------------ *)
(** *** What [np.unwrap] does to the phase *)

(** X10: [np.unwrap] keeps the length and the first phase; it moves every
    other phase by a whole number of turns, so that two consecutive phases
    differ by [np.pi] at most; and it leaves a sequence alone whose
    consecutive phases differ by less than [np.pi]. *)
Theorem unwrap_steps_within_pi (p : list Qc) :
  0 < np_pi ->
  length (np_unwrap p) = length p /\
  nth_error (np_unwrap p) 0 = nth_error p 0 /\
  (forall i a b, nth_error (np_unwrap p) i = Some a ->
                 nth_error (np_unwrap p) (S i) = Some b ->
                 Qcabs (b - a) <= np_pi) /\
  (forall i a, nth_error (np_unwrap p) i = Some a ->
               exists v (k : Z), nth_error p i = Some v /\
                                 a = v + qc 2 1 * np_pi * Qc_of_Z k) /\
  ((forall i a b, nth_error p i = Some a -> nth_error p (S i) = Some b ->
                  Qcabs (b - a) < np_pi) ->
   np_unwrap p = p).
Proof.
  intro Hpi. split; [apply length_np_unwrap |].
  destruct p as [| p0 rest].
  - split; [reflexivity |]. split; [intros [| i] a b H; discriminate |].
    split; [intros [| i] a H; discriminate | reflexivity].
  - unfold np_unwrap, np_cumsum. split; [reflexivity |]. split; [| split].
    + apply (unwrap_steps_from rest p0 0 p0 Hpi). ring.
    + apply (unwrap_periods_from rest p0 0 p0 0%Z Hpi); [ring |].
      change (Qc_of_Z 0) with 0. ring.
    + intro Hsmall. f_equal. apply unwrap_fixed_from; [exact Hsmall | reflexivity].
Qed.

(* ------------------------------------------------------------------ *)
(** *** [np.unwrap] of a part of the phase *)

Lemma cumsum_from_shift (k : Qc) (l : list Qc) : forall acc,
  cumsum_from (acc + k) l = map (fun v => v + k) (cumsum_from acc l).
Proof.
  induction l as [| c l IH]; intro acc; [reflexivity |].
  cbn [cumsum_from map].
  replace (acc + k + c) with (acc + c + k) by ring.
  rewrite IH. reflexivity.
Qed.

Lemma unwrap_tail_shift (k : Qc) (rest : list Qc) : forall (corr : list Qc) acc,
  map (fun pc => fst pc + snd pc) (combine rest (cumsum_from (acc + k) corr))
  = map (fun v => v + k)
        (map (fun pc => fst pc + snd pc) (combine rest (cumsum_from acc corr))).
Proof.
  intros corr acc. rewrite cumsum_from_shift.
  generalize (cumsum_from acc corr) as C. clear.
  induction rest as [| r rest IH]; intros [| c C]; cbn [map combine fst snd];
    try reflexivity.
  rewrite IH. f_equal. ring.
Qed.

(** Unwrapping from the second sample on gives the same phases as
    unwrapping from the first, less the correction of the first step. *)
Lemma np_unwrap_tail (p0 p1 : Qc) (rest : list Qc) :
  tl (np_unwrap (p0 :: p1 :: rest))
  = map (fun v => v + unwrap_ph_correct (p1 - p0)) (np_unwrap (p1 :: rest)).
Proof.
  unfold np_unwrap, np_cumsum. cbn [tl]. rewrite unwrap_tail_cons.
  cbn [map]. f_equal; [ring |].
  rewrite unwrap_tail_shift. reflexivity.
Qed.

Lemma unwrap_firstn_from (rest : list Qc) : forall p0 acc n,
  map (fun pc => fst pc + snd pc)
      (combine (firstn n rest)
               (cumsum_from acc (map unwrap_ph_correct (np_diff (p0 :: firstn n rest)))))
  = firstn n
      (map (fun pc => fst pc + snd pc)
           (combine rest (cumsum_from acc (map unwrap_ph_correct (np_diff (p0 :: rest)))))).
Proof.
  induction rest as [| r0 rest IH]; intros p0 acc n.
  - rewrite firstn_nil. destruct n; reflexivity.
  - destruct n as [| n]; [reflexivity |].
    rewrite firstn_cons, !unwrap_tail_cons, firstn_cons, IH. reflexivity.
Qed.

(** Unwrapping the first [n] samples gives the first [n] unwrapped
    samples. *)
Lemma np_unwrap_firstn (n : nat) (p : list Qc) :
  np_unwrap (firstn n p) = firstn n (np_unwrap p).
Proof.
  destruct p as [| p0 rest]; [rewrite firstn_nil; destruct n; reflexivity |].
  destruct n as [| n]; [reflexivity |].
  rewrite firstn_cons. unfold np_unwrap, np_cumsum. rewrite firstn_cons.
  f_equal. apply unwrap_firstn_from.
Qed.

Lemma nth_error_tl {A : Type} (l : list A) (i : nat) :
  nth_error (tl l) i = nth_error l (S i).
Proof. destruct l; [destruct i |]; reflexivity. Qed.

(** The phases unwrapped over the bins [1 .. c - 1] are those unwrapped
    over all the bins, less the correction of the step from bin 0 to
    bin 1. *)
Lemma np_unwrap_slice_1 (c : nat) (p : list Qc) (a0 a1 : Qc) (i : nat) (phi : Qc) :
  nth_error p 0 = Some a0 -> nth_error p 1 = Some a1 ->
  nth_error (np_unwrap (slice 1 c p)) i = Some phi ->
  nth_error (np_unwrap p) (S i) = Some (phi + unwrap_ph_correct (a1 - a0)).
Proof.
  intros H0 H1 Hi.
  destruct p as [| p0 [| p1 rest]]; try discriminate.
  cbn in H0, H1. injection H0 as <-. injection H1 as <-.
  unfold slice in Hi.
  destruct c as [| [| c]]; [destruct i; discriminate.. |].
  rewrite !firstn_cons in Hi. cbn [skipn] in Hi.
  rewrite <- firstn_cons, np_unwrap_firstn in Hi.
  assert (Hi' : nth_error (np_unwrap (p1 :: rest)) i = Some phi).
  { rewrite nth_error_firstn in Hi.
    destruct (i <? S c)%nat; [exact Hi | discriminate]. }
  rewrite <- nth_error_tl, np_unwrap_tail, nth_error_map, Hi'. reflexivity.
Qed.

(* ------------------------------------------------------------------ *)
(** *** A phase that is a line *)






End PhaseFit.

(* ================================================================== *)
(** ** [compute_freqdomain]: parameters, shapes, offsets and gains *)

Section FreqdomainMore.

Context {T : Transcendentals}.

(** [signal.csd] on recordings that hold samples: the checks of the
    segment length and of the overlap. *)
Lemma signal_csd_accepts (x y : list Qc) (fs : Qc) (nperseg noverlap : nat) :
  x <> [] -> y <> [] -> fs <> 0 -> (1 <= nperseg)%nat ->
  (noverlap < Nat.min nperseg (Nat.max (length x) (length y)))%nat ->
  exists Z, signal_csd x y fs nperseg noverlap nperseg = Ok (rfftfreq nperseg fs, Z) /\
            length Z = (nperseg / 2 + 1)%nat.
Proof.
  intros Hx Hy Hfs Hn Ho. unfold signal_csd.
  pose proof (length_pos_nonempty x Hx) as Px.
  pose proof (length_pos_nonempty y Hy) as Py.
  destruct (Nat.eqb_spec (length x) 0) as [E | _]; [lia |].
  destruct (Nat.eqb_spec (length y) 0) as [E | _]; [lia |].
  cbn [orb].
  destruct (Nat.ltb_spec nperseg 1) as [L | _]; [lia |].
  destruct (Nat.ltb_spec nperseg (Nat.min nperseg (Nat.max (length x) (length y))))
    as [L | _]; [lia |].
  destruct (Nat.leb_spec (Nat.min nperseg (Nat.max (length x) (length y))) noverlap)
    as [L | _]; [lia |].
  apply Qceqb_neq in Hfs. rewrite Hfs.
  eexists. split; [reflexivity |].
  unfold mean_over_segments. rewrite length_map, length_seq. reflexivity.
Qed.

Lemma signal_csd_refuses (x y : list Qc) (fs : Qc) (nperseg noverlap : nat) :
  x <> [] -> y <> [] ->
  (nperseg = 0 \/ Nat.min nperseg (Nat.max (length x) (length y)) <= noverlap)%nat ->
  signal_csd x y fs nperseg noverlap nperseg = Raise ValueError.
Proof.
  intros Hx Hy Hbad. unfold signal_csd.
  pose proof (length_pos_nonempty x Hx) as Px.
  pose proof (length_pos_nonempty y Hy) as Py.
  destruct (Nat.eqb_spec (length x) 0) as [E | _]; [lia |].
  destruct (Nat.eqb_spec (length y) 0) as [E | _]; [lia |].
  cbn [orb].
  destruct (Nat.ltb_spec nperseg 1) as [L | L]; [reflexivity |].
  destruct (Nat.ltb_spec nperseg (Nat.min nperseg (Nat.max (length x) (length y))))
    as [L' | _]; [lia |].
  destruct (Nat.leb_spec (Nat.min nperseg (Nat.max (length x) (length y))) noverlap)
    as [_ | L']; [reflexivity | lia].
Qed.

(** The spectra of recordings that hold samples, for a sampling frequency
    that is not zero. *)
Lemma spectra_accepts (self : RMP_ConvectionVelocityCalculator)
  (N_window N_overlap : nat) :
  RMP_data_1 self <> [] -> RMP_data_2 self <> [] -> fs self <> 0 ->
  (1 <= N_window)%nat ->
  (N_overlap < Nat.min N_window
                       (Nat.min (length (RMP_data_1 self)) (length (RMP_data_2 self))))%nat ->
  exists Z g, spectra self N_window N_overlap = Ok (rfftfreq N_window (fs self), Z, g) /\
              length Z = (N_window / 2 + 1)%nat /\
              length g = (N_window / 2 + 1)%nat.
Proof.
  intros H1 H2 Hfs Hn Ho.
  destruct (signal_csd_accepts (RMP_data_1 self) (RMP_data_2 self) (fs self)
              N_window N_overlap H1 H2 Hfs Hn) as (Zxy & Exy & Lxy); [lia |].
  destruct (signal_csd_accepts (RMP_data_1 self) (RMP_data_1 self) (fs self)
              N_window N_overlap H1 H1 Hfs Hn) as (Zxx & Exx & Lxx); [lia |].
  destruct (signal_csd_accepts (RMP_data_2 self) (RMP_data_2 self) (fs self)
              N_window N_overlap H2 H2 Hfs Hn) as (Zyy & Eyy & Lyy); [lia |].
  unfold spectra, signal_welch. rewrite Exy, Exx, Eyy. cbn [bind].
  unfold coherence.
  rewrite np_broadcast_equal_lengths by (rewrite !length_map; congruence).
  cbn [bind].
  rewrite np_broadcast_equal_lengths
    by (rewrite !length_map, length_combine, !length_map; lia).
  cbn [bind]. eexists. eexists. split; [reflexivity |]. split; [exact Lxy |].
  rewrite !length_map, !length_combine, !length_map, length_combine, !length_map. lia.
Qed.

Lemma spectra_refuses (self : RMP_ConvectionVelocityCalculator)
  (N_window N_overlap : nat) :
  RMP_data_1 self <> [] -> RMP_data_2 self <> [] -> fs self <> 0 ->
  (N_window = 0 \/
   Nat.min N_window (Nat.min (length (RMP_data_1 self)) (length (RMP_data_2 self)))
   <= N_overlap)%nat ->
  spectra self N_window N_overlap = Raise ValueError.
Proof.
  intros H1 H2 Hfs Hbad. unfold spectra.
  destruct (Nat.eq_dec N_window 0) as [E0 | E0].
  { rewrite signal_csd_refuses by (try assumption; left; exact E0). reflexivity. }
  destruct (Nat.le_gt_cases
              (Nat.min N_window (Nat.max (length (RMP_data_1 self))
                                         (length (RMP_data_2 self)))) N_overlap)
    as [L | L].
  { rewrite signal_csd_refuses by (try assumption; right; exact L). reflexivity. }
  destruct (signal_csd_accepts (RMP_data_1 self) (RMP_data_2 self) (fs self)
              N_window N_overlap H1 H2 Hfs) as (Zxy & Exy & _); [lia | exact L |].
  rewrite Exy. cbn [bind]. unfold signal_welch.
  destruct (Nat.le_gt_cases (Nat.min N_window (length (RMP_data_1 self))) N_overlap)
    as [L1 | L1].
  { rewrite (signal_csd_refuses (RMP_data_1 self) (RMP_data_1 self))
      by (try assumption; right; rewrite Nat.max_id; exact L1).
    reflexivity. }
  destruct (signal_csd_accepts (RMP_data_1 self) (RMP_data_1 self) (fs self)
              N_window N_overlap H1 H1 Hfs) as (Zxx & Exx & _);
    [lia | rewrite Nat.max_id; exact L1 |].
  rewrite Exx. cbn [bind].
  rewrite (signal_csd_refuses (RMP_data_2 self) (RMP_data_2 self))
    by (try assumption; right; rewrite Nat.max_id; lia).
  reflexivity.
Qed.

(* ------------------------------------------------------------------ *)
(** *** Which window and overlap are accepted *)

(** X12: for recordings that hold samples and a positive sampling frequency,
    [compute_freqdomain] gets as far as the coherence exactly when
    the window has a sample at least and the overlap is smaller than the
    window and than both recordings; the frequency axis is then
    [0, fs / N_window, 2 * fs / N_window, ...] with [N_window // 2 + 1]
    bins.  Otherwise SciPy raises [ValueError]: a window of zero samples,
    an overlap that is not smaller than the window, and also an overlap
    that is not smaller than the shorter recording, although the window is
    larger. *)
Theorem freqdomain_parameters
  (self : RMP_ConvectionVelocityCalculator) (N_window N_overlap : nat) :
  RMP_data_1 self <> [] -> RMP_data_2 self <> [] -> 0 < fs self ->
  ((N_window = 0 \/
    Nat.min N_window (Nat.min (length (RMP_data_1 self)) (length (RMP_data_2 self)))
    <= N_overlap)%nat ->
   compute_freqdomain self N_window N_overlap = Raise ValueError) /\
  ((1 <= N_window)%nat ->
   (N_overlap < Nat.min N_window
                        (Nat.min (length (RMP_data_1 self)) (length (RMP_data_2 self))))%nat ->
   exists Z g,
     spectra self N_window N_overlap = Ok (rfftfreq N_window (fs self), Z, g) /\
     length Z = (N_window / 2 + 1)%nat /\
     length g = (N_window / 2 + 1)%nat /\
     forall i, (i <= N_window / 2)%nat ->
               nth_error (rfftfreq N_window (fs self)) i
               = Some (Qc_of_nat i * (fs self / Qc_of_nat N_window))).
Proof.
  intros H1 H2 Hpos.
  assert (Hfs : fs self <> 0) by (apply not_eq_sym, Qclt_not_eq, Hpos).
  split.
  - intro Hbad. rewrite compute_freqdomain_spectra.
    rewrite (spectra_refuses self N_window N_overlap H1 H2 Hfs Hbad). reflexivity.
  - intros Hn Ho.
    destruct (spectra_accepts self N_window N_overlap H1 H2 Hfs Hn Ho)
      as (Z & g & E & LZ & Lg).
    exists Z, g. split; [exact E |]. split; [exact LZ |]. split; [exact Lg |].
    intros i Hi. apply nth_error_rfftfreq. lia.
Qed.

(* ------------------------------------------------------------------ *)
(** *** What a returned estimate tells about the call *)

(** What a return of [compute_freqdomain] tells about the arguments and
    the arrays. *)
Lemma compute_freqdomain_accepted
  (self : RMP_ConvectionVelocityCalculator) (N_window N_overlap : nat)
  (U : npfloat) (r : freqdomain_plot) :
  compute_freqdomain self N_window N_overlap = Ok (U, r) ->
  RMP_data_1 self <> [] /\ RMP_data_2 self <> [] /\ fs self <> 0 /\
  (1 <= N_window)%nat /\
  (N_overlap < Nat.min N_window
                       (Nat.min (length (RMP_data_1 self)) (length (RMP_data_2 self))))%nat /\
  f_Pxy r = rfftfreq N_window (fs self) /\
  length (f_Pxy r) = (N_window / 2 + 1)%nat /\
  length (Pxy r) = (N_window / 2 + 1)%nat /\
  length (gamma2 r) = (N_window / 2 + 1)%nat /\
  (ind_fmax_fit r < N_window / 2 + 1)%nat.
Proof.
  intro E.
  destruct (compute_freqdomain_inv _ _ _ _ _ E) as (Hs & Hc & _).
  destruct (cutoff_is_last_coherent _ _ Hc) as [(v & Hv & _) _].
  assert (Hlt : (ind_fmax_fit r < length (gamma2 r))%nat)
    by (apply nth_error_Some; congruence).
  destruct (spectra_shape _ _ _ _ _ _ Hs) as (Lf & LZ & Hshape).
  destruct Hshape as (H1 & H2 & Hn & Hfs & Ef & Lg).
  { intro Eg. rewrite Eg in Hlt. cbn in Hlt. lia. }
  split; [exact H1 |]. split; [exact H2 |]. split; [exact Hfs |].
  split; [exact Hn |]. split.
  { destruct (Nat.le_gt_cases
                (Nat.min N_window (Nat.min (length (RMP_data_1 self))
                                           (length (RMP_data_2 self)))) N_overlap)
      as [L | L]; [| exact L].
    rewrite (spectra_refuses self N_window N_overlap H1 H2 Hfs (or_intror L)) in Hs.
    discriminate. }
  split; [exact Ef |]. split; [congruence |]. split; [congruence |].
  split; [exact Lg |]. lia.
Qed.

(** X13: [compute_freqdomain] returns only for recordings that hold samples, a
    sampling frequency that is not zero, a window of 4 samples at least and
    an overlap below the window and below both recordings.  The three
    arrays of its [result_plot] then have [N_window // 2 + 1] entries, the
    frequency axis is that of [rfftfreq], and the cutoff is an index of
    these arrays, 2 at least: the line is fitted to [ind_fmax_fit - 1]
    bins. *)
Theorem freqdomain_estimate_shape
  (self : RMP_ConvectionVelocityCalculator) (N_window N_overlap : nat)
  (Ucv : npfloat) (result_plot : freqdomain_plot) :
  compute_freqdomain self N_window N_overlap = Ok (Ucv, result_plot) ->
  RMP_data_1 self <> [] /\ RMP_data_2 self <> [] /\ fs self <> 0 /\
  (4 <= N_window)%nat /\
  (N_overlap < Nat.min N_window
                       (Nat.min (length (RMP_data_1 self)) (length (RMP_data_2 self))))%nat /\
  f_Pxy result_plot = rfftfreq N_window (fs self) /\
  length (f_Pxy result_plot) = (N_window / 2 + 1)%nat /\
  length (Pxy result_plot) = (N_window / 2 + 1)%nat /\
  length (gamma2 result_plot) = (N_window / 2 + 1)%nat /\
  (2 <= ind_fmax_fit result_plot <= N_window / 2)%nat /\
  length (slice 1 (ind_fmax_fit result_plot) (f_Pxy result_plot))
  = (ind_fmax_fit result_plot - 1)%nat.
Proof.
  intro E.
  destruct (compute_freqdomain_accepted _ _ _ _ _ E)
    as (H1 & H2 & Hfs & Hn & Ho & Ef & Lf & LZ & Lg & Hlt).
  destruct (compute_freqdomain_inv _ _ _ _ _ E) as (_ & _ & Hfit & _).
  assert (Hc2 : (2 <= ind_fmax_fit result_plot)%nat).
  { apply np_polyfit1_nonempty in Hfit. rewrite length_slice_1 in Hfit. lia. }
  assert (H4 : (4 <= N_window)%nat).
  { destruct (Nat.le_gt_cases 4 N_window) as [L | L]; [exact L |].
    assert (N_window / 2 <= 1)%nat; [| lia].
    clear - L. destruct N_window as [| [| [| [| n]]]]; [cbn; lia .. | lia]. }
  split; [exact H1 |]. split; [exact H2 |]. split; [exact Hfs |].
  split; [exact H4 |]. split; [exact Ho |].
  split; [exact Ef |]. split; [exact Lf |]. split; [exact LZ |].
  split; [exact Lg |]. split; [lia |].
  rewrite length_slice_1. lia.
Qed.

(** X14: with an empty recording [compute_freqdomain] returns nothing: SciPy
    gives empty spectra, and with both recordings empty the list of the
    coherent bins is empty and its last element is asked for, which raises
    [IndexError], whatever the window, the overlap and the sampling
    frequency. *)
Theorem freqdomain_empty_recordings
  (self : RMP_ConvectionVelocityCalculator) (N_window N_overlap : nat) :
  (RMP_data_1 self = [] -> RMP_data_2 self = [] ->
   compute_freqdomain self N_window N_overlap = Raise IndexError) /\
  (RMP_data_1 self = [] \/ RMP_data_2 self = [] ->
   exists e, compute_freqdomain self N_window N_overlap = Raise e).
Proof.
  split.
  - intros H1 H2. unfold compute_freqdomain, signal_welch, signal_csd.
    rewrite H1, H2. reflexivity.
  - intro Hempty.
    destruct (compute_freqdomain self N_window N_overlap) as [[U r] | e] eqn:E;
      [| exists e; reflexivity].
    exfalso.
    destruct (compute_freqdomain_inv _ _ _ _ _ E) as (Hs & Hc & _).
    destruct (cutoff_is_last_coherent _ _ Hc) as [(v & Hv & _) _].
    destruct (spectra_shape _ _ _ _ _ _ Hs) as (_ & _ & Hshape).
    destruct Hshape as (H1 & H2 & _).
    { intro Eg. rewrite Eg in Hv. destruct (ind_fmax_fit r); discriminate. }
    destruct Hempty; contradiction.
Qed.

(* ------------------------------------------------------------------ *)
(** *** The power spectral densities *)

Lemma Qcmult_nonneg (a b : Qc) : 0 <= a -> 0 <= b -> 0 <= a * b.
Proof. intros A B. qc_to_q. nra. Qed.

Lemma Qcinv_nonneg (a : Qc) : 0 <= a -> 0 <= 1 / a.
Proof.
  intro H. qc_to_q. rewrite Qmult_1_l. apply Qinv_le_0_compat. exact H.
Qed.

Lemma onesided_factor_nonneg (nfft f : nat) : 0 <= onesided_factor nfft f.
Proof.
  unfold onesided_factor.
  destruct (f =? 0)%nat; [discriminate |].
  destruct (Nat.even nfft && (f =? nfft / 2)%nat); discriminate.
Qed.

Lemma density_scale_nonneg (fs : Qc) (nperseg n : nat) :
  0 < fs -> 0 <= density_scale fs nperseg n.
Proof.
  intro Hfs. unfold density_scale. apply Qcinv_nonneg.
  set (w := get_window_hann _).
  assert (Hw : 0 <= Qcsum (times w w)).
  { unfold times.
    replace (map (fun p : Qc * Qc => fst p * snd p) (combine w w))
      with (map (fun v => v * v) w).
    - apply (Qcsum_squares_nonneg (fun v => v) w).
    - clear. induction w as [| a w IH]; [reflexivity |].
      cbn [map combine fst snd]. rewrite IH. reflexivity. }
  apply Qcmult_nonneg; [apply Qclt_le_weak; exact Hfs | exact Hw].
Qed.

(** X15: [signal.welch] returns the real part of the cross-spectrum of the
    recording with itself.  Nothing is lost: its imaginary part is zero
    in every bin, and for a positive sampling frequency the power spectral
    density is not negative. *)
Theorem welch_density_nonnegative
  (x : list Qc) (fs : Qc) (nperseg noverlap nfft : nat)
  (f Pxx : list Qc) :
  0 < fs ->
  signal_welch x fs nperseg noverlap nfft = Ok (f, Pxx) ->
  exists Z, signal_csd x x fs nperseg noverlap nfft = Ok (f, Z) /\
            Pxx = map re Z /\
            (forall z, In z Z -> im z = 0) /\
            (forall v, In v Pxx -> 0 <= v).
Proof.
  intros Hfs E. unfold signal_welch in E.
  destruct (signal_csd x x fs nperseg noverlap nfft) as [[f' Z] | e] eqn:Ex;
    cbn [bind] in E; [| discriminate].
  injection E as <- <-. exists Z. split; [reflexivity |]. split; [reflexivity |].
  assert (Hbin : forall z, In z Z -> im z = 0 /\ 0 <= re z).
  { destruct (signal_csd_shape _ _ _ _ _ _ _ _ Ex)
      as [(_ & _ & ->) | (Hx & _ & _ & _ & _ & LZ)]; [intros z [] |].
    pose proof (signal_csd_equal_lengths _ _ _ _ _ _ _ _ Hx eq_refl Ex) as EZ.
    set (X := segment_spectra x nperseg noverlap nfft) in *.
    intros z Hz. apply In_nth_error in Hz. destruct Hz as [j Hj].
    assert (Hlt : (j < nfft / 2 + 1)%nat).
    { rewrite <- LZ. apply nth_error_Some. congruence. }
    apply Nat.ltb_lt in Hlt.
    rewrite EZ, nth_error_mean_over_segments, Hlt in Hj.
    rewrite length_map, welch_bin in Hj. injection Hj as <-.
    destruct (bin_sum_cauchy_schwarz j X X eq_refl) as (I0 & _ & R0 & _).
    set (m := 1 / Qc_of_nat (length (combine X X))
              * (density_scale fs nperseg (length x) * onesided_factor nfft j)).
    assert (Hm : 0 <= m).
    { unfold m.
      assert (A : 0 <= 1 / Qc_of_nat (length (combine X X))).
      { apply Qcinv_nonneg. change 0 with (Qc_of_Z 0). unfold Qc_of_nat.
        apply Qc_of_Z_le. lia. }
      pose proof (density_scale_nonneg fs nperseg (length x) Hfs) as B.
      pose proof (onesided_factor_nonneg nfft j) as C.
      apply Qcmult_nonneg; [exact A |]. apply Qcmult_nonneg; assumption. }
    cbn [Cscale re im]. rewrite I0. split; [ring |].
    apply Qcmult_nonneg; assumption. }
  split.
  - intros z Hz. apply Hbin. exact Hz.
  - intros v Hv. apply in_map_iff in Hv. destruct Hv as (z & <- & Hz).
    apply Hbin. exact Hz.
Qed.

(* ------------------------------------------------------------------ *)
(** *** Offsets of the probes *)






(* ------------------------------------------------------------------ *)
(** *** Gains of the probes *)


Lemma Cscale_Czero (k : Qc) : Cscale k Czero = Czero.
Proof. unfold Cscale, Czero. cbn [re im]. f_equal; ring. Qed.

Lemma nth_map_Cscale (k : Qc) (f : nat) (seg : list complex) :
  nth f (map (Cscale k) seg) Czero = Cscale k (nth f seg Czero).
Proof. rewrite <- (Cscale_Czero k) at 1. apply map_nth. Qed.






Lemma combine_map_map {A B A' B' : Type} (h : A -> A') (k : B -> B')
  (xs : list A) : forall (ys : list B),
  combine (map h xs) (map k ys)
  = map (fun p => (h (fst p), k (snd p))) (combine xs ys).
Proof.
  induction xs as [| x xs IH]; intros [| y ys]; cbn; try reflexivity.
  rewrite IH. reflexivity.
Qed.


Lemma mean_over_segments_gain (k : Qc) (nbins : nat) (pg : list (list complex)) :
  mean_over_segments nbins (map (map (Cscale k)) pg)
  = map (Cscale k) (mean_over_segments nbins pg).
Proof.
  unfold mean_over_segments. rewrite length_map, map_map. apply map_ext. intro f.
  rewrite map_map.
  rewrite (map_ext (fun seg => nth f (map (Cscale k) seg) Czero)
                   (fun seg => Cscale k (nth f seg Czero)))
    by (intro seg; apply nth_map_Cscale).
  rewrite (Csum_scale k (fun seg => nth f seg Czero)).
  unfold Cscale. cbn [re im]. f_equal; ring.
Qed.



Lemma np_broadcast_map {A B C A' B' : Type} (f : A' -> B' -> C)
  (h : A -> A') (g : B -> B') (xs : list A) (ys : list B) :
  np_broadcast f (map h xs) (map g ys)
  = np_broadcast (fun u v => f (h u) (g v)) xs ys.
Proof.
  unfold np_broadcast. rewrite !length_map.
  destruct (length xs =? length ys)%nat.
  - rewrite combine_map_map, map_map. reflexivity.
  - destruct xs as [| x [| x' xs]], ys as [| y [| y' ys]];
      cbn [map]; rewrite ?map_map; reflexivity.
Qed.

Lemma np_broadcast_ext {A B C : Type} (f g : A -> B -> C) (xs : list A) (ys : list B) :
  (forall u v, f u v = g u v) -> np_broadcast f xs ys = np_broadcast g xs ys.
Proof.
  intro H. unfold np_broadcast.
  destruct (length xs =? length ys)%nat.
  - f_equal. apply map_ext. intros [u v]. apply H.
  - destruct xs as [| x [| x' xs]], ys as [| y [| y' ys]];
      try reflexivity; f_equal; apply map_ext; intro; apply H.
Qed.

Lemma np_broadcast_map_result {A B C D : Type} (f : A -> B -> C) (h : C -> D)
  (xs : list A) (ys : list B) :
  np_broadcast (fun u v => h (f u v)) xs ys
  = (r <- np_broadcast f xs ys ;; Ok (map h r)).
Proof.
  unfold np_broadcast.
  destruct (length xs =? length ys)%nat.
  - cbn [bind]. rewrite map_map. reflexivity.
  - destruct xs as [| x [| x' xs]], ys as [| y [| y' ys]];
      cbn [bind]; rewrite ?map_map; reflexivity.
Qed.

Lemma Cnorm2_Cscale (k : Qc) (z : complex) : Cnorm2 (Cscale k z) = k * k * Cnorm2 z.
Proof. unfold Cnorm2, Cscale. cbn [re im]. ring. Qed.

Lemma Qcsquare_pos (k : Qc) : k <> 0 -> 0 < k * k.
Proof.
  intro Hk. destruct (Qcle_lt_or_eq _ _ (Qcsquare_nonneg k)) as [L | E]; [exact L |].
  symmetry in E. destruct (Qcmult_integral _ _ E); contradiction.
Qed.

(** A quotient of float64 numbers whose terms are multiplied by the same
    positive number. *)
Lemma np_true_divide_scale (s n d : Qc) :
  0 < s -> np_true_divide (Fin (s * n)) (Fin (s * d)) = np_true_divide (Fin n) (Fin d).
Proof.
  intro Hs. assert (Hs0 : s <> 0) by (apply not_eq_sym, Qclt_not_eq, Hs).
  cbn [np_true_divide]. destruct (Qceqb d 0) eqn:Ed.
  - apply Qceqb_eq in Ed. subst d.
    replace (s * 0) with 0 by ring. rewrite (proj2 (Qceqb_eq 0 0) eq_refl).
    unfold div_by_zero.
    assert (P : Qcltb 0 (s * n) = Qcltb 0 n).
    { destruct (Qcltb 0 n) eqn:E.
      - apply Qcltb_lt. apply Qcltb_lt in E. qc_to_q. nra.
      - apply Qcltb_ge. apply Qcltb_ge in E. qc_to_q. nra. }
    assert (N : Qcltb (s * n) 0 = Qcltb n 0).
    { destruct (Qcltb n 0) eqn:E.
      - apply Qcltb_lt. apply Qcltb_lt in E. qc_to_q. nra.
      - apply Qcltb_ge. apply Qcltb_ge in E. qc_to_q. nra. }
    rewrite P, N. reflexivity.
  - apply Qceqb_neq in Ed.
    assert (Hsd : Qceqb (s * d) 0 = false).
    { apply Qceqb_neq. intro E. destruct (Qcmult_integral _ _ E); contradiction. }
    rewrite Hsd. f_equal. field. split; assumption.
Qed.



End FreqdomainMore.

(* ================================================================== *)
(** ** The sampling frequency *)

Lemma Qceqb_mult_zero (k f : Qc) : k <> 0 -> Qceqb (k * f) 0 = Qceqb f 0.
Proof.
  intro Hk. destruct (Qceqb f 0) eqn:E.
  - apply Qceqb_eq in E. subst f. apply Qceqb_eq. ring.
  - apply Qceqb_neq in E. apply Qceqb_neq. intro H.
    destruct (Qcmult_integral _ _ H); contradiction.
Qed.

Lemma Qceqb_div_zero (l f : Qc) : f <> 0 -> Qceqb (l / f) 0 = Qceqb l 0.
Proof.
  intro Hf. destruct (Qceqb l 0) eqn:E.
  - apply Qceqb_eq in E. subst l. apply Qceqb_eq. field. exact Hf.
  - apply Qceqb_neq in E. apply Qceqb_neq. apply Qcdiv_neq_0; assumption.
Qed.

Lemma np_multiply_infinite (k : Qc) (v : npfloat) :
  0 < k -> (forall q, v <> Fin q) -> np_multiply (Fin k) v = v.
Proof.
  intros Hk Hv. destruct v as [q | | |]; [destruct (Hv q eq_refl) | | |];
    cbn [np_multiply np_negative]; unfold div_by_zero;
    rewrite ?(proj2 (Qcltb_lt 0 k) Hk); reflexivity.
Qed.

Lemma div_by_zero_infinite (x q : Qc) : div_by_zero x <> Fin q.
Proof. unfold div_by_zero. destruct (Qcltb 0 x), (Qcltb x 0); discriminate. Qed.

(** The velocity of [compute_timedomain] for a sampling frequency
    multiplied by [k]. *)
Lemma timedomain_velocity_scale (k dx l f : Qc) :
  0 < k ->
  np_true_divide (Fin dx) (np_true_divide (Fin l) (Fin (k * f)))
  = np_multiply (Fin k) (np_true_divide (Fin dx) (np_true_divide (Fin l) (Fin f))).
Proof.
  intro Hk. assert (Hk0 : k <> 0) by (apply not_eq_sym, Qclt_not_eq, Hk).
  cbn [np_true_divide]. rewrite (Qceqb_mult_zero k f Hk0).
  destruct (Qceqb f 0) eqn:Ef.
  - destruct (div_by_zero l) as [q | | |] eqn:El;
      [exfalso; exact (div_by_zero_infinite l q El) | | |];
      cbn [np_true_divide np_multiply]; try reflexivity; f_equal; ring.
  - apply Qceqb_neq in Ef.
    assert (Hkf : k * f <> 0)
      by (intro H; destruct (Qcmult_integral _ _ H); contradiction).
    cbn [np_true_divide]. rewrite (Qceqb_div_zero l (k * f) Hkf), (Qceqb_div_zero l f Ef).
    destruct (Qceqb l 0) eqn:El.
    + symmetry. apply np_multiply_infinite; [exact Hk |].
      intro q. apply div_by_zero_infinite.
    + apply Qceqb_neq in El. cbn [np_multiply]. f_equal. field.
      repeat split; assumption.
Qed.

(** The velocity of [compute_freqdomain] for a slope divided by [k]. *)
Lemma freqdomain_velocity_scale (k dx a two pi : Qc) :
  0 < k ->
  np_multiply (np_multiply (np_true_divide (Fin dx) (Fin (a / k))) (Fin two)) (Fin pi)
  = np_multiply (Fin k)
      (np_multiply (np_multiply (np_true_divide (Fin dx) (Fin a)) (Fin two)) (Fin pi)).
Proof.
  intro Hk. assert (Hk0 : k <> 0) by (apply not_eq_sym, Qclt_not_eq, Hk).
  cbn [np_true_divide]. rewrite (Qceqb_div_zero a k Hk0).
  destruct (Qceqb a 0) eqn:Ea.
  - symmetry. apply np_multiply_infinite; [exact Hk |]. intro q.
    destruct (div_by_zero dx) as [q' | | |] eqn:Ed;
      [exfalso; exact (div_by_zero_infinite dx q' Ed) | | |];
      cbn [np_multiply np_negative].
    + destruct (div_by_zero two) as [q' | | |] eqn:E2;
        [exfalso; exact (div_by_zero_infinite two q' E2) | | |];
        cbn [np_multiply np_negative]; try discriminate.
      * apply div_by_zero_infinite.
      * destruct (div_by_zero pi) as [q' | | |] eqn:E3;
          [exfalso; exact (div_by_zero_infinite pi q' E3) | | |]; discriminate.
    + destruct (div_by_zero two) as [q' | | |] eqn:E2;
        [exfalso; exact (div_by_zero_infinite two q' E2) | | |];
        cbn [np_multiply np_negative]; try discriminate.
      * destruct (div_by_zero pi) as [q' | | |] eqn:E3;
          [exfalso; exact (div_by_zero_infinite pi q' E3) | | |]; discriminate.
      * apply div_by_zero_infinite.
    + discriminate.
  - apply Qceqb_neq in Ea. cbn [np_multiply]. f_equal. field.
    repeat split; assumption.
Qed.

Lemma Sxx_scale (k : Qc) (x : list Qc) : Sxx (map (Qcmult k) x) = k * k * Sxx x.
Proof.
  unfold Sxx. induction x as [| a x IH]; [cbn; ring |].
  cbn [map]. rewrite !Qcsum_cons, IH. ring.
Qed.

Lemma Sxy_scale (k : Qc) (x : list Qc) : forall y,
  Sxy (map (Qcmult k) x) y = k * Sxy x y.
Proof.
  unfold Sxy. induction x as [| a x IH]; intros [| b y]; cbn [map combine];
    try (cbn; ring).
  rewrite !Qcsum_cons, IH. cbn [fst snd]. ring.
Qed.

(** The line fitted to abscissae multiplied by [k] has its slope divided
    by [k], and the same intercept. *)
Lemma np_polyfit1_scale_abscissae (k : Qc) (x y : list Qc) :
  k <> 0 ->
  np_polyfit1 (map (Qcmult k) x) y
  = (p <- np_polyfit1 x y ;; Ok (fst p / k, snd p)).
Proof.
  intro Hk. unfold np_polyfit1. destruct x as [| x0 x']; [reflexivity |].
  cbn [map]. change (k * x0 :: map (Qcmult k) x') with (map (Qcmult k) (x0 :: x')).
  remember (x0 :: x') as x eqn:Ex. clear Ex x'.
  rewrite length_map, Sxx_scale, Sxy_scale, Qcsum_map_mult.
  destruct (negb (length x =? length y)%nat); [reflexivity |].
  set (n := Qc_of_nat (length x)).
  set (D := n * Sxx x - Qcsum x * Qcsum x).
  replace (n * (k * k * Sxx x) - k * Qcsum x * (k * Qcsum x)) with ((k * k) * D)
    by (unfold D; ring).
  assert (Hkk : k * k <> 0)
    by (intro H; destruct (Qcmult_integral _ _ H); contradiction).
  rewrite (Qceqb_mult_zero (k * k) D Hkk), (Qceqb_mult_zero k x0 Hk).
  destruct (Qceqb D 0) eqn:ED.
  - destruct (Qceqb x0 0) eqn:E0; [reflexivity |]. apply Qceqb_neq in E0.
    cbn [bind fst snd]. f_equal. f_equal.
    rewrite two_is_1_plus_1. field. repeat split; try assumption. qc_neq.
  - apply Qceqb_neq in ED. cbn [bind fst snd]. f_equal. f_equal.
    + field. split; assumption.
    + field. split; assumption.
Qed.

Section SamplingFrequency.

Context {T : Transcendentals}.

Lemma rfftfreq_scale (k : Qc) (nfft : nat) (fs : Qc) :
  rfftfreq nfft (k * fs) = map (Qcmult k) (rfftfreq nfft fs).
Proof.
  unfold rfftfreq. rewrite map_map. apply map_ext. intro i.
  unfold Qcdiv. ring.
Qed.

Lemma cross_periodogram_scale (c scale : Qc) (nfft : nat) (Xk Yk : list complex) :
  cross_periodogram (c * scale) nfft Xk Yk
  = map (Cscale c) (cross_periodogram scale nfft Xk Yk).
Proof.
  unfold cross_periodogram. rewrite map_map. apply map_ext.
  intros [i [xk yk]]. cbn [fst snd]. unfold Cscale. cbn [re im]. f_equal; ring.
Qed.

(** The spectral densities for a sampling frequency multiplied by [k]:
    the frequencies are multiplied by [k], the densities divided by
    [k]. *)
Lemma signal_csd_sampling (k : Qc) (x y : list Qc) (fs : Qc)
  (nperseg noverlap nfft : nat) :
  k <> 0 ->
  signal_csd x y (k * fs) nperseg noverlap nfft
  = (fZ <- signal_csd x y fs nperseg noverlap nfft ;;
     Ok (map (Qcmult k) (fst fZ), map (Cscale (1 / k)) (snd fZ))).
Proof.
  intro Hk. unfold signal_csd.
  destruct ((length x =? 0)%nat || (length y =? 0)%nat); [reflexivity |].
  destruct (nperseg <? 1)%nat; [reflexivity |].
  destruct (nfft <? _)%nat; [reflexivity |].
  destruct (_ <=? noverlap)%nat; [reflexivity |].
  rewrite (Qceqb_mult_zero k fs Hk).
  destruct (Qceqb fs 0) eqn:Ef; [reflexivity |]. apply Qceqb_neq in Ef.
  cbn [bind fst snd]. f_equal. f_equal.
  - apply rfftfreq_scale.
  - rewrite <- mean_over_segments_gain. f_equal. rewrite map_map.
    apply map_ext. intros [Xk Yk]. cbn [fst snd].
    rewrite <- cross_periodogram_scale. f_equal.
    set (S := Qcsum (times _ _)). unfold Qcdiv.
    rewrite !Qcmult_1_l. 
    destruct (Qc_eq_dec S 0) as [E0 | N0].
    + rewrite E0. replace (k * fs * 0) with 0 by ring.
      replace (fs * 0) with 0 by ring. 
      change (/ 0) with 0. ring.
    + field. repeat split; assumption.
Qed.

Lemma signal_welch_sampling (k : Qc) (x : list Qc) (fs : Qc)
  (nperseg noverlap nfft : nat) :
  k <> 0 ->
  signal_welch x (k * fs) nperseg noverlap nfft
  = (fP <- signal_welch x fs nperseg noverlap nfft ;;
     Ok (map (Qcmult k) (fst fP), map (Qcmult (1 / k)) (snd fP))).
Proof.
  intro Hk. unfold signal_welch. rewrite (signal_csd_sampling k x x fs _ _ _ Hk).
  destruct (signal_csd x x fs nperseg noverlap nfft) as [[f Z] | e];
    cbn [bind fst snd]; [| reflexivity].
  f_equal. f_equal. rewrite !map_map. apply map_ext. intro z. reflexivity.
Qed.

(** The coherence is a quotient of densities: it does not change when the
    three of them are multiplied by the same number. *)
Lemma coherence_scale (c : Qc) (Z : list complex) (Pxx Pyy : list Qc) :
  c <> 0 ->
  coherence (map (Cscale c) Z) (map (Qcmult c) Pxx) (map (Qcmult c) Pyy)
  = coherence Z Pxx Pyy.
Proof.
  intro Hc. set (s := c * c).
  assert (Hs : 0 < s) by (apply Qcsquare_pos; exact Hc).
  unfold coherence.
  rewrite np_broadcast_map.
  rewrite (np_broadcast_ext _ (fun u v => Qcmult s (u * v)))
    by (intros u v; unfold s; ring).
  rewrite (np_broadcast_map_result Qcmult (Qcmult s)).
  destruct (np_broadcast Qcmult Pxx Pyy) as [den | e]; cbn [bind]; [| reflexivity].
  replace (map Cnorm2 (map (Cscale c) Z)) with (map (Qcmult s) (map Cnorm2 Z))
    by (rewrite !map_map; apply map_ext; intro z; rewrite Cnorm2_Cscale; reflexivity).
  rewrite np_broadcast_map. apply np_broadcast_ext. intros n d.
  apply np_true_divide_scale. exact Hs.
Qed.

(** X18: the estimates follow the sampling frequency: for the same samples and
    a sampling frequency multiplied by [k > 0], both estimators return
    [k] times the velocity, and raise what they raised.  The lags and the
    correlation do not change; the frequencies are multiplied by [k], the
    cross-spectrum and the slope of the fitted line are divided by [k],
    and the coherence, the cutoff and the intercept do not change
    ([np.arctan2] giving the same angle to a vector and to its positive
    multiples). *)
Theorem sampling_frequency_scales_velocity
  (self : RMP_ConvectionVelocityCalculator) (k : Qc) (N_window N_overlap : nat) :
  0 < k ->
  (forall s y x, 0 < s -> np_arctan2 (s * y) (s * x) = np_arctan2 y x) ->
  compute_timedomain (with_sampling_frequency self k)
  = (' (Ucv, result_plot) <- compute_timedomain self ;;
     Ok (np_multiply (Fin k) Ucv, result_plot)) /\
  compute_freqdomain (with_sampling_frequency self k) N_window N_overlap
  = (' (Ucv, result_plot) <- compute_freqdomain self N_window N_overlap ;;
     Ok (np_multiply (Fin k) Ucv,
         {| gamma2 := gamma2 result_plot;
            ind_fmax_fit := ind_fmax_fit result_plot;
            f_Pxy := map (Qcmult k) (f_Pxy result_plot);
            P := (fst (P result_plot) / k, snd (P result_plot));
            Pxy := map (Cscale (1 / k)) (Pxy result_plot) |})).
Proof.
  intros Hk Hatan.
  assert (Hk0 : k <> 0) by (apply not_eq_sym, Qclt_not_eq, Hk).
  assert (Hinv0 : 1 / k <> 0) by (apply Qcdiv_neq_0; [qc_neq | exact Hk0]).
  assert (Hinv : 0 < 1 / k).
  { destruct (Qcle_lt_or_eq 0 (1 / k)) as [L | E].
    - apply Qcinv_nonneg. apply Qclt_le_weak. exact Hk.
    - exact L.
    - symmetry in E. contradiction. }
  split.
  - unfold compute_timedomain, with_sampling_frequency.
    cbn [RMP_data_1 RMP_data_2 RMP_x1 RMP_x2 fs].
    destruct (signal_correlate _ _) as [R | e]; cbn [bind]; [| reflexivity].
    destruct (ind_Rxy_max R) as [ind | e]; cbn [bind]; [| reflexivity].
    destruct (getitem _ ind) as [lag | e]; cbn [bind]; [| reflexivity].
    f_equal. f_equal. apply timedomain_velocity_scale. exact Hk.
  - unfold compute_freqdomain, with_sampling_frequency.
    cbn [RMP_data_1 RMP_data_2 RMP_x1 RMP_x2 fs].
    rewrite (signal_csd_sampling k _ _ _ _ _ _ Hk0),
      !(signal_welch_sampling k _ _ _ _ _ Hk0).
    destruct (signal_csd _ _ _ _ _ _) as [[f Z] | e]; cbn [bind fst snd]; [| reflexivity].
    destruct (signal_welch (RMP_data_1 self) _ _ _ _) as [[f1 Pxx] | e];
      cbn [bind fst snd]; [| reflexivity].
    destruct (signal_welch (RMP_data_2 self) _ _ _ _) as [[f2 Pyy] | e];
      cbn [bind fst snd]; [| reflexivity].
    rewrite (coherence_scale (1 / k) Z Pxx Pyy Hinv0).
    destruct (coherence Z Pxx Pyy) as [g | e]; cbn [bind]; [| reflexivity].
    destruct (getitem_last (ind_tmp g)) as [c | e]; cbn [bind]; [| reflexivity].
    rewrite !slice_map, map_map.
    rewrite (map_ext (fun z => np_angle (Cscale (1 / k) z)) np_angle)
      by (intro z; unfold np_angle, Cscale; cbn [re im]; apply Hatan; exact Hinv).
    rewrite (np_polyfit1_scale_abscissae k _ _ Hk0).
    destruct (np_polyfit1 _ _) as [[a b] | e]; cbn [bind fst snd]; [| reflexivity].
    f_equal. f_equal. apply freqdomain_velocity_scale. exact Hk.
Qed.

End SamplingFrequency.

(* ================================================================== *)
(** ** [plot_freqdomain] *)

Section PlotFreqdomain.

Context {T : Transcendentals}.

Lemma getitem_Some {A : Type} (xs : list A) (i : nat) (v : A) :
  nth_error xs i = Some v -> getitem xs i = Ok v.
Proof. intro H. unfold getitem. rewrite H. reflexivity. Qed.

(** [plot_freqdomain] with the cutoff inside of the two arrays that it
    indexes. *)
Lemma plot_freqdomain_steps (self : RMP_ConvectionVelocityCalculator)
  (result_plot : freqdomain_plot) (fmax : Qc) (gamma2_lim : npfloat) :
  nth_error (f_Pxy result_plot) (ind_fmax_fit result_plot) = Some fmax ->
  nth_error (gamma2 result_plot) (ind_fmax_fit result_plot) = Some gamma2_lim ->
  plot_freqdomain self result_plot
  = Ok {| fit_limit := (fmax, fmax);
          coherence_curve := (f_Pxy result_plot, gamma2 result_plot);
          coherence_limit := (fmax, gamma2_lim);
          phase_curve := (f_Pxy result_plot,
                          map degrees (np_unwrap (map np_angle (Pxy result_plot))));
          fit_line := (f_Pxy result_plot,
                       map (fitted_degrees (P result_plot)) (f_Pxy result_plot));
          fit_limit_point := (fmax, fitted_degrees (P result_plot) fmax) |}.
Proof.
  intros Hf Hg. unfold plot_freqdomain.
  rewrite (getitem_Some _ _ _ Hf), (getitem_Some _ _ _ Hg). reflexivity.
Qed.

(* ------------------------------------------------------------------ *)
(** *** The plot of an estimate *)

(** X19: from what [compute_freqdomain] returns, [plot_freqdomain] computes
    three curves that have as many ordinates as abscissae; the grey bands
    and the two red points are at the frequency
    [ind_fmax_fit * fs / N_window] of the cutoff, where the coherence is
    0.1 at least; and the red point of the phase panel lies on the dashed
    line of the fit. *)
Theorem plot_freqdomain_of_estimate
  (self : RMP_ConvectionVelocityCalculator) (N_window N_overlap : nat)
  (Ucv : npfloat) (result_plot : freqdomain_plot) :
  compute_freqdomain self N_window N_overlap = Ok (Ucv, result_plot) ->
  exists fig fmax,
    plot_freqdomain self result_plot = Ok fig /\
    fmax = Qc_of_nat (ind_fmax_fit result_plot) * (fs self / Qc_of_nat N_window) /\
    fit_limit fig = (fmax, fmax) /\
    fst (coherence_limit fig) = fmax /\
    np_greater_equal (snd (coherence_limit fig)) (Fin (qc 1 10)) = true /\
    fst (fit_limit_point fig) = fmax /\
    nth_error (snd (fit_line fig)) (ind_fmax_fit result_plot)
    = Some (snd (fit_limit_point fig)) /\
    length (fst (coherence_curve fig)) = length (snd (coherence_curve fig)) /\
    length (fst (phase_curve fig)) = length (snd (phase_curve fig)) /\
    length (fst (fit_line fig)) = length (snd (fit_line fig)).
Proof.
  intro E.
  destruct (compute_freqdomain_inv _ _ _ _ _ E) as (Hs & Hc & _).
  destruct (cutoff_is_last_coherent _ _ Hc) as [(v & Hv & Hcoh) _].
  assert (Hlt : (ind_fmax_fit result_plot < length (gamma2 result_plot))%nat)
    by (apply nth_error_Some; congruence).
  destruct (spectra_shape _ _ _ _ _ _ Hs) as (Lf & LZ & Hshape).
  destruct Hshape as (_ & _ & _ & _ & Ef & Lg).
  { intro Eg. rewrite Eg in Hlt. cbn in Hlt. lia. }
  assert (Hf : nth_error (f_Pxy result_plot) (ind_fmax_fit result_plot)
               = Some (Qc_of_nat (ind_fmax_fit result_plot)
                       * (fs self / Qc_of_nat N_window))).
  { rewrite Ef. apply nth_error_rfftfreq. lia. }
  eexists. eexists.
  split; [apply (plot_freqdomain_steps self result_plot _ v Hf Hv) |].
  cbn [fit_limit coherence_limit coherence_curve phase_curve fit_line
       fit_limit_point fst snd].
  split; [reflexivity |]. split; [reflexivity |]. split; [reflexivity |].
  split; [exact Hcoh |]. split; [reflexivity |].
  split; [rewrite nth_error_map, Hf; reflexivity |].
  split; [exact Lf |].
  split; [rewrite length_map, length_np_unwrap, length_map; congruence |].
  rewrite length_map. reflexivity.
Qed.

(** X20: the phase that is plotted is unwrapped from bin 0 on, the phase that
    was fitted from bin 1 on.  In the plot of an estimate the measured
    curve is, over the fit range, the fitted phase plus one constant: the
    correction that [np.unwrap] applies to the step from bin 0 to bin 1, a
    whole number of turns, which is zero when these two phases differ by
    less than [np.pi]. *)
Theorem plot_freqdomain_phase_offset
  (self : RMP_ConvectionVelocityCalculator) (N_window N_overlap : nat)
  (Ucv : npfloat) (result_plot : freqdomain_plot) :
  0 < np_pi ->
  compute_freqdomain self N_window N_overlap = Ok (Ucv, result_plot) ->
  exists fig z0 z1 offset,
    plot_freqdomain self result_plot = Ok fig /\
    nth_error (Pxy result_plot) 0 = Some z0 /\
    nth_error (Pxy result_plot) 1 = Some z1 /\
    offset = unwrap_ph_correct (np_angle z1 - np_angle z0) /\
    (Qcabs (np_angle z1 - np_angle z0) < np_pi -> offset = 0) /\
    (exists k : Z, offset = qc 2 1 * np_pi * Qc_of_Z k) /\
    forall i phi,
      nth_error (np_unwrap (map np_angle
                                (slice 1 (ind_fmax_fit result_plot) (Pxy result_plot)))) i
      = Some phi ->
      nth_error (snd (phase_curve fig)) (S i) = Some (degrees (phi + offset)).
Proof.
  intros Hpi E.
  destruct (compute_freqdomain_inv _ _ _ _ _ E) as (Hs & Hc & Hfit & _).
  destruct (cutoff_is_last_coherent _ _ Hc) as [(v & Hv & _) _].
  assert (Hlt : (ind_fmax_fit result_plot < length (gamma2 result_plot))%nat)
    by (apply nth_error_Some; congruence).
  destruct (spectra_shape _ _ _ _ _ _ Hs) as (Lf & LZ & _).
  assert (Hc2 : (2 <= ind_fmax_fit result_plot)%nat).
  { apply np_polyfit1_nonempty in Hfit. rewrite length_slice_1 in Hfit. lia. }
  destruct (nth_error (f_Pxy result_plot) (ind_fmax_fit result_plot)) as [fmax |] eqn:Hf;
    [| apply nth_error_None in Hf; lia].
  destruct (nth_error (Pxy result_plot) 0) as [z0 |] eqn:H0;
    [| apply nth_error_None in H0; lia].
  destruct (nth_error (Pxy result_plot) 1) as [z1 |] eqn:H1;
    [| apply nth_error_None in H1; lia].
  eexists. exists z0, z1, (unwrap_ph_correct (np_angle z1 - np_angle z0)).
  split; [apply (plot_freqdomain_steps self result_plot fmax v Hf Hv) |].
  split; [reflexivity |]. split; [reflexivity |]. split; [reflexivity |].
  split.
  { intro Hsmall. unfold unwrap_ph_correct.
    apply Qcltb_lt in Hsmall. rewrite Hsmall. reflexivity. }
  split; [apply unwrap_ph_correct_period; exact Hpi |].
  intros i phi Hi. cbn [phase_curve snd].
  rewrite <- slice_map in Hi.
  rewrite nth_error_map.
  rewrite (np_unwrap_slice_1 (ind_fmax_fit result_plot) (map np_angle (Pxy result_plot))
             (np_angle z0) (np_angle z1) i phi);
    [reflexivity | | | exact Hi].
  - rewrite nth_error_map, H0. reflexivity.
  - rewrite nth_error_map, H1. reflexivity.
Qed.

End PlotFreqdomain.

(* ================================================================== *)
(** ** The example script: the filter and [main] *)

Lemma sosfilt_sample_length (sos : list sos_section) : forall zi x_cur,
  length zi = length sos ->
  length (fst (sosfilt_sample sos zi x_cur)) = length sos.
Proof.
  induction sos as [| s sos IH]; intros zi x_cur Hlen; [reflexivity |].
  destruct zi as [| z zi]; [discriminate |].
  cbn [sosfilt_sample].
  destruct (sosfilt_sample sos zi (sos_b0 s * x_cur + fst z)) as [zs y] eqn:E.
  cbn [fst length]. f_equal.
  specialize (IH zi (sos_b0 s * x_cur + fst z)). rewrite E in IH. apply IH.
  cbn in Hlen. lia.
Qed.

Lemma length_sosfilt_loop (sos : list sos_section) (x : list Qc) : forall zi,
  length (sosfilt_loop sos zi x) = length x.
Proof.
  induction x as [| x_cur rest IH]; intro zi; [reflexivity |].
  cbn [sosfilt_loop]. destruct (sosfilt_sample sos zi x_cur) as [zi' y].
  cbn [length]. f_equal. apply IH.
Qed.




(* ------------------------------------------------------------------ *)
(** *** [signal.sosfilt] *)



(** The combination [a * u + b * v] of two states of the filter. *)
Lemma sosfilt_sample_linear (a b : Qc) (sos : list sos_section) :
  forall (za zb : list (Qc * Qc)) (u v : Qc),
    length za = length sos -> length zb = length sos ->
    sosfilt_sample sos
      (map (fun p => (a * fst (fst p) + b * fst (snd p),
                      a * snd (fst p) + b * snd (snd p))) (combine za zb))
      (a * u + b * v)
    = (map (fun p => (a * fst (fst p) + b * fst (snd p),
                      a * snd (fst p) + b * snd (snd p)))
           (combine (fst (sosfilt_sample sos za u)) (fst (sosfilt_sample sos zb v))),
       a * snd (sosfilt_sample sos za u) + b * snd (sosfilt_sample sos zb v)).
Proof.
  induction sos as [| s sos IH]; intros za zb u v La Lb.
  - destruct za; [| discriminate]. reflexivity.
  - destruct za as [| [za0 za1] za]; [discriminate |].
    destruct zb as [| [zb0 zb1] zb]; [discriminate |].
    cbn [combine map sosfilt_sample fst snd].
    replace (sos_b0 s * (a * u + b * v) + (a * za0 + b * zb0))
      with (a * (sos_b0 s * u + za0) + b * (sos_b0 s * v + zb0)) by ring.
    rewrite IH by (cbn in La, Lb; lia).
    destruct (sosfilt_sample sos za (sos_b0 s * u + za0)) as [zsa ya].
    destruct (sosfilt_sample sos zb (sos_b0 s * v + zb0)) as [zsb yb].
    cbn [fst snd combine map]. f_equal. f_equal. f_equal; ring.
Qed.

Lemma sosfilt_loop_linear (a b : Qc) (sos : list sos_section) (x : list Qc) :
  forall (y : list Qc) (za zb : list (Qc * Qc)),
    length za = length sos -> length zb = length sos ->
    sosfilt_loop sos
      (map (fun p => (a * fst (fst p) + b * fst (snd p),
                      a * snd (fst p) + b * snd (snd p))) (combine za zb))
      (map (fun p => a * fst p + b * snd p) (combine x y))
    = map (fun p => a * fst p + b * snd p)
          (combine (sosfilt_loop sos za x) (sosfilt_loop sos zb y)).
Proof.
  induction x as [| u x IH]; intros y za zb La Lb; [reflexivity |].
  destruct y as [| v y].
  - cbn [combine map sosfilt_loop].
    destruct (sosfilt_sample sos za u) as [za' ya]. reflexivity.
  - cbn [combine map sosfilt_loop fst snd].
    rewrite sosfilt_sample_linear by assumption.
    pose proof (sosfilt_sample_length sos za u La) as La'.
    pose proof (sosfilt_sample_length sos zb v Lb) as Lb'.
    destruct (sosfilt_sample sos za u) as [za' ya].
    destruct (sosfilt_sample sos zb v) as [zb' yb].
    cbn [fst snd] in *. cbn [combine map fst snd]. f_equal.
    apply IH; assumption.
Qed.

Lemma sosfilt_rest_linear (a b : Qc) (sos : list sos_section) :
  map (fun p : (Qc * Qc) * (Qc * Qc) =>
         (a * fst (fst p) + b * fst (snd p), a * snd (fst p) + b * snd (snd p)))
      (combine (map (fun _ => (0, 0)) sos) (map (fun _ => (0, 0)) sos))
  = map (fun _ => (0, 0)) sos.
Proof.
  induction sos as [| s sos IH]; [reflexivity |].
  cbn [map combine fst snd]. rewrite IH. f_equal. f_equal; ring.
Qed.

(** X23: [signal.sosfilt] is linear: the filtered combination
    [a * x + b * y] of two recordings is the combination of the filtered
    recordings. *)
Theorem sosfilt_linear (sos : list sos_section) (a b : Qc) (x y : list Qc) :
  signal_sosfilt sos (map (fun p => a * fst p + b * snd p) (combine x y))
  = (fx <- signal_sosfilt sos x ;;
     fy <- signal_sosfilt sos y ;;
     Ok (map (fun p => a * fst p + b * snd p) (combine fx fy))).
Proof.
  unfold signal_sosfilt. destruct sos as [| s0 sos']; [reflexivity |].
  destruct (forallb (fun s => Qceqb (sos_a0 s) 1) (s0 :: sos')); [| reflexivity].
  cbn [bind]. f_equal.
  rewrite <- (sosfilt_loop_linear a b (s0 :: sos') x y) by apply length_map.
  f_equal. symmetry. apply sosfilt_rest_linear.
Qed.

(* ------------------------------------------------------------------ *)
(** *** [main] *)

Section ExampleProperties.

Context {T : Transcendentals}.

(** The calculator that [main] builds from the filtered recordings. *)
Local Notation "'calculator_of' f1 f2" :=
  {| RMP_data_1 := f1; RMP_data_2 := f2;
     RMP_x1 := qc 97 1000; RMP_x2 := qc 110 1000; fs := qc 51200 1 |}
  (at level 10, f1 at level 9, f2 at level 9).

(** [window = int(fs * (1 / df))] is 3200 and [overlap = window // 2] is
    1600. *)
Lemma main_steps (sos : list sos_section) (RMP_data_x1 RMP_data_x2 : list Qc) :
  main sos RMP_data_x1 RMP_data_x2
  = (f1 <- signal_sosfilt sos RMP_data_x1 ;;
     f2 <- signal_sosfilt sos RMP_data_x2 ;;
     ' (Ucv_fitCSD, result_plot_fitCSD) <-
       compute_freqdomain (calculator_of f1 f2) 3200 1600 ;;
     ' (Ucv_xcorr, result_plot_xcorr) <- compute_timedomain (calculator_of f1 f2) ;;
     _ <- plot_freqdomain (calculator_of f1 f2) result_plot_fitCSD ;;
     _ <- plot_timedomain (calculator_of f1 f2) result_plot_xcorr ;;
     Ok (Ucv_fitCSD, Ucv_xcorr)).
Proof.
  unfold main.
  replace (Z.to_nat (py_int (qc 51200 1 * (1 / qc 16 1)))) with 3200%nat
    by (vm_compute; reflexivity).
  replace (3200 / 2)%nat with 1600%nat by (vm_compute; reflexivity).
  reflexivity.
Qed.

Lemma sosfilt_valid (sos : list sos_section) (x : list Qc) :
  sos <> [] -> (forall s, In s sos -> sos_a0 s = 1) ->
  signal_sosfilt sos x = Ok (sosfilt_loop sos (map (fun _ => (0, 0)) sos) x).
Proof.
  intros Hne Hall. unfold signal_sosfilt. destruct sos as [| s0 sos']; [congruence |].
  assert (E : forallb (fun s => Qceqb (sos_a0 s) 1) (s0 :: sos') = true).
  { apply forallb_forall. intros s Hs. apply Qceqb_eq. apply Hall. exact Hs. }
  rewrite E. reflexivity.
Qed.

Lemma nonempty_of_length {A : Type} (l : list A) : (0 < length l)%nat -> l <> [].
Proof. destruct l; [cbn; lia | discriminate]. Qed.

(** X24: with the window and the overlap of the script, recordings of 1600
    samples or less are refused: for valid filter sections and recordings
    that hold samples, the shorter of which has at most 1600, [main]
    raises the [ValueError] of SciPy for an overlap that is not smaller
    than the segment. *)
Theorem main_short_recordings
  (sos : list sos_section) (RMP_data_x1 RMP_data_x2 : list Qc) :
  sos <> [] -> (forall s, In s sos -> sos_a0 s = 1) ->
  RMP_data_x1 <> [] -> RMP_data_x2 <> [] ->
  (Nat.min (length RMP_data_x1) (length RMP_data_x2) <= 1600)%nat ->
  main sos RMP_data_x1 RMP_data_x2 = Raise ValueError.
Proof.
  intros Hne Hall H1 H2 Hshort. rewrite main_steps.
  rewrite (sosfilt_valid sos RMP_data_x1 Hne Hall),
    (sosfilt_valid sos RMP_data_x2 Hne Hall).
  cbn [bind].
  set (f1 := sosfilt_loop sos _ RMP_data_x1).
  set (f2 := sosfilt_loop sos _ RMP_data_x2).
  assert (L1 : length f1 = length RMP_data_x1) by apply length_sosfilt_loop.
  assert (L2 : length f2 = length RMP_data_x2) by apply length_sosfilt_loop.
  pose proof (length_pos_nonempty _ H1) as P1.
  pose proof (length_pos_nonempty _ H2) as P2.
  rewrite compute_freqdomain_spectra.
  rewrite (spectra_refuses (calculator_of f1 f2) 3200 1600).
  - reflexivity.
  - cbn [RMP_data_1]. apply nonempty_of_length. lia.
  - cbn [RMP_data_2]. apply nonempty_of_length. lia.
  - cbn [fs]. qc_neq.
  - right. cbn [RMP_data_1 RMP_data_2]. rewrite L1, L2. lia.
Qed.

End ExampleProperties.

(* ================================================================== *)
(** ** The further properties on recordings

    The transcendental functions are those of [quarter_turns]. *)

Lemma unwrap_steps_within_pi_witness :
  length (np_unwrap [qc 0 1; qc 3 1; qc (-3) 1]) = 3%nat /\
  nth_error (np_unwrap [qc 0 1; qc 3 1; qc (-3) 1]) 0 = Some (qc 0 1) /\
  (forall i a b, nth_error (np_unwrap [qc 0 1; qc 3 1; qc (-3) 1]) i = Some a ->
                 nth_error (np_unwrap [qc 0 1; qc 3 1; qc (-3) 1]) (S i) = Some b ->
                 Qcabs (b - a) <= np_pi) /\
  (forall i a, nth_error (np_unwrap [qc 0 1; qc 3 1; qc (-3) 1]) i = Some a ->
               exists v (k : Z), nth_error [qc 0 1; qc 3 1; qc (-3) 1] i = Some v /\
                                 a = v + qc 2 1 * np_pi * Qc_of_Z k) /\
  ((forall i a b, nth_error [qc 0 1; qc 3 1; qc (-3) 1] i = Some a ->
                  nth_error [qc 0 1; qc 3 1; qc (-3) 1] (S i) = Some b ->
                  Qcabs (b - a) < np_pi) ->
   np_unwrap [qc 0 1; qc 3 1; qc (-3) 1] = [qc 0 1; qc 3 1; qc (-3) 1]).
Proof.
  apply (unwrap_steps_within_pi [qc 0 1; qc 3 1; qc (-3) 1]).
  vm_compute. reflexivity.
Defined.

(** The second phase of this witness is moved by one turn: the unwrapped
    phases are [0], [3] and [2 * pi - 3]. *)
Lemma unwrap_moves_by_a_turn :
  np_unwrap [qc 0 1; qc 3 1; qc (-3) 1]
  = [qc 0 1; qc 3 1; qc (-3) 1 + qc 2 1 * pi_float64].
Proof. qc_compute. Qed.


Lemma freqdomain_parameters_witness :
  compute_freqdomain quadrature_probes 4 4 = Raise ValueError /\
  exists Z g,
    spectra quadrature_probes 4 0 = Ok (rfftfreq 4 (fs quadrature_probes), Z, g) /\
    length Z = 3%nat /\ length g = 3%nat.
Proof.
  assert (H1 : RMP_data_1 quadrature_probes <> []) by discriminate.
  assert (H2 : RMP_data_2 quadrature_probes <> []) by discriminate.
  assert (Hfs : 0 < fs quadrature_probes) by (vm_compute; reflexivity).
  split.
  - apply (proj1 (freqdomain_parameters quadrature_probes 4 4 H1 H2 Hfs)).
    right. cbn. lia.
  - destruct (proj2 (freqdomain_parameters quadrature_probes 4 0 H1 H2 Hfs))
      as (Z & g & E & LZ & Lg & _); [lia | cbn; lia |].
    exists Z, g. split; [exact E |]. split; assumption.
Defined.

Lemma freqdomain_estimate_shape_witness :
  RMP_data_1 quadrature_probes <> [] /\ RMP_data_2 quadrature_probes <> [] /\
  fs quadrature_probes <> 0 /\
  (4 <= 4)%nat /\
  (0 < Nat.min 4 (Nat.min (length (RMP_data_1 quadrature_probes))
                          (length (RMP_data_2 quadrature_probes))))%nat /\
  f_Pxy quadrature_plot = rfftfreq 4 (fs quadrature_probes) /\
  length (f_Pxy quadrature_plot) = (4 / 2 + 1)%nat /\
  length (Pxy quadrature_plot) = (4 / 2 + 1)%nat /\
  length (gamma2 quadrature_plot) = (4 / 2 + 1)%nat /\
  (2 <= ind_fmax_fit quadrature_plot <= 4 / 2)%nat /\
  length (slice 1 (ind_fmax_fit quadrature_plot) (f_Pxy quadrature_plot))
  = (ind_fmax_fit quadrature_plot - 1)%nat.
Proof.
  apply (freqdomain_estimate_shape quadrature_probes 4 0 (Fin (qc (-8) 1))).
  qc_compute.
Defined.

Lemma freqdomain_empty_recordings_witness :
  compute_freqdomain {| RMP_data_1 := []; RMP_data_2 := [];
                        RMP_x1 := qc 0 1; RMP_x2 := qc 1 1; fs := qc 4 1 |} 4 0
  = Raise IndexError /\
  exists e,
    compute_freqdomain {| RMP_data_1 := []; RMP_data_2 := [qc 1 1; qc 2 1];
                          RMP_x1 := qc 0 1; RMP_x2 := qc 1 1; fs := qc 4 1 |} 4 0
    = Raise e.
Proof.
  split.
  - apply (proj1 (freqdomain_empty_recordings _ 4 0)); reflexivity.
  - apply (proj2 (freqdomain_empty_recordings _ 4 0)). left. reflexivity.
Defined.

Lemma welch_density_nonnegative_witness :
  exists Z,
    signal_csd [qc 0 1; qc 1 1; qc 2 1; qc 1 1] [qc 0 1; qc 1 1; qc 2 1; qc 1 1]
               (qc 4 1) 4 0 4
    = Ok ([qc 0 1; qc 1 1; qc 2 1], Z) /\
    [qc 1 6; qc 1 3; qc 1 6] = map re Z /\
    (forall z, In z Z -> im z = 0) /\
    (forall v, In v [qc 1 6; qc 1 3; qc 1 6] -> 0 <= v).
Proof.
  apply (welch_density_nonnegative [qc 0 1; qc 1 1; qc 2 1; qc 1 1] (qc 4 1) 4 0 4).
  - vm_compute. reflexivity.
  - qc_compute.
Defined.


(** The diamond angle of a vector is that of its positive multiples. *)
Lemma arctan2_diamond_homogeneous (k y x : Qc) :
  0 < k -> arctan2_diamond (k * y) (k * x) = arctan2_diamond y x.
Proof.
  intro Hk. assert (Hk0 : k <> 0) by (apply not_eq_sym, Qclt_not_eq, Hk).
  assert (Hz : forall u, Qceqb (k * u) 0 = Qceqb u 0).
  { intro u. destruct (Qceqb u 0) eqn:E.
    - apply Qceqb_eq in E. apply Qceqb_eq. rewrite E. ring.
    - apply Qceqb_neq in E. apply Qceqb_neq. intro H.
      destruct (Qcmult_integral _ _ H); contradiction. }
  assert (Hle : forall u, Qcleb 0 (k * u) = Qcleb 0 u).
  { intro u. destruct (Qcleb 0 u) eqn:E.
    - apply Qcleb_le in E. apply Qcleb_le. apply Qcmult_nonneg; [| exact E].
      apply Qclt_le_weak. exact Hk.
    - apply Qcleb_gt in E. apply Qcleb_gt. qc_to_q. nra. }
  unfold arctan2_diamond. rewrite !Hz, !Hle.
  destruct (Qceqb x 0 && Qceqb y 0) eqn:E0; [reflexivity |].
  assert (Hs : Qcabs x + Qcabs y <> 0).
  { intro H. apply andb_false_iff in E0.
    pose proof (Qcabs_nonneg x) as Ax. pose proof (Qcabs_nonneg y) as Ay.
    assert (Ex : Qcabs x = 0) by (apply Qcle_antisym; [qc_to_q; lra | exact Ax]).
    assert (Ey : Qcabs y = 0) by (apply Qcle_antisym; [qc_to_q; lra | exact Ay]).
    destruct E0 as [E0 | E0]; apply Qceqb_neq in E0.
    - apply (Qclt_not_eq _ _ (Qcabs_gt_0 x E0)). symmetry. exact Ex.
    - apply (Qclt_not_eq _ _ (Qcabs_gt_0 y E0)). symmetry. exact Ey. }
  rewrite !Qcabs_Qcmult, (Qcabs_pos k) by (apply Qclt_le_weak; exact Hk).
  assert (Eq : k * y / (k * Qcabs x + k * Qcabs y) = y / (Qcabs x + Qcabs y)).
  { set (s := Qcabs x + Qcabs y) in *.
    replace (k * Qcabs x + k * Qcabs y) with (k * s) by (unfold s; ring).
    field. repeat split; assumption. }
  rewrite Eq. reflexivity.
Qed.


Lemma plot_freqdomain_of_estimate_witness :
  exists fig fmax,
    plot_freqdomain quadrature_probes quadrature_plot = Ok fig /\
    fmax = Qc_of_nat (ind_fmax_fit quadrature_plot)
           * (fs quadrature_probes / Qc_of_nat 4) /\
    fit_limit fig = (fmax, fmax) /\
    fst (coherence_limit fig) = fmax /\
    np_greater_equal (snd (coherence_limit fig)) (Fin (qc 1 10)) = true /\
    fst (fit_limit_point fig) = fmax /\
    nth_error (snd (fit_line fig)) (ind_fmax_fit quadrature_plot)
    = Some (snd (fit_limit_point fig)) /\
    length (fst (coherence_curve fig)) = length (snd (coherence_curve fig)) /\
    length (fst (phase_curve fig)) = length (snd (phase_curve fig)) /\
    length (fst (fit_line fig)) = length (snd (fit_line fig)).
Proof.
  apply (plot_freqdomain_of_estimate quadrature_probes 4 0 (Fin (qc (-8) 1))).
  qc_compute.
Defined.

Lemma plot_freqdomain_phase_offset_witness :
  exists fig z0 z1 offset,
    plot_freqdomain quadrature_probes quadrature_plot = Ok fig /\
    nth_error (Pxy quadrature_plot) 0 = Some z0 /\
    nth_error (Pxy quadrature_plot) 1 = Some z1 /\
    offset = unwrap_ph_correct (np_angle z1 - np_angle z0) /\
    (Qcabs (np_angle z1 - np_angle z0) < np_pi -> offset = 0) /\
    (exists k : Z, offset = qc 2 1 * np_pi * Qc_of_Z k) /\
    forall i phi,
      nth_error (np_unwrap (map np_angle
                                (slice 1 (ind_fmax_fit quadrature_plot)
                                       (Pxy quadrature_plot)))) i
      = Some phi ->
      nth_error (snd (phase_curve fig)) (S i) = Some (degrees (phi + offset)).
Proof.
  apply (plot_freqdomain_phase_offset quadrature_probes 4 0 (Fin (qc (-8) 1))).
  - vm_compute. reflexivity.
  - qc_compute.
Defined.

(** For the opposite pulse the largest absolute correlation is negative:
    the velocity is that of the lag -2, and the line of the plot is drawn
    at the lag -1, where the correlation is the largest. *)
Lemma plot_timedomain_line_beside_the_lag :
  lagDiff inverted_probes = Ok (-2)%Z /\
  compute_timedomain inverted_probes
  = Ok (Fin (qc (-1) 20),
        {| Rxy := [qc 3 1; qc (-10) 1; qc 5 1; qc 4 1; qc 1 1; qc (-2) 1; qc (-1) 1];
           lags := [-3; -2; -1; 0; 1; 2; 3]%Z |}) /\
  exists fig,
    plot_timedomain inverted_probes
      {| Rxy := [qc 3 1; qc (-10) 1; qc 5 1; qc 4 1; qc 1 1; qc (-2) 1; qc (-1) 1];
         lags := [-3; -2; -1; 0; 1; 2; 3]%Z |} = Ok fig /\
    max_line fig = Fin (qc (-1) 10) :: nil.
Proof.
  split; [qc_compute |]. split; [qc_compute |].
  eexists. split; [vm_compute; reflexivity |]. qc_compute.
Qed.



(** The section [highpass_section] on a step: the output starts with
    [1, 0, -1/4]. *)
Lemma sosfilt_of_a_step :
  signal_sosfilt (highpass_section :: nil) [qc 1 1; qc 1 1; qc 1 1]
  = Ok [qc 1 1; qc 0 1; qc (-1) 4].
Proof. qc_compute. Qed.

Lemma main_short_recordings_witness :
  main (highpass_section :: nil) [qc 1 1; qc 2 1; qc 3 1] [qc 3 1; qc 2 1; qc 1 1]
  = Raise ValueError.
Proof.
  apply (main_short_recordings (highpass_section :: nil)).
  - discriminate.
  - intros s [<- | []]. reflexivity.
  - discriminate.
  - discriminate.
  - cbn. lia.
Defined.

Lemma sampling_frequency_scales_velocity_witness :
  compute_timedomain (with_sampling_frequency delayed_probes (qc 2 1))
  = (' (Ucv, result_plot) <- compute_timedomain delayed_probes ;;
     Ok (np_multiply (Fin (qc 2 1)) Ucv, result_plot)) /\
  compute_freqdomain (with_sampling_frequency quadrature_probes (qc 2 1)) 4 0
  = (' (Ucv, result_plot) <- compute_freqdomain quadrature_probes 4 0 ;;
     Ok (np_multiply (Fin (qc 2 1)) Ucv,
         {| gamma2 := gamma2 result_plot;
            ind_fmax_fit := ind_fmax_fit result_plot;
            f_Pxy := map (Qcmult (qc 2 1)) (f_Pxy result_plot);
            P := (fst (P result_plot) / qc 2 1, snd (P result_plot));
            Pxy := map (Cscale (1 / qc 2 1)) (Pxy result_plot) |})).
Proof.
  split.
  - apply (sampling_frequency_scales_velocity delayed_probes (qc 2 1) 4 0).
    + vm_compute. reflexivity.
    + intros s y x Hs. apply arctan2_diamond_homogeneous. exact Hs.
  - apply (sampling_frequency_scales_velocity quadrature_probes (qc 2 1) 4 0).
    + vm_compute. reflexivity.
    + intros s y x Hs. apply arctan2_diamond_homogeneous. exact Hs.
Defined.
